(** * The zombie survival game: the turn simulator and its driver

    A shallow embedding of the game logic of the "Save the humans" page
    (the component with [LEVELS], [simulateTurn] and [runTestCase]):
    [distance], [moveTowards], [findClosestHuman], [fibonacci],
    [simulateTurn] and the batch evaluator [runTestCase].

    Numbers.  A JavaScript [number] is an IEEE 754 binary64 value; it is
    modelled by [spec_float] with precision 53 and maximal exponent 1024,
    whose operations round to nearest, ties to even, as JavaScript's do.
    The coordinates, [score] and [turn] are such numbers.  A number that
    went through [JSON.parse (JSON.stringify _)] can also be [null],
    which arithmetic reads as 0.  The length of an array and the counters
    that it bounds ([aliveHumans], [zombiesKilledThisTurn]) are integers
    below 2^32, on which the source's increments are exact: they are kept
    in [Z] and enter the score through [JS.lit].  An [id] is only copied.

    Strings.  The message [`Victory! Score: ${newState.score}`] is kept
    as the number that the template prints, not as its decimal digits.

    The algorithm.  The player's algorithm is called with the state
    object itself and may assign to its fields: a call gives the state
    as it leaves it, and the point it returns unless it throws.

    Objects.  [simulateTurn] is given twice: as a function on the value
    of a state, on which the game rules are proved, and as a program on
    a memory of objects ([simulateTurnAt]), which copies the state and
    assigns to the fields of the copy as the source does; the two are
    proved to agree. *)

From stdpp Require Import base list strings.
From Stdlib Require Import ZArith Lia.
From Stdlib.Floats Require Import SpecFloat.

Open Scope Z_scope.

(** ** JavaScript numbers *)

Module JS.

Definition prec : Z := 53.
Definition emax : Z := 1024.

Definition number := spec_float.

(** An integer literal such as [400]. *)
Definition lit (z : Z) : number := binary_normalize prec emax z 0 false.

Definition add : number -> number -> number := SFadd prec emax.
Definition sub : number -> number -> number := SFsub prec emax.
Definition mul : number -> number -> number := SFmul prec emax.
Definition div : number -> number -> number := SFdiv prec emax.
Definition sqrt : number -> number := SFsqrt prec emax.

(** [a <= b] and [a < b]: false as soon as one side is NaN. *)
Definition le : number -> number -> bool := SFleb.
Definition lt : number -> number -> bool := SFltb.

(** [v ** 2].  The square of a binary64 value, rounded once. *)
Definition sq (v : number) : number := mul v v.

(** [Math.floor]: the largest integral number not above [v]; NaN, the
    infinities and both zeros are returned as they are.  A finite value
    with a non-negative exponent is already integral; otherwise the
    mantissa is shifted right, which on [Z] rounds toward minus
    infinity. *)
Definition floor (v : number) : number :=
  match v with
  | S754_finite s m e =>
      if 0 <=? e then v
      else binary_normalize prec emax
             (Z.shiftr (if s then Z.neg m else Z.pos m) (- e)) 0 false
  | _ => v
  end.

(** A value read back from [JSON.parse (JSON.stringify _)] where the
    source expects a number: JSON has no NaN and no infinity, they are
    written as [null]. *)
Inductive value :=
| Num (n : number)
| Null.

(** [ToNumber]: what arithmetic makes of a stored value. *)
Definition to_number (v : value) : number :=
  match v with
  | Num n => n
  | Null => S754_zero false
  end.

(** One number through [JSON.parse (JSON.stringify _)]: a finite number
    is printed with the shortest digits that read back as itself, minus
    zero is printed as [0], anything else becomes [null]. *)
Definition json (v : value) : value :=
  match v with
  | Num (S754_finite _ _ _) => v
  | Num (S754_zero _) => Num (S754_zero false)
  | Num (S754_infinity _) => Null
  | Num S754_nan => Null
  | Null => Null
  end.

(** The values that the JSON copy leaves as they are. *)
Definition json_stable (v : value) : bool :=
  match v with
  | Num (S754_finite _ _ _) => true
  | Num (S754_zero s) => negb s
  | Num _ => false
  | Null => true
  end.

Definition is_nan (n : number) : bool :=
  match n with S754_nan => true | _ => false end.

(** [v === n] for a number [n]: [null] is not a number, NaN equals
    nothing and the two zeros are equal. *)
Definition strict_eq (v : value) (n : number) : bool :=
  match v with
  | Num m => SFeqb m n
  | Null => false
  end.

(** The representations that stand for a binary64 number: the mantissa
    is normalised.  The operations above return such representations. *)
Definition binary64 (n : number) : bool := valid_binary prec emax n.

(** The integer that a number is, if it is one. *)
Definition integer (n : number) : option Z :=
  match n with
  | S754_zero _ => Some 0
  | S754_finite s m e =>
      let m := if s then Z.neg m else Z.pos m in
      if 0 <=? e then Some (m * 2 ^ e)
      else if m mod 2 ^ (- e) =? 0 then Some (m / 2 ^ (- e))
      else None
  | _ => None
  end.

(** A stored value that arithmetic reads as a finite number. *)
Definition finite (v : value) : bool :=
  match to_number v with
  | S754_zero _ | S754_finite _ _ _ => true
  | S754_infinity _ | S754_nan => false
  end.

End JS.

Coercion JS.Num : JS.number >-> JS.value.

(** ** Types *)

Module Point.
Record t := mk { x : JS.value; y : JS.value }.
End Point.

Module Human.
Record t := mk {
  id : Z;
  x : JS.value;
  y : JS.value;
  alive : bool;
  emoji : string;
}.
End Human.

Module Zombie.
Record t := mk {
  id : Z;
  x : JS.value;
  y : JS.value;
  xNext : JS.value;
  yNext : JS.value;
  alive : bool;
}.
End Zombie.

(** The message of a state: a text, or the template
    [`Victory! Score: ${score}`] with the number it prints. *)
Module Message.
Inductive t :=
| Text (text : string)
| Victory (score : JS.value).
End Message.

Module GameState.
Record t := mk {
  rich : Point.t;
  humans : list Human.t;
  zombies : list Zombie.t;
  score : JS.value;
  turn : JS.value;
  gameOver : bool;
  won : bool;
  message : Message.t;
}.
End GameState.

(** ** Constants *)

Definition RICH_SPEED : JS.number := JS.lit 1000.
Definition RICH_RANGE : JS.number := JS.lit 2000.
Definition ZOMBIE_SPEED : JS.number := JS.lit 400.

(** ** Game logic *)

Definition distance (x1 y1 x2 y2 : JS.value) : JS.number :=
  JS.sqrt (JS.add (JS.sq (JS.sub (JS.to_number x2) (JS.to_number x1)))
                  (JS.sq (JS.sub (JS.to_number y2) (JS.to_number y1)))).

Definition moveTowards (fromX fromY toX toY : JS.value) (speed : JS.number)
  : Point.t :=
  let dist := distance fromX fromY toX toY in
  if JS.le dist speed then Point.mk toX toY
  else
    let ratio := JS.div speed dist in
    Point.mk
      (JS.floor (JS.add (JS.to_number fromX)
         (JS.mul (JS.sub (JS.to_number toX) (JS.to_number fromX)) ratio)))
      (JS.floor (JS.add (JS.to_number fromY)
         (JS.mul (JS.sub (JS.to_number toY) (JS.to_number fromY)) ratio))).

(** The loop of [findClosestHuman], from the candidate [closest] at
    distance [minDist]. *)
Fixpoint closestFrom (zombie : Zombie.t) (humans : list Human.t)
    (closest : Point.t) (minDist : JS.number) : Point.t :=
  match humans with
  | [] => closest
  | human :: rest =>
      if negb (Human.alive human) then closestFrom zombie rest closest minDist
      else
        let dist := distance (Zombie.x zombie) (Zombie.y zombie)
                             (Human.x human) (Human.y human) in
        if JS.lt dist minDist
        then closestFrom zombie rest
               (Point.mk (Human.x human) (Human.y human)) dist
        else closestFrom zombie rest closest minDist
  end.

Definition findClosestHuman (zombie : Zombie.t) (humans : list Human.t)
    (rich : Point.t) : Point.t :=
  closestFrom zombie humans
    (Point.mk (Point.x rich) (Point.y rich))
    (distance (Zombie.x zombie) (Zombie.y zombie) (Point.x rich) (Point.y rich)).

Definition fibs : list Z :=
  [1; 2; 3; 5; 8; 13; 21; 34; 55; 89; 144; 233; 377; 610; 987].

(** [fibs[Math.min(n, fibs.length - 1)]]; the simulator only calls it
    with [n >= 0]. *)
Definition fibonacci (n : Z) : Z :=
  nth (Z.to_nat (Z.min n (Z.of_nat (length fibs) - 1))) fibs 0.

(** ** The turn simulator *)

(** [JSON.parse (JSON.stringify state)], field by field. *)
Definition jsonPoint (p : Point.t) : Point.t :=
  Point.mk (JS.json (Point.x p)) (JS.json (Point.y p)).

Definition jsonHuman (h : Human.t) : Human.t :=
  Human.mk (Human.id h) (JS.json (Human.x h)) (JS.json (Human.y h))
           (Human.alive h) (Human.emoji h).

Definition jsonZombie (z : Zombie.t) : Zombie.t :=
  Zombie.mk (Zombie.id z) (JS.json (Zombie.x z)) (JS.json (Zombie.y z))
            (JS.json (Zombie.xNext z)) (JS.json (Zombie.yNext z))
            (Zombie.alive z).

Definition jsonCopy (s : GameState.t) : GameState.t :=
  GameState.mk (jsonPoint (GameState.rich s))
               (jsonHuman <$> GameState.humans s)
               (jsonZombie <$> GameState.zombies s)
               (JS.json (GameState.score s)) (JS.json (GameState.turn s))
               (GameState.gameOver s) (GameState.won s)
               (GameState.message s).

(** 1. Zombies move towards their targets: the body of the first loop. *)
Definition moveZombie (humans : list Human.t) (rich : Point.t)
    (zombie : Zombie.t) : Zombie.t :=
  if negb (Zombie.alive zombie) then zombie
  else
    let target := findClosestHuman zombie humans rich in
    let newPos := moveTowards (Zombie.x zombie) (Zombie.y zombie)
                    (Point.x target) (Point.y target) ZOMBIE_SPEED in
    Zombie.mk (Zombie.id zombie) (Point.x newPos) (Point.y newPos)
              (Zombie.xNext zombie) (Zombie.yNext zombie) (Zombie.alive zombie).

(** 3. Any zombie within range of Rich is destroyed.  The loop carries
    the array as rewritten so far, [zombiesKilledThisTurn] and the
    score. *)
Definition destroyed (rich : Point.t) (zombie : Zombie.t) : bool :=
  JS.le (distance (Point.x rich) (Point.y rich)
                  (Zombie.x zombie) (Zombie.y zombie)) RICH_RANGE.

Definition killZombie (zombie : Zombie.t) : Zombie.t :=
  Zombie.mk (Zombie.id zombie) (Zombie.x zombie) (Zombie.y zombie)
            (Zombie.xNext zombie) (Zombie.yNext zombie) false.

Fixpoint destroyZombies (rich : Point.t) (aliveHumans : Z)
    (zombies : list Zombie.t) (zombiesKilledThisTurn : Z) (score : JS.value)
  : list Zombie.t * Z * JS.value :=
  match zombies with
  | [] => ([], zombiesKilledThisTurn, score)
  | zombie :: rest =>
      if negb (Zombie.alive zombie) then
        let '(rest', k, sc) :=
          destroyZombies rich aliveHumans rest zombiesKilledThisTurn score in
        (zombie :: rest', k, sc)
      else if destroyed rich zombie then
        let zombiesKilledThisTurn := zombiesKilledThisTurn + 1 in
        let baseScore :=
          JS.mul (JS.mul (JS.lit aliveHumans) (JS.lit aliveHumans))
                 (JS.lit 10) in
        let fibMultiplier := JS.lit (fibonacci (zombiesKilledThisTurn - 1)) in
        let '(rest', k, sc) :=
          destroyZombies rich aliveHumans rest zombiesKilledThisTurn
            (JS.Num (JS.add (JS.to_number score)
                            (JS.mul baseScore fibMultiplier))) in
        (killZombie zombie :: rest', k, sc)
      else
        let '(rest', k, sc) :=
          destroyZombies rich aliveHumans rest zombiesKilledThisTurn score in
        (zombie :: rest', k, sc)
  end.

(** 4. Zombies eat any human they are within 400 units of.  (An earlier
    copy of the component, without the levels, tests [dist < ZOMBIE_SPEED]
    here; the copy with [LEVELS] and [runTestCase], embedded here, tests
    [dist <= 400].) *)
Definition eaten (zombie : Zombie.t) (human : Human.t) : bool :=
  JS.le (distance (Zombie.x zombie) (Zombie.y zombie)
                  (Human.x human) (Human.y human)) (JS.lit 400).

Definition eatHuman (zombie : Zombie.t) (human : Human.t) : Human.t :=
  if negb (Human.alive human) then human
  else if eaten zombie human then
    Human.mk (Human.id human) (Human.x human) (Human.y human) false
             (Human.emoji human)
  else human.

Fixpoint eatHumans (zombies : list Zombie.t) (humans : list Human.t)
  : list Human.t :=
  match zombies with
  | [] => humans
  | zombie :: rest =>
      if negb (Zombie.alive zombie) then eatHumans rest humans
      else eatHumans rest (eatHuman zombie <$> humans)
  end.

(** Update zombie next positions: the body of the last loop. *)
Definition nextZombie (humans : list Human.t) (rich : Point.t)
    (zombie : Zombie.t) : Zombie.t :=
  if negb (Zombie.alive zombie) then zombie
  else
    let target := findClosestHuman zombie humans rich in
    let nextPos := moveTowards (Zombie.x zombie) (Zombie.y zombie)
                     (Point.x target) (Point.y target) ZOMBIE_SPEED in
    Zombie.mk (Zombie.id zombie) (Zombie.x zombie) (Zombie.y zombie)
              (Point.x nextPos) (Point.y nextPos) (Zombie.alive zombie).

Definition countAlive {A} (alive : A -> bool) (l : list A) : Z :=
  Z.of_nat (length (filter (fun a => alive a = true) l)).

Definition simulateTurn (state : GameState.t) (targetX targetY : JS.value)
  : GameState.t :=
  let newState := jsonCopy state in
  let turn :=
    JS.Num (JS.add (JS.to_number (GameState.turn newState)) (JS.lit 1)) in
  (* 1. Zombies move towards their targets *)
  let zombies1 :=
    moveZombie (GameState.humans newState) (GameState.rich newState)
      <$> GameState.zombies newState in
  (* 2. Rich moves towards his target *)
  let rich := moveTowards (Point.x (GameState.rich newState))
                (Point.y (GameState.rich newState))
                targetX targetY RICH_SPEED in
  (* 3. Any zombie within range of Rich is destroyed *)
  let aliveHumans := countAlive Human.alive (GameState.humans newState) in
  let '(zombies3, _, score) :=
    destroyZombies rich aliveHumans zombies1 0 (GameState.score newState) in
  (* 4. Zombies eat any human they are within 400 units of *)
  let humans := eatHumans zombies3 (GameState.humans newState) in
  (* Update zombie next positions *)
  let zombies := nextZombie humans rich <$> zombies3 in
  (* Check win/lose conditions *)
  let remainingHumans := countAlive Human.alive humans in
  let remainingZombies := countAlive Zombie.alive zombies in
  if (remainingZombies =? 0) && (0 <? remainingHumans) then
    GameState.mk rich humans zombies score turn true true
      (Message.Victory score)
  else if remainingHumans =? 0 then
    GameState.mk rich humans zombies score turn true false
      (Message.Text "Game Over - All humans died!")
  else
    GameState.mk rich humans zombies score turn
      (GameState.gameOver newState) (GameState.won newState)
      (GameState.message newState).

(** ** Levels *)

(** [getRandomHumanEmoji] draws one of two pictures for each human; the
    draw for the human at position [k] of a level is [emoji k]. *)
Section Levels.
Variable emoji : nat -> string.

Definition human (k : nat) (id x y : Z) : Human.t :=
  Human.mk id (JS.lit x) (JS.lit y) true (emoji k).

Definition zombie (id x y : Z) : Zombie.t :=
  Zombie.mk id (JS.lit x) (JS.lit y) (JS.lit 0) (JS.lit 0) true.

Definition initialState (rx ry : Z) (hs : list Human.t) (zs : list Zombie.t)
  : GameState.t :=
  GameState.mk (Point.mk (JS.lit rx) (JS.lit ry)) hs zs
    (JS.lit 0) (JS.lit 0) false false (Message.Text "").

Definition level1 : GameState.t :=
  initialState 7000 1500
    [human 0 0 8000 8500]
    [zombie 0 2000 500; zombie 1 1000 2000; zombie 2 12000 7000].

Definition level2 : GameState.t :=
  initialState 8000 4500
    [human 0 0 4000 4500; human 1 1 13000 4500]
    [zombie 0 3000 4000; zombie 1 1000 2000; zombie 2 12000 7000;
     zombie 3 8000 500].

Definition level3 : GameState.t :=
  initialState 6000 4500
    [human 0 0 2000 4500; human 1 1 11000 6000; human 2 1 13000 2000]
    [zombie 0 3000 4000; zombie 1 2000 5500; zombie 2 13000 7000;
     zombie 3 15000 1000].

Definition level4 : GameState.t :=
  initialState 10000 4500
    [human 0 0 14000 4500; human 1 1 5000 6000; human 2 2 3000 2000]
    [zombie 0 13000 4000; zombie 1 14000 5500; zombie 2 3000 7000;
     zombie 3 1000 1000].

Definition testAll : GameState.t := initialState 0 0 [] [].
End Levels.

(** ** Notions used in the statements *)

(** The tri-state outcome carried by [gameOver] and [won]. *)
Inductive terminal := ongoing | victory | defeat.

Definition terminalOf (s : GameState.t) : terminal :=
  if GameState.gameOver s then
    (if GameState.won s then victory else defeat)
  else ongoing.

(** The zombie at list position [i] is destroyed during the turn that
    leads to a state whose avatar is at [rich]: it is alive and within
    [RICH_RANGE] of [rich]. *)
Definition destroyedNow (rich : Point.t) (zombie : Zombie.t) : bool :=
  Zombie.alive zombie && destroyed rich zombie.

Definition zombiesKilled (rich : Point.t) (zombies : list Zombie.t) : nat :=
  length (filter (fun z => destroyedNow rich z = true) zombies).

(** The points of a kill when [k] zombies were already destroyed in
    this turn and [aliveHumans] humans were alive, as the source
    computes them, and the score after [n] successive kills. *)
Definition points (aliveHumans k : Z) : JS.number :=
  JS.mul (JS.mul (JS.mul (JS.lit aliveHumans) (JS.lit aliveHumans))
                 (JS.lit 10))
         (JS.lit (fibonacci k)).

Fixpoint scoreAfter (aliveHumans : Z) (k : Z) (n : nat) (score : JS.value)
  : JS.value :=
  match n with
  | O => score
  | S n' =>
      scoreAfter aliveHumans (k + 1) n'
        (JS.Num (JS.add (JS.to_number score) (points aliveHumans k)))
  end.

(** The same points in the integers. *)
Fixpoint comboScore (aliveHumans : Z) (k : Z) (n : nat) : Z :=
  match n with
  | O => 0
  | S n' =>
      aliveHumans * aliveHumans * 10 * fibonacci k
      + comboScore aliveHumans (k + 1) n'
  end.

(** What the destruction pass makes of one zombie. *)
Definition destroyOne (rich : Point.t) (zombie : Zombie.t) : Zombie.t :=
  if destroyedNow rich zombie then killZombie zombie else zombie.

(** The humans after the meal, one by one: a human stays alive exactly
    when no alive zombie is within reach of it. *)
Definition eatenBy (zombies : list Zombie.t) (h : Human.t) : bool :=
  existsb (fun z => Zombie.alive z && eaten z h) zombies.

Definition afterMeal (zombies : list Zombie.t) (h : Human.t) : Human.t :=
  Human.mk (Human.id h) (Human.x h) (Human.y h)
           (Human.alive h && negb (eatenBy zombies h)) (Human.emoji h).


(** The zombies after the first loop and the avatar after its move. *)
Definition zombiesMoved (s : GameState.t) : list Zombie.t :=
  moveZombie (GameState.humans (jsonCopy s)) (GameState.rich (jsonCopy s))
    <$> GameState.zombies (jsonCopy s).

Definition richMoved (s : GameState.t) (targetX targetY : JS.value) : Point.t :=
  moveTowards (Point.x (GameState.rich (jsonCopy s)))
              (Point.y (GameState.rich (jsonCopy s)))
              targetX targetY RICH_SPEED.

(** A zombie record that the JSON copy leaves as it is. *)
Definition zombieJsonStable (z : Zombie.t) : bool :=
  JS.json_stable (Zombie.x z) && JS.json_stable (Zombie.y z) &&
  JS.json_stable (Zombie.xNext z) && JS.json_stable (Zombie.yNext z).

(** Small scenarios used to run the simulator. *)
Definition plain : nat -> string := fun _ => "".

(** One human far away, one zombie next to the avatar. *)
Definition duel : GameState.t :=
  initialState 0 0 [human plain 0 0 8000 8000] [zombie 0 500 0].

(** A zombie 800 units from a human, the avatar far from both. *)
Definition ambush : GameState.t :=
  initialState 10000 0 [human plain 0 0 0 0] [zombie 0 800 0].

(** The distance from a zombie to a human and to a point. *)
Definition distanceToHuman (zombie : Zombie.t) (human : Human.t) : JS.number :=
  distance (Zombie.x zombie) (Zombie.y zombie) (Human.x human) (Human.y human).

Definition distanceToPoint (zombie : Zombie.t) (p : Point.t) : JS.number :=
  distance (Zombie.x zombie) (Zombie.y zombie) (Point.x p) (Point.y p).

(** A number that is not NaN and carries the sign [s]. *)
Definition signed (s : bool) (v : JS.number) : Prop :=
  match v with
  | S754_zero s' | S754_infinity s' | S754_finite s' _ _ => s' = s
  | S754_nan => False
  end.

Definition finite_number (n : JS.number) : Prop :=
  match n with
  | S754_zero _ | S754_finite _ _ _ => True
  | _ => False
  end.

(** Notions used to follow the rounding of [SpecFloat]: a shift record
    has lost bits when its round or sticky bit is set. *)
Definition inexact (mrs : shr_record) : bool := shr_r mrs || shr_s mrs.

(** [y] is [x] shifted right by [n] places. *)
Definition shifted (n : Z) (x y : shr_record) : Prop :=
  shr_m y = shr_m x / 2 ^ n /\
  (inexact y = false <-> inexact x = false /\ shr_m x mod 2 ^ n = 0).

(** The second half of [binary_round_aux]: the mantissa [q] at the
    exponent [E], after rounding. *)
Definition pack (s : bool) (q E : Z) : JS.number :=
  let '(mrs, e) := shr_fexp JS.prec JS.emax q E loc_Exact in
  match shr_m mrs with
  | Z0 => S754_zero s
  | Zpos m => if e <=? JS.emax - JS.prec then S754_finite s m e
              else S754_infinity s
  | _ => S754_nan
  end.

(** Numbers an addition of a non-negative term cannot lower: all but
    NaN and minus infinity. *)
Definition summable (x : JS.number) : Prop :=
  match x with
  | S754_nan | S754_infinity true => False
  | _ => True
  end.


(** [findClosestHuman] picked the human at position [i]: it is alive,
    strictly closer to the zombie than the bound [m], strictly closer
    than every alive human before it, and no alive human after it is
    strictly closer than it. *)
Definition picked (zombie : Zombie.t) (humans : list Human.t)
    (m : JS.number) (i : nat) (h : Human.t) : Prop :=
  humans !! i = Some h /\
  Human.alive h = true /\
  JS.lt (distanceToHuman zombie h) m = true /\
  (forall j h', (j < i)%nat -> humans !! j = Some h' -> Human.alive h' = true ->
     JS.lt (distanceToHuman zombie h) (distanceToHuman zombie h') = true) /\
  (forall j h', (i < j)%nat -> humans !! j = Some h' -> Human.alive h' = true ->
     JS.lt (distanceToHuman zombie h') (distanceToHuman zombie h) = false).

(** Nobody among the alive humans is strictly closer than the bound. *)
Definition nobodyCloser (zombie : Zombie.t) (humans : list Human.t)
    (m : JS.number) : Prop :=
  forall j h, humans !! j = Some h -> Human.alive h = true ->
    JS.lt (distanceToHuman zombie h) m = false.

(** The alive humans have finite coordinates, as they do in a state that
    went through the JSON copy. *)
Definition finiteHumans (humans : list Human.t) : Prop :=
  forall j h, humans !! j = Some h -> Human.alive h = true ->
    JS.finite (Human.x h) = true /\ JS.finite (Human.y h) = true.

(** Two humans at the same distance from a zombie at the origin, a dead
    one nearer, the avatar farther. *)
Definition crowd : list Human.t :=
  [ Human.mk 0 (JS.lit 100) (JS.lit 0) false "";
    Human.mk 1 (JS.lit 3000) (JS.lit 0) true "";
    Human.mk 2 (JS.lit 0) (JS.lit 3000) true "";
    Human.mk 3 (JS.lit 5000) (JS.lit 0) true "" ].

(** A state with a dead human and a dead zombie. *)
Definition graveyard : GameState.t :=
  GameState.mk (Point.mk (JS.lit 0) (JS.lit 0))
    [ Human.mk 0 (JS.lit 100) (JS.lit 100) false "";
      Human.mk 1 (JS.lit 9000) (JS.lit 100) true "" ]
    [ Zombie.mk 0 (JS.lit 100) (JS.lit 200) (JS.lit 100) (JS.lit 100) false;
      Zombie.mk 1 (JS.lit 9000) (JS.lit 8000) (JS.lit 0) (JS.lit 0) true ]
    (JS.lit 20) (JS.lit 3) false false (Message.Text "").

(** The number [-0.5]. *)
Definition minusHalf : JS.number := JS.div (JS.lit (-1)) (JS.lit 2).

(** ** The batch evaluator *)

(** The player's algorithm.  It is called with the state object itself,
    so what it assigns to the fields of that object is seen by its
    caller: a call gives the state as it leaves it and the point it
    returns, [None] when it throws.  A coordinate of that point is a
    number or [null]; one that is missing acts as NaN.  A call returns
    or throws, the fields keep values of their declared types, and a
    call answers by the state it is given: variables that an algorithm
    would keep between its calls are not part of this model. *)
Definition strategy :=
  GameState.t -> GameState.t * option (JS.value * JS.value).

(** An algorithm that only reads the state it is given. *)
Definition readOnly (algorithm : strategy) : Prop :=
  forall state, (algorithm state).1 = state.

Definition maxTurns : Z := 200.

(** The [while] loop of [runTestCase]; [fuel] bounds the number of
    iterations and [None] means that it ran out. *)
Fixpoint testLoop (fuel : nat) (algorithm : strategy) (state : GameState.t)
  : option bool :=
  match fuel with
  | O => None
  | S fuel' =>
      if negb (GameState.gameOver state)
         && JS.lt (JS.to_number (GameState.turn state)) (JS.lit maxTurns)
      then
        match algorithm state with
        | (_, None) => Some false
        | (state, Some (x, y)) =>
            testLoop fuel' algorithm (simulateTurn state x y)
        end
      else Some (GameState.won state)
  end.

(** [runTestCase]; the component's [algorithm] may be [null]. *)
Definition runTestCase (fuel : nat) (algorithm : option strategy)
    (initialState : GameState.t) : option bool :=
  match algorithm with
  | None => Some false
  | Some algorithm => testLoop fuel algorithm (jsonCopy initialState)
  end.

(** The state after [n] rounds of strategy then [simulateTurn]. *)
Fixpoint ticks (algorithm : strategy) (n : nat) (state : GameState.t)
  : option GameState.t :=
  match n with
  | O => Some state
  | S n' =>
      match algorithm state with
      | (_, None) => None
      | (state, Some (x, y)) => ticks algorithm n' (simulateTurn state x y)
      end
  end.

(** The first [n] states of the run exist and are not terminal. *)
Definition running (algorithm : strategy) (state : GameState.t) (n : nat) : Prop :=
  forall k, (k < n)%nat ->
    exists sk, ticks algorithm k state = Some sk /\ GameState.gameOver sk = false.

(** The run reaches a terminal state [sn] after [n] ticks, not before. *)
Definition endsAt (algorithm : strategy) (state : GameState.t) (n : nat)
    (sn : GameState.t) : Prop :=
  running algorithm state n /\
  ticks algorithm n state = Some sn /\ GameState.gameOver sn = true.

(** The strategy throws in the state reached after [n] ticks. *)
Definition throwsAt (algorithm : strategy) (state : GameState.t) (n : nat) : Prop :=
  running algorithm state (S n) /\
  exists sn, ticks algorithm n state = Some sn /\ (algorithm sn).2 = None.

(** A scenario as the levels build it. *)
Definition freshScenario (s : GameState.t) : Prop :=
  GameState.turn s = JS.lit 0 /\
  GameState.gameOver s = false /\ GameState.won s = false.

(** Strategies used to run the evaluator. *)
Definition toFirstHuman : strategy := fun s =>
  (s, match GameState.humans s with
      | h :: _ => Some (Human.x h, Human.y h)
      | [] => None
      end).

Definition nowhere : strategy := fun s => (s, Some (JS.Num S754_nan, JS.Num S754_nan)).

(** An algorithm that marks the state it is given as won, and one that
    winds its turn counter back. *)
Definition claimVictory : strategy := fun s =>
  (GameState.mk (GameState.rich s) (GameState.humans s) (GameState.zombies s)
     (GameState.score s) (GameState.turn s) (GameState.gameOver s) true
     (GameState.message s),
   Some (JS.Num S754_nan, JS.Num S754_nan)).

Definition rewind : strategy := fun s =>
  (GameState.mk (GameState.rich s) (GameState.humans s) (GameState.zombies s)
     (GameState.score s) (JS.lit (-1)) (GameState.gameOver s)
     (GameState.won s) (GameState.message s),
   Some (JS.Num S754_nan, JS.Num S754_nan)).

(** A zombie next to the avatar's start, one human far away. *)
Definition standoff : GameState.t :=
  initialState 0 0 [human plain 0 0 8000 8000] [zombie 0 100 0].

(** What [standoff] becomes when the avatar is sent to NaN: the avatar
    is nowhere, the zombie waits where the avatar was. *)
Definition stalled : GameState.t :=
  GameState.mk (Point.mk (JS.Num S754_nan) (JS.Num S754_nan))
    [human plain 0 0 8000 8000]
    [Zombie.mk 0 JS.Null JS.Null (JS.Num S754_nan) (JS.Num S754_nan) true]
    (JS.lit 0) (JS.lit 0) false false (Message.Text "").

(** The first [n] states of the run exist and are not terminal, as a
    test. *)
Fixpoint allRunning (algorithm : strategy) (n : nat) (state : GameState.t)
  : bool :=
  match n with
  | O => true
  | S n' =>
      negb (GameState.gameOver state) &&
      match n' with
      | O => true
      | S _ =>
          match algorithm state with
          | (state, Some (x, y)) =>
              allRunning algorithm n' (simulateTurn state x y)
          | (_, None) => false
          end
      end
  end.
(** ** The simulator on objects in memory

    [simulateTurn] above is the function from the value of [state] to
    the value of the result.  In the source, states are objects: the
    [rich], [humans] and [zombies] fields of a state hold references,
    the arrays hold references to the human and zombie objects, and the
    loops assign to fields of these objects.  The memory below keeps the
    objects of each kind in a list, a reference being a position in it.
    The temporary [{x, y}] objects returned by [moveTowards] and
    [findClosestHuman] are read once and dropped; they are kept as
    values. *)

Module Heap.
Abbreviation loc := nat.

(** A [GameState] object. *)
Record stateObject := mkState {
  rich : loc;
  humans : loc;
  zombies : loc;
  score : JS.value;
  turn : JS.value;
  gameOver : bool;
  won : bool;
  message : Message.t;
}.

Record t := mk {
  points : list Point.t;
  humanObjects : list Human.t;
  zombieObjects : list Zombie.t;
  arrays : list (list loc);
  states : list stateObject;
}.

Definition empty : t := mk [] [] [] [] [].

Definition withPoints (h : t) (l : list Point.t) : t :=
  mk l (humanObjects h) (zombieObjects h) (arrays h) (states h).
Definition withHumanObjects (h : t) (l : list Human.t) : t :=
  mk (points h) l (zombieObjects h) (arrays h) (states h).
Definition withZombieObjects (h : t) (l : list Zombie.t) : t :=
  mk (points h) (humanObjects h) l (arrays h) (states h).
Definition withStates (h : t) (l : list stateObject) : t :=
  mk (points h) (humanObjects h) (zombieObjects h) (arrays h) l.
End Heap.

(** Programs on the memory; [None] is a failed access. *)
Definition M (A : Type) : Type := Heap.t -> option (A * Heap.t).

Definition ret {A} (a : A) : M A := fun h => Some (a, h).

Definition bind {A B} (m : M A) (f : A -> M B) : M B :=
  fun h => match m h with
           | Some (a, h') => f a h'
           | None => None
           end.

Notation "'let*' x := m 'in' k" := (bind m (fun x => k))
  (at level 10, x name, m at level 100, k at level 200).
Notation "m ;;; k" := (bind m (fun _ => k))
  (at level 100, k at level 200, right associativity).

(** Reading the object at [l], and assigning to it. *)
Definition read {A} (region : Heap.t -> list A) (l : Heap.loc) : M A :=
  fun h => match region h !! l with
           | Some a => Some (a, h)
           | None => None
           end.

Definition write {A} (region : Heap.t -> list A)
    (store : Heap.t -> list A -> Heap.t) (l : Heap.loc) (a : A) : M unit :=
  fun h => match region h !! l with
           | Some _ => Some (tt, store h (<[l := a]> (region h)))
           | None => None
           end.

Definition getPoint := read Heap.points.
Definition setPoint := write Heap.points Heap.withPoints.
Definition getHuman := read Heap.humanObjects.
Definition setHuman := write Heap.humanObjects Heap.withHumanObjects.
Definition getZombie := read Heap.zombieObjects.
Definition setZombie := write Heap.zombieObjects Heap.withZombieObjects.
Definition getArray := read Heap.arrays.
Definition getState := read Heap.states.
Definition setState := write Heap.states Heap.withStates.

(** The objects an array refers to. *)
Definition elements {A} (region : Heap.t -> list A) (array : Heap.loc)
    (h : Heap.t) : option (list A) :=
  match Heap.arrays h !! array with
  | Some locs => mapM (fun l => region h !! l) locs
  | None => None
  end.

Definition getHumans (array : Heap.loc) : M (list Human.t) :=
  fun h => match elements Heap.humanObjects array h with
           | Some l => Some (l, h)
           | None => None
           end.

Definition getZombies (array : Heap.loc) : M (list Zombie.t) :=
  fun h => match elements Heap.zombieObjects array h with
           | Some l => Some (l, h)
           | None => None
           end.

(** The value of the state object at [l]: what [JSON.stringify] walks
    through. *)
Definition load (h : Heap.t) (l : Heap.loc) : option GameState.t :=
  match Heap.states h !! l with
  | None => None
  | Some o =>
      match Heap.points h !! Heap.rich o,
            elements Heap.humanObjects (Heap.humans o) h,
            elements Heap.zombieObjects (Heap.zombies o) h with
      | Some r, Some hs, Some zs =>
          Some (GameState.mk r hs zs (Heap.score o) (Heap.turn o)
                  (Heap.gameOver o) (Heap.won o) (Heap.message o))
      | _, _, _ => None
      end
  end.

(** [JSON.stringify state]: the text, as the value it denotes. *)
Definition stringify (state : Heap.loc) : M GameState.t :=
  fun h => match load h state with
           | Some s => Some (jsonCopy s, h)
           | None => None
           end.

(** [JSON.parse text]: new objects for the state, its avatar, its two
    arrays and every human and zombie. *)
Definition allocate (s : GameState.t) (h : Heap.t) : Heap.t :=
  let humanLocs := seq (length (Heap.humanObjects h)) (length (GameState.humans s)) in
  let zombieLocs := seq (length (Heap.zombieObjects h)) (length (GameState.zombies s)) in
  let o := Heap.mkState (length (Heap.points h))
             (length (Heap.arrays h)) (S (length (Heap.arrays h)))
             (GameState.score s) (GameState.turn s)
             (GameState.gameOver s) (GameState.won s) (GameState.message s) in
  Heap.mk (Heap.points h ++ [GameState.rich s])
          (Heap.humanObjects h ++ GameState.humans s)
          (Heap.zombieObjects h ++ GameState.zombies s)
          (Heap.arrays h ++ [humanLocs; zombieLocs])
          (Heap.states h ++ [o]).

Definition parse (text : GameState.t) : M Heap.loc :=
  fun h => Some (length (Heap.states h), allocate text h).

(** [for (const l of locs) body]. *)
Fixpoint forEach (locs : list Heap.loc) (body : Heap.loc -> M unit) : M unit :=
  match locs with
  | [] => ret tt
  | l :: rest => body l ;;; forEach rest body
  end.

(** A loop that carries a local variable. *)
Fixpoint forEachWith {A} (locs : list Heap.loc) (body : A -> Heap.loc -> M A)
    (a : A) : M A :=
  match locs with
  | [] => ret a
  | l :: rest => let* a' := body a l in forEachWith rest body a'
  end.

Definition setTurn (o : Heap.stateObject) (turn : JS.value)
  : Heap.stateObject :=
  Heap.mkState (Heap.rich o) (Heap.humans o) (Heap.zombies o) (Heap.score o)
    turn (Heap.gameOver o) (Heap.won o) (Heap.message o).

Definition setScore (o : Heap.stateObject) (score : JS.value)
  : Heap.stateObject :=
  Heap.mkState (Heap.rich o) (Heap.humans o) (Heap.zombies o) score
    (Heap.turn o) (Heap.gameOver o) (Heap.won o) (Heap.message o).

Definition setOutcome (o : Heap.stateObject) (gameOver won : bool)
    (message : Message.t) : Heap.stateObject :=
  Heap.mkState (Heap.rich o) (Heap.humans o) (Heap.zombies o) (Heap.score o)
    (Heap.turn o) gameOver won message.

(** The body of the first loop: [zombie.x = newPos.x; zombie.y = newPos.y]. *)
Definition moveZombieAt (newState : Heap.stateObject) (l : Heap.loc) : M unit :=
  let* zombie := getZombie l in
  if negb (Zombie.alive zombie) then ret tt
  else
    let* humans := getHumans (Heap.humans newState) in
    let* rich := getPoint (Heap.rich newState) in
    let target := findClosestHuman zombie humans rich in
    let newPos := moveTowards (Zombie.x zombie) (Zombie.y zombie)
                    (Point.x target) (Point.y target) ZOMBIE_SPEED in
    setZombie l (Zombie.mk (Zombie.id zombie) (Point.x newPos) (Point.y newPos)
                   (Zombie.xNext zombie) (Zombie.yNext zombie)
                   (Zombie.alive zombie)).

(** The body of the destruction loop; [zombiesKilledThisTurn] is the
    local variable, the score is a field of the state object. *)
Definition destroyZombieAt (newState : Heap.loc) (aliveHumans : Z)
    (zombiesKilledThisTurn : Z) (l : Heap.loc) : M Z :=
  let* zombie := getZombie l in
  if negb (Zombie.alive zombie) then ret zombiesKilledThisTurn
  else
    let* o := getState newState in
    let* rich := getPoint (Heap.rich o) in
    if destroyed rich zombie then
      setZombie l (killZombie zombie) ;;;
      let zombiesKilledThisTurn := zombiesKilledThisTurn + 1 in
      let baseScore :=
        JS.mul (JS.mul (JS.lit aliveHumans) (JS.lit aliveHumans))
               (JS.lit 10) in
      let fibMultiplier := JS.lit (fibonacci (zombiesKilledThisTurn - 1)) in
      let* o := getState newState in
      setState newState
        (setScore o (JS.Num (JS.add (JS.to_number (Heap.score o))
                                    (JS.mul baseScore fibMultiplier)))) ;;;
      ret zombiesKilledThisTurn
    else ret zombiesKilledThisTurn.

(** The two nested loops of the meal. *)
Definition eatHumanAt (zombie : Zombie.t) (l : Heap.loc) : M unit :=
  let* human := getHuman l in
  if negb (Human.alive human) then ret tt
  else if eaten zombie human then
    setHuman l (Human.mk (Human.id human) (Human.x human) (Human.y human)
                  false (Human.emoji human))
  else ret tt.

Definition eatHumansAt (newState : Heap.stateObject) (l : Heap.loc) : M unit :=
  let* zombie := getZombie l in
  if negb (Zombie.alive zombie) then ret tt
  else
    let* humans := getArray (Heap.humans newState) in
    forEach humans (eatHumanAt zombie).

(** The body of the last loop: [zombie.xNext = ...; zombie.yNext = ...]. *)
Definition nextZombieAt (newState : Heap.stateObject) (l : Heap.loc) : M unit :=
  let* zombie := getZombie l in
  if negb (Zombie.alive zombie) then ret tt
  else
    let* humans := getHumans (Heap.humans newState) in
    let* rich := getPoint (Heap.rich newState) in
    let target := findClosestHuman zombie humans rich in
    let nextPos := moveTowards (Zombie.x zombie) (Zombie.y zombie)
                     (Point.x target) (Point.y target) ZOMBIE_SPEED in
    setZombie l (Zombie.mk (Zombie.id zombie) (Zombie.x zombie) (Zombie.y zombie)
                   (Point.x nextPos) (Point.y nextPos) (Zombie.alive zombie)).

(** [simulateTurn] on the state object at [state]; the result is the
    reference it returns. *)
Definition simulateTurnAt (state : Heap.loc) (targetX targetY : JS.value)
  : M Heap.loc :=
  let* text := stringify state in
  let* newState := parse text in
  let* o := getState newState in
  setState newState
    (setTurn o (JS.Num (JS.add (JS.to_number (Heap.turn o)) (JS.lit 1)))) ;;;
  (* 1. Zombies move towards their targets *)
  let* zombies := getArray (Heap.zombies o) in
  forEach zombies (moveZombieAt o) ;;;
  (* 2. Rich moves towards his target *)
  let* rich := getPoint (Heap.rich o) in
  let richNewPos := moveTowards (Point.x rich) (Point.y rich)
                      targetX targetY RICH_SPEED in
  setPoint (Heap.rich o) (Point.mk (Point.x richNewPos) (Point.y richNewPos)) ;;;
  (* 3. Any zombie within range of Rich is destroyed *)
  let* humans := getHumans (Heap.humans o) in
  let aliveHumans := countAlive Human.alive humans in
  forEachWith zombies (destroyZombieAt newState aliveHumans) 0 ;;;
  (* 4. Zombies eat any human they are within 400 units of *)
  forEach zombies (eatHumansAt o) ;;;
  (* Update zombie next positions *)
  forEach zombies (nextZombieAt o) ;;;
  (* Check win/lose conditions *)
  let* humans := getHumans (Heap.humans o) in
  let* zombieObjects := getZombies (Heap.zombies o) in
  let remainingHumans := countAlive Human.alive humans in
  let remainingZombies := countAlive Zombie.alive zombieObjects in
  let* o := getState newState in
  (if (remainingZombies =? 0) && (0 <? remainingHumans) then
     setState newState
       (setOutcome o true true (Message.Victory (Heap.score o)))
   else if remainingHumans =? 0 then
     setState newState
       (setOutcome o true false (Message.Text "Game Over - All humans died!"))
   else ret tt) ;;;
  ret newState.

(** A memory that holds one scenario. *)
Definition holding (s : GameState.t) : Heap.t := allocate s Heap.empty.

(** Every object of [h] is in [h'], unchanged. *)
Definition preserved (h h' : Heap.t) : Prop :=
  Heap.points h `prefix_of` Heap.points h' /\
  Heap.humanObjects h `prefix_of` Heap.humanObjects h' /\
  Heap.zombieObjects h `prefix_of` Heap.zombieObjects h' /\
  Heap.arrays h `prefix_of` Heap.arrays h' /\
  Heap.states h `prefix_of` Heap.states h'.

(** Assignments to the fields of a state, on its value. *)
Definition withRich (s : GameState.t) (r : Point.t) : GameState.t :=
  GameState.mk r (GameState.humans s) (GameState.zombies s) (GameState.score s)
    (GameState.turn s) (GameState.gameOver s) (GameState.won s)
    (GameState.message s).

Definition withHumans (s : GameState.t) (hs : list Human.t) : GameState.t :=
  GameState.mk (GameState.rich s) hs (GameState.zombies s) (GameState.score s)
    (GameState.turn s) (GameState.gameOver s) (GameState.won s)
    (GameState.message s).

Definition withZombies (s : GameState.t) (zs : list Zombie.t) : GameState.t :=
  GameState.mk (GameState.rich s) (GameState.humans s) zs (GameState.score s)
    (GameState.turn s) (GameState.gameOver s) (GameState.won s)
    (GameState.message s).

Definition withScore (s : GameState.t) (score : JS.value) : GameState.t :=
  GameState.mk (GameState.rich s) (GameState.humans s) (GameState.zombies s)
    score (GameState.turn s) (GameState.gameOver s) (GameState.won s)
    (GameState.message s).

Definition withTurn (s : GameState.t) (turn : JS.value) : GameState.t :=
  GameState.mk (GameState.rich s) (GameState.humans s) (GameState.zombies s)
    (GameState.score s) turn (GameState.gameOver s) (GameState.won s)
    (GameState.message s).

Definition withOutcome (s : GameState.t) (gameOver won : bool)
    (message : Message.t) : GameState.t :=
  GameState.mk (GameState.rich s) (GameState.humans s) (GameState.zombies s)
    (GameState.score s) (GameState.turn s) gameOver won message.

(** The state object that [allocate s h] adds to [h]. *)
Definition objectOf (h : Heap.t) (s : GameState.t) : Heap.stateObject :=
  Heap.mkState (length (Heap.points h))
    (length (Heap.arrays h)) (S (length (Heap.arrays h)))
    (GameState.score s) (GameState.turn s)
    (GameState.gameOver s) (GameState.won s) (GameState.message s).

(** An array whose first [i] objects went through [f]. *)
Definition partly {A} (f : A -> A) (i : nat) (l : list A) : list A :=
  (f <$> take i l) ++ drop i l.

(** The value of the new state when the five loops are done, and what
    the win/lose check makes of it. *)
Definition beforeCheck (s : GameState.t) (targetX targetY : JS.value)
  : GameState.t :=
  let s0 := jsonCopy s in
  let s1 := withTurn s0
              (JS.Num (JS.add (JS.to_number (GameState.turn s0)) (JS.lit 1))) in
  let s2 := withZombies s1
              (moveZombie (GameState.humans s1) (GameState.rich s1)
                 <$> GameState.zombies s1) in
  let richNewPos := moveTowards (Point.x (GameState.rich s2))
                      (Point.y (GameState.rich s2)) targetX targetY RICH_SPEED in
  let s3 := withRich s2 (Point.mk (Point.x richNewPos) (Point.y richNewPos)) in
  let aliveHumans := countAlive Human.alive (GameState.humans s3) in
  let s4 := withScore
              (withZombies s3
                 (destroyOne (GameState.rich s3) <$> GameState.zombies s3))
              (scoreAfter aliveHumans 0
                 (zombiesKilled (GameState.rich s3) (GameState.zombies s3))
                 (GameState.score s3)) in
  let s5 := withHumans s4 (eatHumans (GameState.zombies s4) (GameState.humans s4)) in
  withZombies s5
    (nextZombie (GameState.humans s5) (GameState.rich s5) <$> GameState.zombies s5).

Definition checkOutcome (s : GameState.t) : GameState.t :=
  let remainingHumans := countAlive Human.alive (GameState.humans s) in
  let remainingZombies := countAlive Zombie.alive (GameState.zombies s) in
  if (remainingZombies =? 0) && (0 <? remainingHumans) then
    withOutcome s true true (Message.Victory (GameState.score s))
  else if remainingHumans =? 0 then
    withOutcome s true false (Message.Text "Game Over - All humans died!")
  else s.

(** The sum of a list of integers, and the points of the [k]-th zombie
    destroyed in a turn ([k] counted from 1). *)
Definition sumZ (l : list Z) : Z := foldr Z.add 0 l.

Definition killPoints (aliveHumans : Z) (k : nat) : Z :=
  aliveHumans * aliveHumans * 10 * fibonacci (Z.of_nat k - 1).

(** The state without its dead zombies. *)
Definition livingZombies (s : GameState.t) : GameState.t :=
  withZombies s (filter (fun z => Zombie.alive z = true) (GameState.zombies s)).

(** ** Further notions: the turn, seen from outside *)

(** A point that the JSON copy leaves as it is. *)
Definition pointJsonStable (p : Point.t) : bool :=
  JS.json_stable (Point.x p) && JS.json_stable (Point.y p).

(** The humans that are alive, in list order. *)
Definition aliveOnly (humans : list Human.t) : list Human.t :=
  filter (fun h => Human.alive h = true) humans.

(** Further turns, one for each destination of the list. *)
Fixpoint turns (targets : list (JS.value * JS.value)) (state : GameState.t)
  : GameState.t :=
  match targets with
  | [] => state
  | (x, y) :: rest => turns rest (simulateTurn state x y)
  end.

(** A state that a human and a zombie are alive in, marked as lost. *)
Definition markedLost : GameState.t :=
  GameState.mk (Point.mk (JS.lit 0) (JS.lit 0))
    [human plain 0 0 8000 8000] [zombie 0 500 0]
    (JS.lit 0) (JS.lit 0) true false (Message.Text "").

(** The first state of level 1 after a move of the avatar towards its human. *)
Definition level1Started : GameState.t :=
  simulateTurn (level1 plain) (JS.lit 8000) (JS.lit 8500).

(** ** The avatar's picture

    The [onload] handler of the avatar's picture walks the RGBA bytes of
    the image, four at a time, and clears the alpha byte of every pixel
    that is nearly white.  [data] is the [Uint8ClampedArray] of the
    image: reading past its end gives [undefined], which is not above
    240, and writing past its end does nothing. *)

Definition above240 (v : option Z) : bool :=
  match v with
  | Some n => 240 <? n
  | None => false
  end.

(** [for (let i = 0; i < data.length; i += 4) ...], from [i]; [None]
    when [fuel] iterations were not enough. *)
Fixpoint whitenLoop (fuel : nat) (i : nat) (data : list Z) : option (list Z) :=
  match fuel with
  | O => None
  | S fuel' =>
      if (i <? length data)%nat then
        let r := data !! i in
        let g := data !! (i + 1)%nat in
        let b := data !! (i + 2)%nat in
        if above240 r && above240 g && above240 b
        then whitenLoop fuel' (i + 4) (<[(i + 3)%nat := 0]> data)
        else whitenLoop fuel' (i + 4) data
      else Some data
  end.

Definition makeWhiteTransparent (fuel : nat) (data : list Z) : option (list Z) :=
  whitenLoop fuel 0 data.

(** The pixel that byte [k] belongs to is nearly white in [data]. *)
Definition nearlyWhite (data : list Z) (k : nat) : bool :=
  above240 (data !! (k / 4 * 4)%nat) &&
  above240 (data !! (k / 4 * 4 + 1)%nat) &&
  above240 (data !! (k / 4 * 4 + 2)%nat).

(** Byte [k] is the alpha byte of a pixel that is wholly in the array. *)
Definition alphaByte (k : nat) : bool := (k mod 4 =? 3)%nat.

(** What the loop is to leave at byte [k]. *)
Definition whitened (data : list Z) (k : nat) : option Z :=
  match data !! k with
  | Some v => Some (if alphaByte k && nearlyWhite data k then 0 else v)
  | None => None
  end.

(** ** The test script

    [TEST_SCRIPT] is the algorithm that the page loads in test mode: the
    text of a [getRichTarget] function, evaluated with the [distance]
    helper.  It returns a point ([None]: it throws).  After its
    [throw new Error('no saveable human')] the loop over the zombies is
    never reached. *)

Definition Infinity : JS.number := S754_infinity false.

(** [Math.floor((distZombieToHuman - 400) / 400)]. *)
Definition turnsToKillHuman (zombie : Zombie.t) (human : Human.t) : JS.number :=
  JS.floor (JS.div
    (JS.sub (distance (Zombie.x zombie) (Zombie.y zombie)
                      (Human.x human) (Human.y human)) (JS.lit 400))
    (JS.lit 400)).

(** [Math.floor((distRichToHuman - 2000) / 1000)]. *)
Definition turnsToReachHuman (rich : Point.t) (human : Human.t) : JS.number :=
  JS.floor (JS.div
    (JS.sub (distance (Point.x rich) (Point.y rich)
                      (Human.x human) (Human.y human)) (JS.lit 2000))
    (JS.lit 1000)).

(** The inner loop: the most threatening zombie for [human]. *)
Fixpoint threatLoop (aliveZombies : list Zombie.t) (human : Human.t)
    (minTurnsToKillHuman : JS.number) (threateningZombie : option Zombie.t)
  : JS.number * option Zombie.t :=
  match aliveZombies with
  | [] => (minTurnsToKillHuman, threateningZombie)
  | zombie :: rest =>
      let turnsToKill := turnsToKillHuman zombie human in
      if JS.lt turnsToKill minTurnsToKillHuman
      then threatLoop rest human turnsToKill (Some zombie)
      else threatLoop rest human minTurnsToKillHuman threateningZombie
  end.

(** The outer loop over the alive humans. *)
Fixpoint targetLoop (rich : Point.t) (aliveZombies : list Zombie.t)
    (aliveHumans : list Human.t) (minDistanceToHuman : JS.number)
    (bestTarget : option Human.t) : option Human.t :=
  match aliveHumans with
  | [] => bestTarget
  | human :: rest =>
      let distRichToHuman :=
        distance (Point.x rich) (Point.y rich) (Human.x human) (Human.y human) in
      let '(minTurnsToKillHuman, threateningZombie) :=
        threatLoop aliveZombies human Infinity None in
      match threateningZombie with
      | Some _ =>
          if JS.le (turnsToReachHuman rich human) minTurnsToKillHuman
             && JS.lt distRichToHuman minDistanceToHuman
          then targetLoop rich aliveZombies rest distRichToHuman (Some human)
          else targetLoop rich aliveZombies rest minDistanceToHuman bestTarget
      | None => targetLoop rich aliveZombies rest minDistanceToHuman bestTarget
      end
  end.

Definition getRichTarget (state : GameState.t) : option Point.t :=
  let aliveHumans := filter (fun h => Human.alive h = true) (GameState.humans state) in
  let aliveZombies := filter (fun z => Zombie.alive z = true) (GameState.zombies state) in
  if (length aliveZombies =? 0)%nat then
    Some (Point.mk (Point.x (GameState.rich state)) (Point.y (GameState.rich state)))
  else
    match targetLoop (GameState.rich state) aliveZombies aliveHumans Infinity None with
    | None => None
    | Some bestTarget => Some (Point.mk (Human.x bestTarget) (Human.y bestTarget))
    end.

(** [human] is one the script may pick: some zombie of [aliveZombies]
    reaches it in finitely many turns, and the avatar needs no more turns
    to reach it than any of them. *)
Definition saveable (rich : Point.t) (aliveZombies : list Zombie.t)
    (human : Human.t) : bool :=
  existsb (fun z => JS.lt (turnsToKillHuman z human) Infinity) aliveZombies
  && forallb (fun z => JS.le (turnsToReachHuman rich human)
                             (turnsToKillHuman z human)) aliveZombies.

Definition distRichToHuman (rich : Point.t) (human : Human.t) : JS.number :=
  distance (Point.x rich) (Point.y rich) (Human.x human) (Human.y human).

(** The coordinates that the script reads are numbers: those of the
    avatar and of the zombies that are alive are not NaN, those of the
    humans that are alive are finite. *)
Definition numericState (s : GameState.t) : bool :=
  forallb (fun z => negb (Zombie.alive z)
             || negb (JS.is_nan (JS.to_number (Zombie.x z)))
                && negb (JS.is_nan (JS.to_number (Zombie.y z))))
          (GameState.zombies s)
  && forallb (fun h => negb (Human.alive h)
                || JS.finite (Human.x h) && JS.finite (Human.y h))
             (GameState.humans s)
  && negb (JS.is_nan (JS.to_number (Point.x (GameState.rich s))))
  && negb (JS.is_nan (JS.to_number (Point.y (GameState.rich s)))).

(** A human the script may pick in [state]. *)
Definition candidate (state : GameState.t) (human : Human.t) : Prop :=
  human ∈ GameState.humans state /\ Human.alive human = true /\
  saveable (GameState.rich state)
    (filter (fun z => Zombie.alive z = true) (GameState.zombies state))
    human = true.

(** ** The page: levels and controls

    The component [Richard] keeps its state in React hooks.  The part of
    it that the game uses is the record [App.t]; the API key, the
    instructions, the code shown and the status line are left out.  A
    handler runs on the state of the last render and queues its updates;
    the effect that marks a level completed runs after the render that
    follows, before the next handler. *)

Module LevelConfig.
Record t := mk {
  name : string;
  createInitialState : (nat -> string) -> GameState.t;
  testAll : bool;
}.
End LevelConfig.

Definition LEVELS : list LevelConfig.t :=
  [ LevelConfig.mk "Level 1" level1 false;
    LevelConfig.mk "Level 2" level2 false;
    LevelConfig.mk "Level 3" level3 false;
    LevelConfig.mk "Level 4" level4 false;
    LevelConfig.mk "Test All" (fun _ => testAll) true ].

(** [LEVELS[i]]: [None] is [undefined], on which a property access
    throws. *)
Definition levelAt (i : Z) : option LevelConfig.t :=
  if 0 <=? i then LEVELS !! Z.to_nat i else None.

(** [completedLevels] is a [Set<number>], kept in insertion order. *)
Definition has (s : list Z) (i : Z) : bool := bool_decide (i ∈ s).

(** [new Set([...prev, i])]. *)
Definition add (prev : list Z) (i : Z) : list Z :=
  if has prev i then prev else prev ++ [i].

Module App.
Record t := mk {
  gameState : GameState.t;
  isRunning : bool;
  algorithm : option strategy;
  currentLevel : Z;
  completedLevels : list Z;
  testResults : list (option bool);
}.
End App.

Definition setGameState (g : GameState.t) (s : App.t) : App.t :=
  App.mk g (App.isRunning s) (App.algorithm s) (App.currentLevel s)
    (App.completedLevels s) (App.testResults s).

Definition setIsRunning (b : bool) (s : App.t) : App.t :=
  App.mk (App.gameState s) b (App.algorithm s) (App.currentLevel s)
    (App.completedLevels s) (App.testResults s).

Definition setAlgorithm (a : strategy) (s : App.t) : App.t :=
  App.mk (App.gameState s) (App.isRunning s) (Some a) (App.currentLevel s)
    (App.completedLevels s) (App.testResults s).

Definition setCurrentLevel (i : Z) (s : App.t) : App.t :=
  App.mk (App.gameState s) (App.isRunning s) (App.algorithm s) i
    (App.completedLevels s) (App.testResults s).

Definition setCompletedLevels (f : list Z -> list Z) (s : App.t) : App.t :=
  App.mk (App.gameState s) (App.isRunning s) (App.algorithm s)
    (App.currentLevel s) (f (App.completedLevels s)) (App.testResults s).

Definition setTestResults (r : list (option bool)) (s : App.t) : App.t :=
  App.mk (App.gameState s) (App.isRunning s) (App.algorithm s)
    (App.currentLevel s) (App.completedLevels s) r.

(** The state of the first render. *)
Definition initialApp (emoji : nat -> string) : App.t :=
  App.mk (jsonCopy (level1 emoji)) false None 0 [] [None; None; None; None].

(** The effect "mark level as completed when game is won". *)
Definition markCompleted (s : App.t) : App.t :=
  if GameState.gameOver (App.gameState s) && GameState.won (App.gameState s)
     && negb (has (App.completedLevels s) (App.currentLevel s))
  then setCompletedLevels (fun prev => add prev (App.currentLevel s)) s
  else s.

(** What a handler does: it returns, with the page it leaves; it
    throws; or it is still in the loop of [runTestCase] when the fuel is
    used up. *)
Inductive result (A : Type) :=
  | Returns (a : A)
  | Throws
  | Unfinished.
Arguments Returns {A} a.
Arguments Throws {A}.
Arguments Unfinished {A}.

Definition resultMap {A B} (f : A -> B) (r : result A) : result B :=
  match r with
  | Returns a => Returns (f a)
  | Throws => Throws
  | Unfinished => Unfinished
  end.

(** [testCases.map(testCase => runTestCase(testCase))]: [None] when
    the fuel did not suffice for one of the runs. *)
Definition runTestCases (fuel : nat) (algorithm : option strategy)
    (testCases : list GameState.t) : option (list bool) :=
  mapM (runTestCase fuel algorithm) testCases.

(** [emojis i] are the draws for the humans of the test case [i]. *)
Definition testCases (emojis : nat -> nat -> string) : list GameState.t :=
  [ level1 (emojis 0%nat); level2 (emojis 1%nat);
    level3 (emojis 2%nat); level4 (emojis 3%nat) ].

Definition runAllTests (fuel : nat) (emojis : nat -> nat -> string)
    (s : App.t) : result App.t :=
  match App.algorithm s with
  | None => Returns s
  | Some _ =>
      match runTestCases fuel (App.algorithm s) (testCases emojis) with
      | None => Unfinished
      | Some results =>
          let s := setTestResults (Some <$> results) s in
          Returns (if forallb id results
                   then setCompletedLevels (fun prev => add prev 4) s
                   else s)
      end
  end.

(** The handlers; a handler throws on [LEVELS[i]] being undefined. *)
Definition handleRun (fuel : nat) (emojis : nat -> nat -> string)
    (s : App.t) : result App.t :=
  match App.algorithm s with
  | None => Returns s
  | Some _ =>
      match levelAt (App.currentLevel s) with
      | None => Throws
      | Some level =>
          if LevelConfig.testAll level then runAllTests fuel emojis s
          else Returns (setIsRunning true s)
      end
  end.

Definition handlePause (s : App.t) : App.t := setIsRunning false s.

Definition handleReset (emoji : nat -> string) (s : App.t) : result App.t :=
  match levelAt (App.currentLevel s) with
  | None => Throws
  | Some level =>
      Returns (setGameState (LevelConfig.createInitialState level emoji)
                 (setIsRunning false s))
  end.

Definition canSelect (s : App.t) (levelIndex : Z) : bool :=
  (levelIndex =? App.currentLevel s)
  || has (App.completedLevels s) levelIndex
  || ((levelIndex =? App.currentLevel s + 1)
      && has (App.completedLevels s) (App.currentLevel s)).

Definition handleLevelSelect (emoji : nat -> string) (levelIndex : Z)
    (s : App.t) : result App.t :=
  if negb (canSelect s levelIndex) then Returns s
  else
    match levelAt levelIndex with
    | None => Throws
    | Some level =>
        let s := setGameState (LevelConfig.createInitialState level emoji)
                   (setCurrentLevel levelIndex (setIsRunning false s)) in
        Returns (if levelIndex =? 4
                 then setTestResults [None; None; None; None] s else s)
    end.

(** The algorithm is called with the object that [gameState] holds: what
    it assigns there is on the board, also when it throws and no new
    state is set. *)
Definition handleStep (s : App.t) : App.t :=
  match App.algorithm s with
  | None => s
  | Some algorithm =>
      if GameState.gameOver (App.gameState s) then s
      else
        match algorithm (App.gameState s) with
        | (gameState, None) => setGameState gameState s
        | (gameState, Some (x, y)) =>
            setGameState (simulateTurn gameState x y) s
        end
  end.

(** [gameLoop], when 500 ms have passed since the last update (before
    that it only asks for the next frame). *)
Definition gameLoop (s : App.t) : App.t :=
  match App.algorithm s with
  | None => setIsRunning false s
  | Some algorithm =>
      if GameState.gameOver (App.gameState s) then setIsRunning false s
      else
        match algorithm (App.gameState s) with
        | (gameState, None) => setIsRunning false (setGameState gameState s)
        | (gameState, Some (x, y)) =>
            let newState := simulateTurn gameState x y in
            let s := setGameState newState s in
            if GameState.gameOver newState then setIsRunning false s else s
        end
  end.

(** An animation frame: the effect on [isRunning] has asked for
    [gameLoop] only [if (isRunning && algorithm)]. *)
Definition frame (s : App.t) : App.t :=
  match App.algorithm s with
  | Some _ => if App.isRunning s then gameLoop s else s
  | None => s
  end.

(** [isInitialState]: the Reset button is disabled when it holds. *)
Definition isInitialState (s : App.t) : bool :=
  JS.strict_eq (GameState.turn (App.gameState s)) (JS.lit 0)
  && JS.strict_eq (GameState.score (App.gameState s)) (JS.lit 0)
  && negb (GameState.gameOver (App.gameState s)).

(** What the user and the clock do to the page. *)
Inductive event :=
  | Load (algorithm : strategy)
  | Run (emojis : nat -> nat -> string)
  | Pause
  | Reset (emoji : nat -> string)
  | LevelSelect (emoji : nat -> string) (levelIndex : Z)
  | Step
  | Frame.

Definition handle (fuel : nat) (e : event) (s : App.t) : result App.t :=
  match e with
  | Load algorithm => Returns (setAlgorithm algorithm s)
  | Run emojis => handleRun fuel emojis s
  | Pause => Returns (handlePause s)
  | Reset emoji => handleReset emoji s
  | LevelSelect emoji levelIndex => handleLevelSelect emoji levelIndex s
  | Step => Returns (handleStep s)
  | Frame => Returns (frame s)
  end.

(** One event, the render and its effect.  A handler that has set no
    new state is followed by no render and no effect; running the
    effect all the same changes nothing then, as it finds the page as
    the last render left it.  The one exception is [handleStep] with an
    algorithm that has assigned to the board and thrown an error whose
    text repeats the status line: what it assigned waits for the next
    render.  The statements on the completed levels either assume
    algorithms that only read the state or hold whenever the effect
    runs. *)
Definition step (fuel : nat) (e : event) (s : App.t) : result App.t :=
  resultMap markCompleted (handle fuel e s).

(** The page after a list of events; [fuel] bounds the iterations of
    each run of [runTestCase]. *)
Fixpoint run (fuel : nat) (es : list event) (s : App.t) : result App.t :=
  match es with
  | [] => Returns s
  | e :: es' =>
      match step fuel e s with
      | Returns s' => run fuel es' s'
      | Throws => Throws
      | Unfinished => Unfinished
      end
  end.

(** The algorithms that the events load only read the state. *)
Definition loadsReadOnly (e : event) : Prop :=
  match e with
  | Load algorithm => readOnly algorithm
  | _ => True
  end.

(** The level list of the right sidebar: how an entry is drawn. *)
Definition isUnlocked (s : App.t) (index : Z) : bool :=
  (index =? 0) || has (App.completedLevels s) index
  || has (App.completedLevels s) (index - 1).

Definition canClick (s : App.t) (index : Z) : bool :=
  (index =? App.currentLevel s) || has (App.completedLevels s) index
  || ((index =? App.currentLevel s + 1)
      && has (App.completedLevels s) (App.currentLevel s)).

(** The levels have been taken in order: every level below the current
    one and below a completed one is completed. *)
Definition inOrder (s : App.t) : Prop :=
  0 <= App.currentLevel s < 5 /\
  (forall l, has (App.completedLevels s) l = true -> 0 <= l < 5) /\
  forall l k, l = App.currentLevel s \/ has (App.completedLevels s) l = true ->
    0 <= k < l -> has (App.completedLevels s) k = true.

(** A click in the level list passes the position of an entry of
    [LEVELS]. *)
Definition fromPage (e : event) : bool :=
  match e with
  | LevelSelect _ levelIndex => (0 <=? levelIndex) && (levelIndex <? 5)
  | _ => true
  end.

(** On the level "Test All" the board has nobody on it and is not won. *)
Definition emptyBoard (s : App.t) : Prop :=
  App.currentLevel s = 4 ->
  GameState.humans (App.gameState s) = [] /\
  GameState.won (App.gameState s) = false.

(** The board of a page is a new board of its current level. *)
Definition newBoard (s : App.t) : Prop :=
  exists level emoji, levelAt (App.currentLevel s) = Some level /\
    App.gameState s = LevelConfig.createInitialState level emoji.

(** The algorithm of the page only reads the state. *)
Definition readsOnly (s : App.t) : Prop :=
  forall algorithm, App.algorithm s = Some algorithm -> readOnly algorithm.

(** The board is a new board of the current level or has had a turn
    played on it: its turn counter, a binary64 number that is not
    negative, is then 1 or more. *)
Definition freshBoard (s : App.t) : Prop :=
  let turn := JS.to_number (GameState.turn (App.gameState s)) in
  JS.binary64 turn = true /\ signed false turn /\
  (newBoard s \/ JS.le (JS.lit 1) turn = true).

(** Whether [level] is marked completed after the events [es]. *)
Definition completedAfter (fuel : nat) (es : list event)
    (emoji : nat -> string) (level : Z) : bool :=
  match run fuel es (initialApp emoji) with
  | Returns s => has (App.completedLevels s) level
  | _ => false
  end.

(** The script as the algorithm that [parseAlgorithm] makes of it: it
    assigns nothing to the state, and returns the coordinates it read. *)
Definition testScript : strategy := fun state =>
  (state,
   match getRichTarget state with
   | Some p => Some (Point.x p, Point.y p)
   | None => None
   end).

(** A session in which the algorithm [cheat] is loaded and one turn is
    asked for on each level, without a click on Run. *)
Definition cheatedGame (cheat : strategy) : list event :=
  [Load cheat; Step; LevelSelect plain 1; Step; LevelSelect plain 2; Step;
   LevelSelect plain 3; Step; LevelSelect plain 4; Step].

(** A session on one level: Run, [n] animation frames, then a click on
    the entry [next] of the level list; and a session through the five
    levels with the test script. *)
Definition playLevel (n : nat) (next : Z) : list event :=
  Run (fun _ => plain) :: replicate n Frame ++ [LevelSelect plain next].

Definition wholeGame : list event :=
  Load testScript :: playLevel 26 1 ++ playLevel 26 2 ++ playLevel 26 3
    ++ playLevel 26 4 ++ [Run (fun _ => plain)].

(** ** Cleaning the code that Claude returns

    A JavaScript string is the list of its UTF-16 code units. *)

Definition codeUnits (s : string) : list Z :=
  (fun a => Z.of_N (Ascii.N_of_ascii a)) <$> String.list_ascii_of_string s.

(** White space and line terminators: what [\s] matches and what
    [String.prototype.trim] removes. *)
Definition isWhiteSpace (c : Z) : bool :=
  bool_decide (c ∈ [9; 10; 11; 12; 13; 32; 160; 5760; 8232; 8233; 8239;
                    8287; 12288; 65279])
  || ((8192 <=? c) && (c <=? 8202)).

Fixpoint trimStart (s : list Z) : list Z :=
  match s with
  | c :: s' => if isWhiteSpace c then trimStart s' else s
  | [] => []
  end.

Fixpoint trimEnd (s : list Z) : list Z :=
  match s with
  | c :: s' =>
      match trimEnd s' with
      | [] => if isWhiteSpace c then [] else [c]
      | t => c :: t
      end
  | [] => []
  end.

Definition trim (s : list Z) : list Z := trimEnd (trimStart s).

(** The regular expressions that the pattern of [cleanCodeFromMarkdown]
    is made of, matched by backtracking as [RegExp.prototype.exec]
    does: a matcher is given the rest of the input, the text of the
    capturing group and what is to be matched after it. *)
Module RegExp.

Inductive t :=
  | Chars (p : list Z)            (* the characters of [p], in sequence *)
  | Alt (r1 r2 : t)               (* r1|r2 *)
  | Opt (r : t)                   (* (?:r)? *)
  | Star (c : Z -> bool)          (* c*, for a class of characters *)
  | LazyStar (c : Z -> bool)      (* c*? *)
  | Group (r : t)                 (* (r), the capturing group *)
  | Seq (r1 r2 : t).

(** The rest of [s] after the prefix [p]. *)
Fixpoint startsWith (p s : list Z) : option (list Z) :=
  match p, s with
  | [], _ => Some s
  | a :: p', b :: s' => if a =? b then startsWith p' s' else None
  | _ :: _, [] => None
  end.

Section Matcher.
Context {R : Type}.

(** [c*]: as many characters as possible first, then one less, ... *)
Fixpoint greedyStar (c : Z -> bool) (k : list Z -> option R) (s : list Z)
  : option R :=
  match s with
  | a :: s' =>
      if c a then
        match greedyStar c k s' with
        | Some r => Some r
        | None => k s
        end
      else k s
  | [] => k []
  end.

(** [c*?]: no character first, then one more, ... *)
Fixpoint lazyStar (c : Z -> bool) (k : list Z -> option R) (s : list Z)
  : option R :=
  match k s with
  | Some r => Some r
  | None =>
      match s with
      | a :: s' => if c a then lazyStar c k s' else None
      | [] => None
      end
  end.

Fixpoint matcher (r : t) (s : list Z) (capture : option (list Z))
    (k : list Z -> option (list Z) -> option R) : option R :=
  match r with
  | Chars p =>
      match startsWith p s with
      | Some s' => k s' capture
      | None => None
      end
  | Alt r1 r2 =>
      match matcher r1 s capture k with
      | Some x => Some x
      | None => matcher r2 s capture k
      end
  | Opt r =>
      match matcher r s capture k with
      | Some x => Some x
      | None => k s capture
      end
  | Star c => greedyStar c (fun s' => k s' capture) s
  | LazyStar c => lazyStar c (fun s' => k s' capture) s
  | Group r =>
      matcher r s capture
        (fun s' _ => k s' (Some (take (length s - length s') s)))
  | Seq r1 r2 =>
      matcher r1 s capture (fun s' capture' => matcher r2 s' capture' k)
  end.

End Matcher.

(** [s.match(r)] for a pattern without flags: the first position of [s]
    from which [r] matches; the result is the text of the capturing
    group ([None] inside: the group took no part). *)
Fixpoint exec (r : t) (s : list Z) : option (option (list Z)) :=
  match matcher r s None (fun _ capture => Some capture) with
  | Some capture => Some capture
  | None =>
      match s with
      | _ :: s' => exec r s'
      | [] => None
      end
  end.

End RegExp.

(** [/```(?:javascript|js)?\s*([\s\S]*?)```/] *)
Definition codeBlock : RegExp.t :=
  RegExp.Seq (RegExp.Chars (codeUnits "```"))
    (RegExp.Seq
       (RegExp.Opt (RegExp.Alt (RegExp.Chars (codeUnits "javascript"))
                               (RegExp.Chars (codeUnits "js"))))
       (RegExp.Seq (RegExp.Star isWhiteSpace)
          (RegExp.Seq (RegExp.Group (RegExp.LazyStar (fun _ => true)))
                      (RegExp.Chars (codeUnits "```"))))).

(** [None]: [codeBlockMatch[1]] is undefined and [.trim()] throws. *)
Definition cleanCodeFromMarkdown (code : list Z) : option (list Z) :=
  match RegExp.exec codeBlock code with
  | Some (Some body) => Some (trim body)
  | Some None => None
  | None => Some (trim code)
  end.

(** Notions used to state what the pattern does. *)
Definition backtick : Z := 96.

Definition fence : list Z := [backtick; backtick; backtick].

(** [s] starts with a fence; a fence starts somewhere in [s]. *)
Definition fenced (s : list Z) : bool :=
  match s with
  | a :: b :: c :: _ => (a =? backtick) && (b =? backtick) && (c =? backtick)
  | _ => false
  end.

Fixpoint hasFence (s : list Z) : bool :=
  fenced s || match s with
              | _ :: s' => hasFence s'
              | [] => false
              end.

(** A fence starts in [s] and another one starts after its end. *)
Fixpoint twoFences (s : list Z) : bool :=
  (fenced s && hasFence (drop 3 s))
  || match s with
     | _ :: s' => twoFences s'
     | [] => false
     end.

(** The text of [s] before its first fence. *)
Fixpoint beforeFence (s : list Z) : option (list Z) :=
  if fenced s then Some []
  else match s with
       | a :: s' => cons a <$> beforeFence s'
       | [] => None
       end.

(** [s] without the language tag it starts with. *)
Definition stripTag (s : list Z) : list Z :=
  match RegExp.startsWith (codeUnits "javascript") s with
  | Some s' => s'
  | None =>
      match RegExp.startsWith (codeUnits "js") s with
      | Some s' => s'
      | None => s
      end
  end.

(** The body of the first code block of [s]. *)
Definition blockAt (s : list Z) : option (list Z) :=
  if fenced s then beforeFence (trimStart (stripTag (drop 3 s))) else None.

Fixpoint firstBlock (s : list Z) : option (list Z) :=
  match blockAt s with
  | Some body => Some body
  | None =>
      match s with
      | _ :: s' => firstBlock s'
      | [] => None
      end
  end.

Definition noBacktick (s : list Z) : bool :=
  forallb (fun c => negb (c =? backtick)) s.

(** The events that do not ask for a new board. *)
Definition keepsBoard (e : event) : bool :=
  match e with
  | Reset _ | LevelSelect _ _ => false
  | _ => true
  end.

(** The scenario [ambush] after its only turn: the human was eaten. *)
Definition lostBoard : GameState.t :=
  GameState.mk (Point.mk (JS.lit 9000) (JS.lit 0))
    [ Human.mk 0 (JS.lit 0) (JS.lit 0) false "" ]
    [ Zombie.mk 0 (JS.lit 400) (JS.lit 0) (JS.lit 800) (JS.lit 0) true ]
    (JS.lit 0) (JS.lit 1) true false
    (Message.Text "Game Over - All humans died!").

(** The page on level 1 with an algorithm loaded and the board [g]. *)
Definition pageWith (a : strategy) (g : GameState.t) : App.t :=
  setGameState g (setAlgorithm a (initialApp plain)).


(** An algorithm that marks the state it is given as won; it throws on
    a board without humans and sends the avatar to NaN on the others. *)
Definition cheat : strategy := fun s =>
  (GameState.mk (GameState.rich s) (GameState.humans s) (GameState.zombies s)
     (GameState.score s) (GameState.turn s) true true (GameState.message s),
   match GameState.humans s with
   | [] => None
   | _ :: _ => Some (JS.Num S754_nan, JS.Num S754_nan)
   end).
(** ** Facts on binary64 arithmetic *)

Section Floats.

Local Abbreviation fexp := (SpecFloat.fexp JS.prec JS.emax).
Local Abbreviation digits p := (Z.pos (digits2_pos p)).

Lemma compare_cont_Eq m1 m2 :
  PosDef.Pos.compare_cont Eq m1 m2 = Pos.compare m1 m2.
Proof. reflexivity. Qed.

Local Ltac by_comparisons :=
  repeat match goal with
  | |- context [Z.compare ?a ?b] => destruct (Z.compare_spec a b)
  | H : context [Z.compare ?a ?b] |- _ => destruct (Z.compare_spec a b)
  | |- context [Pos.compare ?a ?b] => destruct (Pos.compare_spec a b)
  | H : context [Pos.compare ?a ?b] |- _ => destruct (Pos.compare_spec a b)
  end.

Local Ltac order_cases a b c :=
  unfold JS.lt, SFltb, SFcompare, JS.is_nan;
  destruct a as [[]|[]| |[] ? ?], b as [[]|[]| |[] ? ?], c as [[]|[]| |[] ? ?];
  try discriminate; try reflexivity;
  rewrite ?compare_cont_Eq; intros; rewrite ?compare_cont_Eq in *;
  by_comparisons; subst; cbn in *;
  try discriminate; try reflexivity; try lia.

(** [<] is transitive, and a number that is not below [m] is above
    whatever is below [m], unless it is NaN. *)
Lemma lt_trans a b c :
  JS.lt a b = true -> JS.lt b c = true -> JS.lt a c = true.
Proof. order_cases a b c. Qed.

Lemma lt_not_lt_trans a m e :
  JS.lt a m = true -> JS.lt e m = false -> JS.is_nan e = false ->
  JS.lt a e = true.
Proof. order_cases a m e. Qed.

(** Rounding a non-negative mantissa never yields NaN, and keeps the
    sign it is given. *)
Lemma shr_1_nonneg r : 0 <= shr_m r -> 0 <= shr_m (shr_1 r).
Proof. destruct r as [[|[]|[]] ? ?]; cbn; lia. Qed.

Lemma iter_shr_1_nonneg p r :
  0 <= shr_m r -> 0 <= shr_m (iter_pos shr_1 p r).
Proof.
  revert r; induction p as [p IH|p IH|]; intros r Hr; cbn.
  - apply IH, IH, shr_1_nonneg, Hr.
  - apply IH, IH, Hr.
  - apply shr_1_nonneg, Hr.
Qed.

Lemma shr_fexp_nonneg m e l :
  0 <= m -> 0 <= shr_m (fst (shr_fexp JS.prec JS.emax m e l)).
Proof.
  intros Hm. unfold shr_fexp, shr.
  assert (H0 : 0 <= shr_m (shr_record_of_loc m l))
    by (destruct l as [|[]]; exact Hm).
  destruct (_ - e); cbn [fst]; auto using iter_shr_1_nonneg.
Qed.

Lemma round_nearest_even_nonneg m l : 0 <= m -> 0 <= round_nearest_even m l.
Proof.
  intros Hm. unfold round_nearest_even.
  destruct l as [|[]]; try destruct (Z.even m); lia.
Qed.

Lemma binary_round_aux_signed s m e l :
  0 <= m -> signed s (binary_round_aux JS.prec JS.emax s m e l).
Proof.
  intros Hm. unfold binary_round_aux.
  pose proof (shr_fexp_nonneg m e l Hm) as H1.
  destruct (shr_fexp JS.prec JS.emax m e l) as [r1 e1]. cbn [fst] in H1.
  pose proof (shr_fexp_nonneg
    (round_nearest_even (shr_m r1) (loc_of_shr_record r1)) e1 loc_Exact
    (round_nearest_even_nonneg _ _ H1)) as H2.
  destruct (shr_fexp JS.prec JS.emax _ e1 loc_Exact) as [r2 e2].
  cbn [fst] in H2.
  destruct (shr_m r2); [done| |lia].
  by destruct (_ <=? _).
Qed.

Lemma binary_round_signed s m e :
  signed s (binary_round JS.prec JS.emax s m e).
Proof.
  unfold binary_round. destruct (shl_align _ _ _).
  by apply binary_round_aux_signed.
Qed.

Lemma binary_normalize_not_nan m e :
  JS.is_nan (binary_normalize JS.prec JS.emax m e false) = false.
Proof.
  destruct m as [|m|m]; cbn; [done|..].
  - pose proof (binary_round_signed false m e) as H.
    by destruct (binary_round _ _ _ _ _).
  - pose proof (binary_round_signed true m e) as H.
    by destruct (binary_round _ _ _ _ _).
Qed.

Lemma sq_signed v : JS.is_nan v = false -> signed false (JS.sq v).
Proof.
  destruct v as [[]|[]| |[] m e]; try done; intros _;
    by apply binary_round_aux_signed.
Qed.

Lemma add_signed a b :
  signed false a -> signed false b -> signed false (JS.add a b).
Proof.
  destruct a as [sa|sa| |sa ma ea], b as [sb|sb| |sb mb eb]; try done;
    cbn; intros -> ->; try done.
  apply binary_round_signed.
Qed.

Lemma sqrt_not_nan v : signed false v -> JS.is_nan (JS.sqrt v) = false.
Proof.
  destruct v as [s|s| |s m e]; try done; cbn; intros ->; [done|].
  unfold SFsqrt_core_binary.
  match goal with |- context [Z.sqrtrem ?a] =>
    pose proof (Z.sqrtrem_sqrt a) as Hq; pose proof (Z.sqrt_nonneg a) as Hn;
    destruct (Z.sqrtrem a) as [q r] end.
  cbn [fst] in Hq. subst q.
  match goal with |- context [binary_round_aux _ _ _ ?m ?e ?l] =>
    pose proof (binary_round_aux_signed false m e l Hn) as H;
    by destruct (binary_round_aux _ _ _ m e l) end.
Qed.

Lemma finite_to_number v : JS.finite v = true -> finite_number (JS.to_number v).
Proof. unfold JS.finite. by destruct (JS.to_number v). Qed.

Lemma sub_from_finite_not_nan a b :
  finite_number a -> JS.is_nan b = false -> JS.is_nan (JS.sub a b) = false.
Proof.
  destruct a as [[]| | |sa ma ea], b as [[]|[]| |sb mb eb]; try done.
  intros _ _. apply binary_normalize_not_nan.
Qed.

(** The distance from a point whose coordinates are not NaN to a point
    with finite coordinates is a number. *)
Lemma distance_not_nan x1 y1 x2 y2 :
  JS.is_nan (JS.to_number x1) = false -> JS.is_nan (JS.to_number y1) = false ->
  JS.finite x2 = true -> JS.finite y2 = true ->
  JS.is_nan (distance x1 y1 x2 y2) = false.
Proof.
  intros H1 H2 H3 H4. unfold distance.
  apply sqrt_not_nan, add_signed; apply sq_signed, sub_from_finite_not_nan;
    try done; by apply finite_to_number.
Qed.

(** The distance from a point with a NaN coordinate is NaN. *)
Lemma distance_from_nan x1 y1 x2 y2 :
  JS.is_nan (JS.to_number x1) || JS.is_nan (JS.to_number y1) = true ->
  distance x1 y1 x2 y2 = S754_nan.
Proof.
  unfold distance. intros H.
  destruct (JS.to_number x1) as [| | |]; destruct (JS.to_number y1) as [| | |];
    try discriminate;
    repeat match goal with
    | |- context [JS.sub ?a S754_nan] =>
        replace (JS.sub a S754_nan) with S754_nan by (by destruct a)
    end;
    cbn [JS.sq JS.mul SFmul];
    repeat match goal with
    | |- context [JS.add ?a S754_nan] =>
        replace (JS.add a S754_nan) with S754_nan by (by destruct a)
    end; reflexivity.
Qed.

(** *** Rounding, order and exact integers *)

Lemma fexp_eq e : fexp e = Z.max (e - 53) (-1074).
Proof. reflexivity. Qed.

Lemma digits_bounds p : 2 ^ (digits p - 1) <= Z.pos p < 2 ^ digits p.
Proof.
  induction p as [p IH|p IH|]; cbn [digits2_pos]; [| |by cbn].
  - rewrite Pos2Z.inj_succ.
    replace (Z.succ (digits p) - 1) with (Z.succ (digits p - 1)) by lia.
    rewrite !Z.pow_succ_r by lia. lia.
  - rewrite Pos2Z.inj_succ.
    replace (Z.succ (digits p) - 1) with (Z.succ (digits p - 1)) by lia.
    rewrite !Z.pow_succ_r by lia. lia.
Qed.

Lemma digits_unique p d :
  2 ^ (d - 1) <= Z.pos p < 2 ^ d -> 0 < d -> digits p = d.
Proof.
  intros [H1 H2] Hd. pose proof (digits_bounds p) as [H3 H4].
  destruct (Z.lt_trichotomy (digits p) d) as [H|[H|H]]; [|done|].
  - assert (2 ^ digits p <= 2 ^ (d - 1)) by (apply Z.pow_le_mono_r; lia). lia.
  - assert (2 ^ d <= 2 ^ (digits p - 1)) by (apply Z.pow_le_mono_r; lia). lia.
Qed.

Lemma digits_le p q : (p <= q)%positive -> digits p <= digits q.
Proof.
  intros H. pose proof (digits_bounds p) as [H1 _].
  pose proof (digits_bounds q) as [_ H2].
  destruct (Z_lt_le_dec (digits q) (digits p)) as [Hlt|]; [|done].
  assert (2 ^ digits q <= 2 ^ (digits p - 1)) by (apply Z.pow_le_mono_r; lia).
  lia.
Qed.

Lemma shifted_1 x : 0 <= shr_m x -> shifted 1 x (shr_1 x).
Proof.
  destruct x as [m r s]. cbn [shr_m]. intros Hm. unfold shifted, inexact.
  change (2 ^ 1) with 2.
  destruct m as [|[p|p|]|p]; try lia; cbn [shr_1 shr_m shr_r shr_s].
  - split; [reflexivity|]. change (0 mod 2) with 0. cbn [orb]. tauto.
  - assert (Hd : Z.pos p~1 / 2 = Z.pos p)
      by (symmetry; apply Z.div_unique with 1; lia).
    assert (Hr : Z.pos p~1 mod 2 = 1)
      by (symmetry; apply Z.mod_unique with (Z.pos p); lia).
    rewrite Hd, Hr. split; [done|]. cbn [orb]. split; [done|]. intros [_ H]. lia.
  - assert (Hd : Z.pos p~0 / 2 = Z.pos p)
      by (symmetry; apply Z.div_unique with 0; lia).
    assert (Hr : Z.pos p~0 mod 2 = 0)
      by (symmetry; apply Z.mod_unique with (Z.pos p); lia).
    rewrite Hd, Hr. split; [done|]. cbn [orb]. tauto.
  - split; [reflexivity|]. change (1 mod 2) with 1. cbn [orb].
    split; [done|]. intros [_ H]. lia.
Qed.

Lemma shifted_nonneg n x y : 0 <= n -> 0 <= shr_m x -> shifted n x y -> 0 <= shr_m y.
Proof.
  intros Hn Hx [-> _]. apply Z.div_pos; [done|]. by apply Z.pow_pos_nonneg.
Qed.

Lemma shifted_trans a b x y z :
  0 <= a -> 0 <= b -> shifted a x y -> shifted b y z -> shifted (a + b) x z.
Proof.
  intros Ha Hb [Hy Iy] [Hz Iz]. unfold shifted.
  assert (0 < 2 ^ a) by (by apply Z.pow_pos_nonneg).
  assert (0 < 2 ^ b) by (by apply Z.pow_pos_nonneg).
  rewrite Z.pow_add_r by done. split.
  - by rewrite Hz, Hy, Z.div_div by lia.
  - rewrite Iz, Iy, Hy, Z.rem_mul_r by lia.
    pose proof (Z.mod_pos_bound (shr_m x) (2 ^ a)).
    pose proof (Z.mod_pos_bound (shr_m x / 2 ^ a) (2 ^ b)).
    split; [intros [[? ?] ?]; split; [done|]; nia|].
    intros [? ?]. repeat split; try done; nia.
Qed.

Lemma iter_shr_1 n x : 0 <= shr_m x -> shifted (Z.pos n) x (iter_pos shr_1 n x).
Proof.
  revert x. induction n as [n IH|n IH|]; intros x Hx; cbn [iter_pos].
  - pose proof (shifted_1 x Hx) as H1.
    pose proof (shifted_nonneg 1 _ _ ltac:(lia) Hx H1) as Hx1.
    pose proof (IH _ Hx1) as H2.
    pose proof (shifted_nonneg (Z.pos n) _ _ ltac:(lia) Hx1 H2) as Hx2.
    pose proof (IH _ Hx2) as H3.
    replace (Z.pos n~1) with (1 + (Z.pos n + Z.pos n)) by lia.
    eapply shifted_trans; [lia|lia|done|].
    eapply shifted_trans; [lia|lia|done|done].
  - pose proof (IH _ Hx) as H2.
    pose proof (shifted_nonneg (Z.pos n) _ _ ltac:(lia) Hx H2) as Hx2.
    pose proof (IH _ Hx2) as H3.
    replace (Z.pos n~0) with (Z.pos n + Z.pos n) by lia.
    eapply shifted_trans; [lia|lia|done|done].
  - by apply shifted_1.
Qed.

Lemma binary_round_aux_pack s m e l :
  binary_round_aux JS.prec JS.emax s m e l =
  let '(mrs, e') := shr_fexp JS.prec JS.emax m e l in
  pack s (round_nearest_even (shr_m mrs) (loc_of_shr_record mrs)) e'.
Proof.
  unfold binary_round_aux, pack.
  destruct (shr_fexp JS.prec JS.emax m e l) as [mrs e']. reflexivity.
Qed.

Lemma round_nearest_even_bounds mrs :
  let q' := round_nearest_even (shr_m mrs) (loc_of_shr_record mrs) in
  shr_m mrs <= q' <= shr_m mrs + 1 /\ (inexact mrs = false -> q' = shr_m mrs).
Proof.
  destruct mrs as [m [] []]; cbn; try destruct (Z.even m); split; try lia; done.
Qed.

Lemma shr_fexp_exact M e :
  let E := fexp (digits M + e) in
  e <= E ->
  exists mrs, shr_fexp JS.prec JS.emax (Z.pos M) e loc_Exact = (mrs, E) /\
    shr_m mrs = Z.pos M / 2 ^ (E - e) /\
    (inexact mrs = false <-> Z.pos M mod 2 ^ (E - e) = 0).
Proof.
  intros E HE. unfold shr_fexp, shr. cbn [Zdigits2 shr_record_of_loc].
  fold E. destruct (E - e) as [|n|n] eqn:Hn; [| |lia].
  - eexists. split; [f_equal; lia|]. cbn [shr_m]. change (2 ^ 0) with 1.
    rewrite Z.div_1_r, Z.mod_1_r. done.
  - destruct (iter_shr_1 n (Build_shr_record (Z.pos M) false false)) as [H1 H2];
      [cbn; lia|].
    eexists. split; [f_equal; lia|]. split; [done|].
    rewrite H2. cbn. tauto.
Qed.

Lemma div_pow_lt M d k :
  0 <= M < 2 ^ d -> 0 <= k -> d <= k + 53 -> M / 2 ^ k < 2 ^ 53.
Proof.
  intros [H0 HM] Hk Hd. assert (0 < 2 ^ k) by (by apply Z.pow_pos_nonneg).
  apply Z.div_lt_upper_bound; [done|]. rewrite <- Z.pow_add_r by lia.
  assert (2 ^ d <= 2 ^ (k + 53)) by (apply Z.pow_le_mono_r; lia). lia.
Qed.

(** [binary_round_aux] on a mantissa that is at or below its place. *)
Lemma binary_round_aux_spec s M e :
  let E := fexp (digits M + e) in
  e <= E ->
  exists q', Z.pos M / 2 ^ (E - e) <= q' <= Z.pos M / 2 ^ (E - e) + 1 /\
    (Z.pos M mod 2 ^ (E - e) = 0 -> q' = Z.pos M / 2 ^ (E - e)) /\
    q' <= 2 ^ 53 /\ (-1074 < E -> 2 ^ 52 <= q') /\
    binary_round_aux JS.prec JS.emax s (Z.pos M) e loc_Exact = pack s q' E.
Proof.
  intros E HE. rewrite binary_round_aux_pack.
  destruct (shr_fexp_exact M e HE) as (mrs & -> & Hm & Hi). fold E in Hm, Hi.
  pose proof (round_nearest_even_bounds mrs) as [Hq He]. cbn zeta in Hq, He.
  rewrite Hm in Hq, He.
  eexists. split; [exact Hq|]. split; [intros H0; apply He, Hi, H0|].
  pose proof (digits_bounds M) as [HM1 HM].
  assert (Hp : 0 < 2 ^ (E - e)) by (apply Z.pow_pos_nonneg; lia).
  split; [|split; [|by rewrite Hm]].
  - assert (Z.pos M / 2 ^ (E - e) < 2 ^ 53); [|lia].
    apply (div_pow_lt _ (digits M)); [lia|lia|]. subst E. rewrite fexp_eq. lia.
  - intros Hlt. assert (HEd : E = digits M + e - 53)
      by (subst E; rewrite fexp_eq in *; lia).
    assert (2 ^ 52 <= Z.pos M / 2 ^ (E - e)); [|lia].
    apply Z.div_le_lower_bound; [lia|].
    rewrite <- Z.pow_add_r by lia.
    replace (E - e + 52) with (digits M - 1) by lia. lia.
Qed.

Lemma pack_zero s E : pack s 0 E = S754_zero s.
Proof.
  unfold pack, shr_fexp, shr. cbn [Zdigits2 shr_record_of_loc].
  destruct (fexp (0 + E) - E) as [|n|n]; try done.
  destruct (iter_shr_1 n (Build_shr_record 0 false false)) as [H _]; [done|].
  rewrite H. cbn [shr_m]. by rewrite Z.div_0_l by (apply Z.pow_nonzero; lia).
Qed.

Lemma pack_small s q E :
  (Z.pos q < 2 ^ 53) -> -1074 <= E ->
  pack s (Z.pos q) E =
  if E <=? 971 then S754_finite s q E else S754_infinity s.
Proof.
  intros Hq HE. unfold pack, shr_fexp, shr. cbn [Zdigits2 shr_record_of_loc].
  pose proof (digits_bounds q) as [Hd _].
  assert (digits q <= 53).
  { destruct (Z_lt_le_dec 53 (digits q)) as [H|]; [|lia].
    assert (2 ^ 53 <= 2 ^ (digits q - 1)) by (apply Z.pow_le_mono_r; lia). lia. }
  rewrite fexp_eq. destruct (Z.max _ _ - E) as [|n|n] eqn:Hn; [done|lia|done].
Qed.

Lemma pack_carry s E :
  -1074 <= E ->
  pack s (2 ^ 53) E =
  if E + 1 <=? 971 then S754_finite s (2 ^ 52)%positive (E + 1)
  else S754_infinity s.
Proof.
  intros HE. unfold pack, shr_fexp, shr.
  change (Zdigits2 (2 ^ 53)) with 54. rewrite fexp_eq.
  replace (Z.max (54 + E - 53) (-1074) - E) with 1 by lia.
  reflexivity.
Qed.

Lemma iter_xO m d : Z.pos (Pos.iter xO m d) = Z.pos m * 2 ^ Z.pos d.
Proof.
  induction d as [|d IH] using Pos.peano_ind.
  - cbn. lia.
  - rewrite Pos.iter_succ, Pos2Z.inj_succ, Z.pow_succ_r by lia.
    rewrite Pos2Z.inj_xO, IH. lia.
Qed.

Lemma shl_align_value m e e' :
  e' <= e ->
  Z.pos (fst (shl_align m e e')) = Z.pos m * 2 ^ (e - e') /\
  snd (shl_align m e e') = e'.
Proof.
  intros He. unfold shl_align.
  destruct (e' - e) as [|d|d] eqn:Hd; cbn [fst snd]; [|lia|].
  - replace (e - e') with 0 by lia. split; lia.
  - rewrite iter_xO. replace (e - e') with (Z.pos d) by lia. done.
Qed.

Lemma digits_shift m k :
  0 <= k -> digits (Z.to_pos (Z.pos m * 2 ^ k)) = digits m + k.
Proof.
  intros Hk. assert (0 < 2 ^ k) by (by apply Z.pow_pos_nonneg).
  pose proof (digits_bounds m) as [H1 H2].
  apply digits_unique; [|lia]. rewrite Z2Pos.id by lia.
  replace (digits m + k - 1) with (digits m - 1 + k) by lia.
  rewrite !Z.pow_add_r by lia. nia.
Qed.

Lemma valid_finite s m e :
  valid_binary JS.prec JS.emax (S754_finite s m e) = true <->
  fexp (digits m + e) = e /\ e <= 971.
Proof.
  cbn. unfold bounded, canonical_mantissa.
  rewrite andb_true_iff, Z.eqb_eq, Z.leb_le. done.
Qed.

(** [binary_round] first brings the mantissa down to its place. *)
Lemma binary_round_shift s M e :
  e <= fexp (digits M + e) ->
  binary_round JS.prec JS.emax s M e =
  binary_round_aux JS.prec JS.emax s (Z.pos M) e loc_Exact.
Proof.
  intros HE. unfold binary_round, shl_align.
  by destruct (fexp (digits M + e) - e) as [|d|d] eqn:Hd; [..|lia].
Qed.

Lemma binary_round_align s M e :
  let E := fexp (digits M + e) in
  E < e ->
  Z.pos M * 2 ^ (e - E) < 2 ^ 53 /\
  binary_round JS.prec JS.emax s M e = pack s (Z.pos M * 2 ^ (e - E)) E.
Proof.
  intros E HE. pose proof (digits_bounds M) as [_ HM].
  assert (0 < 2 ^ (e - E)) by (apply Z.pow_pos_nonneg; lia).
  split.
  { assert (2 ^ digits M * 2 ^ (e - E) <= 2 ^ 53).
    { rewrite <- Z.pow_add_r by lia. apply Z.pow_le_mono_r; [lia|].
      subst E. rewrite fexp_eq in *. lia. }
    nia. }
  unfold binary_round.
  pose proof (shl_align_value M e E ltac:(lia)) as [Hv He].
  fold E. destruct (shl_align M e E) as [mz ez]. cbn [fst snd] in Hv, He.
  subst ez. rewrite binary_round_aux_pack.
  unfold shr_fexp, shr. cbn [Zdigits2 shr_record_of_loc].
  assert (Hd : digits mz = digits M + (e - E)).
  { rewrite <- (digits_shift M (e - E)) by lia. by rewrite <- Hv. }
  rewrite Hd. replace (digits M + (e - E) + E) with (digits M + e) by lia.
  fold E. replace (E - E) with 0 by lia. cbn. by rewrite Hv.
Qed.

Lemma leb_finite m1 e1 m2 e2 :
  e1 < e2 \/ (e1 = e2 /\ Z.pos m1 <= Z.pos m2) ->
  SFleb (S754_finite false m1 e1) (S754_finite false m2 e2) = true.
Proof.
  unfold SFleb, SFcompare. rewrite compare_cont_Eq.
  intros [H|[-> H]].
  - by rewrite (proj2 (Z.compare_lt_iff e1 e2) H).
  - rewrite Z.compare_refl. destruct (Pos.compare_spec m1 m2); try done. lia.
Qed.

(** The shape of a rounded positive number. *)
Lemma binary_round_cases s M e :
  let E := fexp (digits M + e) in
  exists q', binary_round JS.prec JS.emax s M e = pack s q' E /\
    0 <= q' <= 2 ^ 53 /\ -1074 <= E /\
    (E < e -> q' = Z.pos M * 2 ^ (e - E)) /\
    (e <= E ->
     Z.pos M / 2 ^ (E - e) <= q' <= Z.pos M / 2 ^ (E - e) + 1 /\
     (Z.pos M mod 2 ^ (E - e) = 0 -> q' = Z.pos M / 2 ^ (E - e))) /\
    (-1074 < E -> 2 ^ 52 <= q').
Proof.
  intros E. assert (HE : -1074 <= E) by (subst E; rewrite fexp_eq; lia).
  pose proof (digits_bounds M) as [HM1 HM2].
  destruct (Z_lt_le_dec E e) as [Hlt|Hle].
  - destruct (binary_round_align s M e Hlt) as [Hb Hr]. fold E in Hb, Hr.
    exists (Z.pos M * 2 ^ (e - E)). split; [done|].
    assert (Hp : 0 < 2 ^ (e - E)) by (apply Z.pow_pos_nonneg; lia).
    repeat split; try done; try lia.
    intros HE1. assert (HEd : E = digits M + e - 53)
      by (subst E; rewrite fexp_eq in *; lia).
    assert (Hpow : 2 ^ 52 = 2 ^ (digits M - 1) * 2 ^ (e - E)).
    { rewrite <- Z.pow_add_r by lia. f_equal. lia. }
    nia.
  - destruct (binary_round_aux_spec s M e Hle)
      as (q' & Hq & Hex & Hb & Hbig & Hr).
    fold E in Hq, Hex, Hr, Hbig. exists q'.
    rewrite binary_round_shift by done. split; [done|].
    assert (0 <= Z.pos M / 2 ^ (E - e))
      by (apply Z.div_pos; [lia|apply Z.pow_pos_nonneg; lia]).
    repeat split; try done; try lia.
Qed.

Lemma pack_cases s q E :
  0 <= q <= 2 ^ 53 -> -1074 <= E ->
  (q = 0 /\ pack s q E = S754_zero s) \/
  (exists m, q = Z.pos m /\ q < 2 ^ 53 /\
     pack s q E = if E <=? 971 then S754_finite s m E else S754_infinity s) \/
  (q = 2 ^ 53 /\
   pack s q E = if E + 1 <=? 971 then S754_finite s (2 ^ 52)%positive (E + 1)
                else S754_infinity s).
Proof.
  intros Hq HE. destruct (decide (q = 2 ^ 53)) as [->|Hne].
  { right. right. split; [done|]. by apply pack_carry. }
  destruct q as [|m|m]; [|right; left|lia].
  - left. split; [done|]. apply pack_zero.
  - exists m. split; [done|]. split; [lia|]. apply pack_small; lia.
Qed.

(** Rounding keeps a number above the numbers of the format below it,
    and below those above it. *)
Lemma round_ge mx ex M e :
  valid_binary JS.prec JS.emax (S754_finite false mx ex) = true ->
  e <= ex -> Z.pos mx * 2 ^ (ex - e) <= Z.pos M ->
  SFleb (S754_finite false mx ex) (binary_round JS.prec JS.emax false M e)
  = true.
Proof.
  intros [Hc Hb]%valid_finite He HM.
  destruct (binary_round_cases false M e) as (q' & -> & Hq & HE & _ & Hs & _).
  set (E := fexp (digits M + e)) in *.
  assert (Hp1 : 0 < 2 ^ (ex - e)) by (apply Z.pow_pos_nonneg; lia).
  pose proof (digits_bounds mx) as [Hx1 Hx2].
  pose proof (digits_bounds M) as [HM1 HM2].
  assert (Hdig : digits mx + ex <= digits M + e).
  { assert (Hlt : 2 ^ (digits mx - 1 + (ex - e)) < 2 ^ digits M).
    { rewrite Z.pow_add_r by lia. nia. }
    apply Z.pow_lt_mono_r_iff in Hlt; lia. }
  assert (HexE : ex <= E) by (subst E; rewrite fexp_eq in *; lia).
  destruct (Hs ltac:(lia)) as [Hq' _].
  assert (Hp2 : 0 < 2 ^ (E - e)) by (apply Z.pow_pos_nonneg; lia).
  assert (Hpos : ex = E -> Z.pos mx <= q').
  { intros <-. assert (Z.pos mx <= Z.pos M / 2 ^ (ex - e))
      by (apply Z.div_le_lower_bound; lia). lia. }
  assert (Hbig : ex < E -> 2 ^ 52 <= q').
  { intros Hlt. assert (HEd : E = digits M + e - 53)
      by (subst E; rewrite fexp_eq in *; lia).
    assert (2 ^ 52 <= Z.pos M / 2 ^ (E - e)); [|lia].
    apply Z.div_le_lower_bound; [lia|].
    rewrite <- Z.pow_add_r by lia.
    replace (E - e + 52) with (digits M - 1) by lia. lia. }
  destruct (pack_cases false q' E Hq HE)
    as [[-> _]|[(m & -> & Hm & ->)|[-> ->]]].
  - destruct (decide (ex = E)) as [Heq|Hne]; [specialize (Hpos Heq)|
      specialize (Hbig ltac:(lia))]; lia.
  - destruct (Z.leb_spec E 971); [|done]. apply leb_finite.
    destruct (decide (ex = E)) as [Heq|Hne]; [right|left; lia].
    split; [done|]. by apply Hpos.
  - destruct (Z.leb_spec (E + 1) 971); [|done]. apply leb_finite. left. lia.
Qed.

Lemma round_le mx ex M e :
  valid_binary JS.prec JS.emax (S754_finite false mx ex) = true ->
  e <= ex -> Z.pos M <= Z.pos mx * 2 ^ (ex - e) ->
  SFleb (binary_round JS.prec JS.emax false M e) (S754_finite false mx ex)
  = true.
Proof.
  intros [Hc Hb]%valid_finite He HM.
  destruct (binary_round_cases false M e) as (q' & -> & Hq & HE & Ha & Hs & _).
  set (E := fexp (digits M + e)) in *.
  assert (Hp1 : 0 < 2 ^ (ex - e)) by (apply Z.pow_pos_nonneg; lia).
  pose proof (digits_bounds mx) as [Hx1 Hx2].
  pose proof (digits_bounds M) as [HM1 HM2].
  assert (Hdig : digits M + e <= digits mx + ex).
  { assert (Hlt : 2 ^ (digits M - 1) < 2 ^ (digits mx + (ex - e))).
    { rewrite Z.pow_add_r by lia. nia. }
    apply Z.pow_lt_mono_r_iff in Hlt; lia. }
  assert (HexE : E <= ex) by (subst E; rewrite fexp_eq in *; lia).
  assert (Hmx : Z.pos mx < 2 ^ 53).
  { assert (2 ^ digits mx <= 2 ^ 53); [|lia].
    apply Z.pow_le_mono_r; [lia|]. rewrite fexp_eq in Hc. lia. }
  assert (Hsame : E = ex -> q' <= Z.pos mx).
  { intros HEx. destruct (Z_lt_le_dec E e) as [Hlt|Hle]; [lia|].
    destruct (Hs Hle) as [Hq' Hex]. rewrite HEx in *.
    destruct (decide (Z.pos M mod 2 ^ (ex - e) = 0)) as [Hz|Hn0].
    - rewrite (Hex Hz). apply Z.div_le_upper_bound; lia.
    - assert (Z.pos M / 2 ^ (ex - e) < Z.pos mx); [|lia].
      apply Z.div_lt_upper_bound; [lia|].
      destruct (decide (Z.pos M = Z.pos mx * 2 ^ (ex - e))) as [Heq|]; [|lia].
      rewrite Heq, Z.mod_mul in Hn0 by lia. done. }
  destruct (pack_cases false q' E Hq HE)
    as [[-> ->]|[(m & -> & Hm & ->)|[-> ->]]].
  - done.
  - destruct (Z.leb_spec E 971); [|lia]. apply leb_finite.
    destruct (decide (E = ex)) as [Heq|Hne]; [right|left; lia].
    split; [done|]. by apply Hsame.
  - assert (E <> ex) by (intros Heq; specialize (Hsame Heq); lia).
    destruct (Z.leb_spec (E + 1) 971); [|lia]. apply leb_finite.
    destruct (decide (E + 1 = ex)) as [Heq|Hne]; [right|left; lia].
    split; [done|].
    assert (digits mx = 53) by (rewrite fexp_eq in Hc; lia).
    replace (digits mx - 1) with 52 in Hx1 by lia. exact Hx1.
Qed.

Lemma pack_valid s q E :
  0 <= q <= 2 ^ 53 -> -1074 <= E -> (-1074 < E -> 2 ^ 52 <= q) ->
  valid_binary JS.prec JS.emax (pack s q E) = true.
Proof.
  intros Hq HE Hbig.
  destruct (pack_cases s q E Hq HE) as [[-> ->]|[(m & -> & Hm & ->)|[-> ->]]].
  - done.
  - destruct (Z.leb_spec E 971) as [HE9|HE9]; [|done].
    apply valid_finite. split; [|done].
    pose proof (digits_bounds m) as [H1 H2].
    assert (Hd : digits m <= 53).
    { destruct (Z_lt_le_dec 53 (digits m)) as [Hd|]; [|lia].
      assert (2 ^ 53 <= 2 ^ (digits m - 1)) by (apply Z.pow_le_mono_r; lia).
      lia. }
    rewrite fexp_eq. destruct (decide (E = -1074)) as [->|Hne]; [lia|].
    specialize (Hbig ltac:(lia)).
    assert (Hd' : 53 <= digits m); [|lia].
    destruct (Z_lt_le_dec (digits m) 53) as [Hd'|]; [|lia].
    assert (2 ^ digits m <= 2 ^ 52) by (apply Z.pow_le_mono_r; lia). lia.
  - destruct (Z.leb_spec (E + 1) 971) as [HE9|HE9]; [|done].
    apply valid_finite.
    split; [|done]. change (digits (2 ^ 52)) with 53. rewrite fexp_eq. lia.
Qed.

Lemma binary_round_valid s M e :
  valid_binary JS.prec JS.emax (binary_round JS.prec JS.emax s M e) = true.
Proof.
  destruct (binary_round_cases s M e) as (q' & -> & Hq & HE & _ & _ & Hbig).
  by apply pack_valid.
Qed.

Lemma binary_normalize_valid m e :
  valid_binary JS.prec JS.emax (binary_normalize JS.prec JS.emax m e false)
  = true.
Proof. destruct m; [done|apply binary_round_valid..]. Qed.

Lemma lit_valid n : valid_binary JS.prec JS.emax (JS.lit n) = true.
Proof. apply binary_normalize_valid. Qed.

Lemma add_valid x y :
  valid_binary JS.prec JS.emax x = true ->
  valid_binary JS.prec JS.emax y = true ->
  valid_binary JS.prec JS.emax (JS.add x y) = true.
Proof.
  destruct x as [[]|[]| |sx mx ex], y as [[]|[]| |sy my ey]; try done.
  intros _ _. apply binary_normalize_valid.
Qed.

Lemma mul_valid x y :
  valid_binary JS.prec JS.emax x = true ->
  valid_binary JS.prec JS.emax y = true ->
  valid_binary JS.prec JS.emax (JS.mul x y) = true.
Proof.
  destruct x as [[]|[]| |sx mx ex], y as [[]|[]| |sy my ey]; try done.
  intros [Hx _]%valid_finite [Hy _]%valid_finite.
  unfold JS.mul, SFmul.
  pose proof (digits_bounds mx) as [Hx1 Hx2].
  pose proof (digits_bounds my) as [Hy1 Hy2].
  pose proof (digits_bounds (mx * my)) as [Hm1 Hm2].
  assert (Hd : digits mx + digits my - 1 <= digits (mx * my)).
  { assert (Hlt : 2 ^ (digits mx - 1 + (digits my - 1)) < 2 ^ digits (mx * my)).
    { rewrite Z.pow_add_r by lia. rewrite Pos2Z.inj_mul in Hm2. nia. }
    apply Z.pow_lt_mono_r_iff in Hlt; lia. }
  assert (HE : ex + ey <= fexp (digits (mx * my) + (ex + ey))).
  { rewrite fexp_eq in *. lia. }
  destruct (binary_round_aux_spec (xorb sx sy) (mx * my) (ex + ey) HE)
    as (q' & Hq & _ & Hb & Hbig & ->).
  apply pack_valid; [|rewrite fexp_eq; lia|done].
  split; [|done].
  assert (0 <= Z.pos (mx * my) / 2 ^ (fexp (digits (mx * my) + (ex + ey)) - (ex + ey)))
    by (apply Z.div_pos; [lia|apply Z.pow_pos_nonneg; lia]).
  lia.
Qed.

Lemma binary_round_aux_opp s m e l :
  binary_round_aux JS.prec JS.emax (negb s) m e l
  = SFopp (binary_round_aux JS.prec JS.emax s m e l).
Proof.
  unfold binary_round_aux.
  destruct (shr_fexp JS.prec JS.emax m e l) as [r1 e1].
  destruct (shr_fexp JS.prec JS.emax _ e1 loc_Exact) as [r2 e2].
  destruct (shr_m r2); [done| |done]. by destruct (_ <=? _).
Qed.

Lemma binary_round_opp M e :
  binary_round JS.prec JS.emax true M e
  = SFopp (binary_round JS.prec JS.emax false M e).
Proof.
  unfold binary_round. destruct (shl_align _ _ _) as [mz ez].
  apply (binary_round_aux_opp false).
Qed.

Lemma le_refl x : JS.is_nan x = false -> JS.le x x = true.
Proof.
  destruct x as [[]|[]| |[] m e]; try done; intros _;
    unfold JS.le, SFleb, SFcompare;
    rewrite Z.compare_refl, compare_cont_Eq, Pos.compare_refl; done.
Qed.

Lemma neg_le_signed m e r :
  signed false r -> JS.le (S754_finite true m e) r = true.
Proof. by destruct r as [[]|[]| |[] ? ?]. Qed.

Lemma le_opp m e r :
  signed false r ->
  JS.le (S754_finite true m e) (SFopp r) = JS.le r (S754_finite false m e).
Proof.
  destruct r as [[]|[]| |[] m' e']; try done. intros _.
  unfold JS.le, SFleb, SFcompare, SFopp. cbn [negb].
  change (PosDef.Pos.compare_cont Eq m' m) with (m' ?= m)%positive.
  rewrite ?compare_cont_Eq.
  rewrite (Z.compare_antisym e e'), (Pos.compare_antisym m m').
  by destruct (e ?= e'), (m ?= m')%positive.
Qed.

Lemma le_trans a b c :
  JS.le a b = true -> JS.le b c = true -> JS.le a c = true.
Proof.
  unfold JS.le, SFleb, SFcompare;
  destruct a as [[]|[]| |[] ? ?], b as [[]|[]| |[] ? ?], c as [[]|[]| |[] ? ?];
  try discriminate; try reflexivity;
  rewrite ?compare_cont_Eq; intros; rewrite ?compare_cont_Eq in *;
  by_comparisons; subst; cbn in *;
  try discriminate; try reflexivity; try lia.
Qed.

Lemma le_not_lt a b : JS.le a b = true -> JS.lt b a = false.
Proof.
  unfold JS.le, JS.lt, SFleb, SFltb, SFcompare;
  destruct a as [[]|[]| |[] ? ?], b as [[]|[]| |[] ? ?];
  try discriminate; try reflexivity;
  rewrite ?compare_cont_Eq; intros; rewrite ?compare_cont_Eq in *;
  by_comparisons; subst; cbn in *;
  try discriminate; try reflexivity; try lia.
Qed.

Lemma le_summable x y : summable x -> JS.le x y = true -> summable y.
Proof. by destruct x as [[]|[]| |[] ? ?], y as [[]|[]| |[] ? ?]. Qed.

Lemma add_ge x p :
  valid_binary JS.prec JS.emax x = true -> summable x -> signed false p ->
  JS.le x (JS.add x p) = true.
Proof.
  intros Hv Hx Hp.
  destruct p as [[]|[]| |[] mp ep]; try done.
  - destruct x as [[]|[]| |sx mx ex]; try done.
    apply (le_refl (S754_finite sx mx ex)). done.
  - by destruct x as [[]|[]| |[] mx ex].
  - destruct x as [[]|[]| |sx mx ex]; try done;
      try (apply (le_refl (S754_finite false mp ep)); done).
    unfold JS.add, SFadd.
    set (ez := Z.min ex ep).
    destruct (shl_align_value mx ex ez ltac:(lia)) as [-> _].
    destruct (shl_align_value mp ep ez ltac:(lia)) as [-> _].
    assert (Hpx : 0 < 2 ^ (ex - ez)) by (apply Z.pow_pos_nonneg; lia).
    assert (Hpp : 0 < 2 ^ (ep - ez)) by (apply Z.pow_pos_nonneg; lia).
    destruct sx; cbn [cond_Zopp].
    + destruct (- (Z.pos mx * 2 ^ (ex - ez)) + Z.pos mp * 2 ^ (ep - ez))
        as [|S|S] eqn:HS; cbn [binary_normalize].
      * done.
      * apply neg_le_signed, binary_round_signed.
      * rewrite binary_round_opp, le_opp
          by apply binary_round_signed.
        apply round_le; [exact Hv|lia|lia].
    + destruct (Z.pos mx * 2 ^ (ex - ez) + Z.pos mp * 2 ^ (ep - ez))
        as [|S|S] eqn:HS; cbn [binary_normalize]; [lia| |lia].
      apply round_ge; [exact Hv|lia|lia].
Qed.

Lemma add_comm x y : JS.add x y = JS.add y x.
Proof.
  destruct x as [[]|[]| |sx mx ex], y as [[]|[]| |sy my ey]; try done.
  unfold JS.add, SFadd. by rewrite (Z.min_comm ey ex), Z.add_comm.
Qed.

(** Rounding a number that needs no rounding. *)
Lemma binary_round_exact s M e q :
  let E := fexp (digits M + e) in
  (E <= e /\ q = Z.pos M * 2 ^ (e - E)) \/ (e <= E /\ Z.pos M = q * 2 ^ (E - e)) ->
  binary_round JS.prec JS.emax s M e = pack s q E.
Proof.
  intros E H.
  destruct (binary_round_cases s M e) as (q' & -> & Hq & HE & Ha & Hs & _).
  fold E in Ha, Hs. f_equal.
  destruct (Z_lt_le_dec E e) as [Hlt|Hle].
  - rewrite (Ha Hlt). destruct H as [[_ ->]|[Hle Hm]]; [done|lia].
  - destruct (Hs Hle) as [_ Hex].
    assert (Hp : 0 < 2 ^ (E - e)) by (apply Z.pow_pos_nonneg; lia).
    destruct H as [[Hle' ->]|[_ Hm]].
    + replace (E - e) with 0 in Hex by lia. replace (e - E) with 0 by lia.
      change (2 ^ 0) with 1 in *. rewrite Z.mod_1_r, Z.div_1_r in Hex.
      rewrite Hex by done. lia.
    + rewrite Hex; rewrite Hm.
      * by rewrite Z.div_mul by lia.
      * by rewrite Z.mod_mul by lia.
Qed.

(** The binary64 number of a positive integer below 2^53, whatever the
    mantissa and exponent it is rounded from. *)
Lemma binary_round_integer s M e (N : positive) :
  Z.pos N < 2 ^ 53 ->
  (0 <= e /\ Z.pos N = Z.pos M * 2 ^ e) \/ (e < 0 /\ Z.pos M = Z.pos N * 2 ^ (- e)) ->
  binary_round JS.prec JS.emax s M e =
  S754_finite s (Z.to_pos (Z.pos N * 2 ^ (53 - digits N))) (digits N - 53).
Proof.
  intros HN H.
  pose proof (digits_bounds N) as [HN1 HN2].
  assert (HdN : 1 <= digits N <= 53).
  { split; [lia|].
    destruct (Z_lt_le_dec 53 (digits N)) as [Hd|]; [|lia].
    assert (2 ^ 53 <= 2 ^ (digits N - 1)) by (apply Z.pow_le_mono_r; lia).
    lia. }
  assert (Hd : digits M + e = digits N).
  { destruct H as [[He HM]|[He HM]].
    - rewrite <- (digits_shift M e He), <- HM. done.
    - pose proof (digits_shift N (- e) ltac:(lia)) as Hs.
      rewrite <- HM in Hs. cbn [Z.to_pos] in Hs. lia. }
  assert (HE : fexp (digits M + e) = digits N - 53)
    by (rewrite Hd, fexp_eq; lia).
  assert (Hp : 0 < 2 ^ (53 - digits N)) by (apply Z.pow_pos_nonneg; lia).
  rewrite (binary_round_exact s M e (Z.pos N * 2 ^ (53 - digits N))).
  - rewrite HE.
    assert (Hq : exists q, Z.pos N * 2 ^ (53 - digits N) = Z.pos q)
      by (destruct (Z.pos N * 2 ^ (53 - digits N)) eqn:Hz; [lia|by eexists|lia]).
    destruct Hq as [q Hq]. rewrite Hq. cbn [Z.to_pos].
    rewrite pack_small; [|rewrite <- Hq|lia].
    + by destruct (Z.leb_spec (digits N - 53) 971); [|lia].
    + assert (Hlt : Z.pos N * 2 ^ (53 - digits N) < 2 ^ digits N * 2 ^ (53 - digits N))
        by (apply Z.mul_lt_mono_pos_r; lia).
      rewrite <- Z.pow_add_r in Hlt by lia.
      by replace (digits N + (53 - digits N)) with 53 in Hlt by lia.
  - rewrite HE.
    destruct H as [[He HM]|[He HM]].
    + left. split; [lia|]. rewrite HM, <- Z.mul_assoc, <- Z.pow_add_r by lia.
      do 2 f_equal. lia.
    + destruct (Z_le_gt_dec (digits N - 53) e) as [Hle|Hgt].
      * left. split; [done|]. rewrite HM, <- Z.mul_assoc, <- Z.pow_add_r by lia.
        do 2 f_equal. lia.
      * right. split; [lia|]. rewrite HM, <- Z.mul_assoc, <- Z.pow_add_r by lia.
        do 2 f_equal. lia.
Qed.

Lemma lit_pos (N : positive) :
  Z.pos N < 2 ^ 53 ->
  JS.lit (Z.pos N) =
  S754_finite false (Z.to_pos (Z.pos N * 2 ^ (53 - digits N))) (digits N - 53).
Proof.
  intros HN. apply (binary_round_integer false N 0 N HN).
  left. split; [done|]. change (2 ^ 0) with 1. lia.
Qed.

Lemma digits_small (N : positive) : Z.pos N < 2 ^ 53 -> 1 <= digits N <= 53.
Proof.
  intros HN. pose proof (digits_bounds N) as [HN1 HN2]. split; [lia|].
  destruct (Z_lt_le_dec 53 (digits N)) as [Hd|]; [|lia].
  assert (2 ^ 53 <= 2 ^ (digits N - 1)) by (apply Z.pow_le_mono_r; lia).
  lia.
Qed.

Lemma mantissa_pos (N : positive) :
  Z.pos N < 2 ^ 53 ->
  Z.pos (Z.to_pos (Z.pos N * 2 ^ (53 - digits N)))
  = Z.pos N * 2 ^ (53 - digits N).
Proof.
  intros HN. pose proof (digits_small N HN).
  assert (0 < 2 ^ (53 - digits N)) by (apply Z.pow_pos_nonneg; lia).
  rewrite Z2Pos.id; lia.
Qed.

(** Sums and products of integers are exact below 2^53. *)
Lemma add_lit a b :
  0 <= a -> 0 <= b -> a + b < 2 ^ 53 ->
  JS.add (JS.lit a) (JS.lit b) = JS.lit (a + b).
Proof.
  intros Ha Hb Hab.
  destruct a as [|a|a]; [|destruct b as [|b|b]|]; try lia.
  - change (JS.lit 0) with (S754_zero false). rewrite Z.add_0_l.
    destruct b as [|b|b]; [done| |lia]. by rewrite lit_pos by lia.
  - rewrite Z.add_0_r. change (JS.lit 0) with (S754_zero false).
    by rewrite lit_pos by lia.
  - rewrite (lit_pos a), (lit_pos b) by lia.
    change (Z.pos a + Z.pos b) with (Z.pos (a + b)).
    rewrite (lit_pos (a + b)) by lia.
    unfold JS.add, SFadd.
    pose proof (digits_small a ltac:(lia)) as Hda.
    pose proof (digits_small b ltac:(lia)) as Hdb.
    set (ez := Z.min (digits a - 53) (digits b - 53)).
    destruct (shl_align_value (Z.to_pos (Z.pos a * 2 ^ (53 - digits a)))
                (digits a - 53) ez ltac:(lia)) as [-> _].
    destruct (shl_align_value (Z.to_pos (Z.pos b * 2 ^ (53 - digits b)))
                (digits b - 53) ez ltac:(lia)) as [-> _].
    rewrite !mantissa_pos by lia. cbn [cond_Zopp].
    rewrite <- !Z.mul_assoc, <- !Z.pow_add_r by lia.
    replace (53 - digits a + (digits a - 53 - ez)) with (- ez) by lia.
    replace (53 - digits b + (digits b - 53 - ez)) with (- ez) by lia.
    assert (Hp : 0 < 2 ^ (- ez)) by (apply Z.pow_pos_nonneg; lia).
    destruct (Z.pos a * 2 ^ (- ez) + Z.pos b * 2 ^ (- ez)) as [|S|S] eqn:HS;
      [lia| |lia].
    cbn [binary_normalize].
    apply binary_round_integer; [lia|].
    destruct (decide (ez = 0)) as [Hz|Hz].
    + left. split; [lia|]. rewrite Hz in *. change (2 ^ (- 0)) with 1 in HS.
      change (2 ^ 0) with 1. lia.
    + right. split; [lia|]. rewrite <- HS. lia.
Qed.

Lemma mul_lit a b :
  0 <= a < 2 ^ 53 -> 0 <= b < 2 ^ 53 -> a * b < 2 ^ 53 ->
  JS.mul (JS.lit a) (JS.lit b) = JS.lit (a * b).
Proof.
  intros Ha Hb Hab.
  destruct a as [|a|a]; [|destruct b as [|b|b]|]; try lia.
  - change (JS.lit 0) with (S754_zero false). rewrite Z.mul_0_l.
    destruct b as [|b|b]; [done| |lia]. by rewrite lit_pos by lia.
  - rewrite Z.mul_0_r. change (JS.lit 0) with (S754_zero false).
    by rewrite lit_pos by lia.
  - rewrite (lit_pos a), (lit_pos b) by lia.
    change (Z.pos a * Z.pos b) with (Z.pos (a * b)) in *.
    rewrite (lit_pos (a * b)) by lia.
    unfold JS.mul, SFmul. cbn [xorb].
    pose proof (digits_small a ltac:(lia)) as Hda.
    pose proof (digits_small b ltac:(lia)) as Hdb.
    pose proof (digits_small (a * b) ltac:(lia)) as Hdab.
    set (ma := Z.to_pos (Z.pos a * 2 ^ (53 - digits a))).
    set (mb := Z.to_pos (Z.pos b * 2 ^ (53 - digits b))).
    set (e := digits a - 53 + (digits b - 53)).
    assert (HM : Z.pos (ma * mb) = Z.pos (a * b) * 2 ^ (- e)).
    { rewrite !Pos2Z.inj_mul. subst ma mb. rewrite !mantissa_pos by lia.
      replace (- e) with ((53 - digits a) + (53 - digits b)) by lia.
      rewrite Z.pow_add_r by lia. lia. }
    assert (Hd : digits (ma * mb) + e = digits (a * b)).
    { pose proof (digits_shift (a * b) (- e) ltac:(lia)) as Hs.
      rewrite <- HM in Hs. cbn [Z.to_pos] in Hs. lia. }
    assert (Hb' : digits b <= digits (a * b)) by (apply digits_le; nia).
    rewrite <- binary_round_shift by (rewrite Hd, fexp_eq; lia).
    apply binary_round_integer; [lia|].
    destruct (decide (e = 0)) as [Hz|Hz].
    + left. split; [lia|]. rewrite Hz in *. change (2 ^ (- 0)) with 1 in HM.
      change (2 ^ 0) with 1. lia.
    + right. split; [lia|done].
Qed.

(** The order of the integers below 2^53. *)
Lemma le_lit a b :
  0 <= a < 2 ^ 53 -> 0 <= b < 2 ^ 53 -> JS.le (JS.lit a) (JS.lit b) = (a <=? b).
Proof.
  intros Ha Hb.
  destruct a as [|a|a]; [|destruct b as [|b|b]|]; try lia.
  - change (JS.lit 0) with (S754_zero false).
    destruct b as [|b|b]; [done| |lia]. by rewrite lit_pos by lia.
  - change (JS.lit 0) with (S754_zero false). by rewrite lit_pos by lia.
  - rewrite (lit_pos a), (lit_pos b) by lia.
    pose proof (digits_small a ltac:(lia)) as Hda.
    pose proof (digits_small b ltac:(lia)) as Hdb.
    pose proof (digits_bounds a) as [Ha1 Ha2].
    pose proof (digits_bounds b) as [Hb1 Hb2].
    unfold JS.le, SFleb, SFcompare. rewrite compare_cont_Eq.
    rewrite Pos2Z.inj_compare, !mantissa_pos by lia.
    destruct (Z.compare_spec (digits a - 53) (digits b - 53)) as [He|He|He].
    + replace (digits b) with (digits a) by lia.
      assert (Hp : 0 < 2 ^ (53 - digits a)) by (apply Z.pow_pos_nonneg; lia).
      destruct (Z.compare_spec (Z.pos a * 2 ^ (53 - digits a))
                               (Z.pos b * 2 ^ (53 - digits a)));
        destruct (Z.leb_spec (Z.pos a) (Z.pos b)); try done; nia.
    + assert (2 ^ digits a <= 2 ^ (digits b - 1))
        by (apply Z.pow_le_mono_r; lia).
      destruct (Z.leb_spec (Z.pos a) (Z.pos b)); [done|lia].
    + assert (2 ^ digits b <= 2 ^ (digits a - 1))
        by (apply Z.pow_le_mono_r; lia).
      destruct (Z.leb_spec (Z.pos a) (Z.pos b)); [lia|done].
Qed.

Lemma lt_lit a b :
  0 <= a < 2 ^ 53 -> 0 <= b < 2 ^ 53 -> JS.lt (JS.lit a) (JS.lit b) = (a <? b).
Proof.
  intros Ha Hb.
  destruct a as [|a|a]; [|destruct b as [|b|b]|]; try lia.
  - change (JS.lit 0) with (S754_zero false).
    destruct b as [|b|b]; [done| |lia]. by rewrite lit_pos by lia.
  - change (JS.lit 0) with (S754_zero false). by rewrite lit_pos by lia.
  - rewrite (lit_pos a), (lit_pos b) by lia.
    pose proof (digits_small a ltac:(lia)) as Hda.
    pose proof (digits_small b ltac:(lia)) as Hdb.
    pose proof (digits_bounds a) as [Ha1 Ha2].
    pose proof (digits_bounds b) as [Hb1 Hb2].
    unfold JS.lt, SFltb, SFcompare. rewrite compare_cont_Eq.
    rewrite Pos2Z.inj_compare, !mantissa_pos by lia.
    destruct (Z.compare_spec (digits a - 53) (digits b - 53)) as [He|He|He].
    + replace (digits b) with (digits a) by lia.
      assert (Hp : 0 < 2 ^ (53 - digits a)) by (apply Z.pow_pos_nonneg; lia).
      destruct (Z.compare_spec (Z.pos a * 2 ^ (53 - digits a))
                               (Z.pos b * 2 ^ (53 - digits a)));
        destruct (Z.ltb_spec (Z.pos a) (Z.pos b)); try done; nia.
    + assert (2 ^ digits a <= 2 ^ (digits b - 1))
        by (apply Z.pow_le_mono_r; lia).
      destruct (Z.ltb_spec (Z.pos a) (Z.pos b)); [done|lia].
    + assert (2 ^ digits b <= 2 ^ (digits a - 1))
        by (apply Z.pow_le_mono_r; lia).
      destruct (Z.ltb_spec (Z.pos a) (Z.pos b)); [lia|done].
Qed.

End Floats.

(** [Math.floor] and the literals on a few numbers. *)
Example floor_examples :
  JS.floor (JS.div (JS.lit 5) (JS.lit 2)) = JS.lit 2 /\
  JS.floor (JS.div (JS.lit (-5)) (JS.lit 2)) = JS.lit (-3) /\
  JS.floor (JS.div (JS.lit 1) (JS.lit 2)) = JS.lit 0 /\
  JS.floor (JS.div (JS.lit (-1)) (JS.lit 2)) = JS.lit (-1) /\
  JS.floor (JS.lit (-400)) = JS.lit (-400) /\
  JS.floor (S754_zero true) = S754_zero true /\
  JS.floor S754_nan = S754_nan.
Proof. vm_compute. repeat split; reflexivity. Qed.

Example distance_3_4_5 :
  distance (JS.lit 0) (JS.lit 0) (JS.lit 300) (JS.lit 400) = JS.lit 500 /\
  distance JS.Null JS.Null (JS.lit 300) (JS.lit 400) = JS.lit 500.
Proof. vm_compute. split; reflexivity. Qed.

(** ** Lemmas on the passes of the simulator *)

Section Passes.

Lemma fibonacci_pos n : 0 < fibonacci n.
Proof.
  unfold fibonacci.
  assert (H : Forall (fun v => 0 < v) fibs)
    by (repeat constructor; reflexivity).
  rewrite Forall_forall in H. apply H.
  apply list_elem_of_In, nth_In. simpl. lia.
Qed.

Lemma comboScore_nonneg a k n : 0 <= comboScore a k n.
Proof.
  revert k; induction n as [|n IH]; intros k; simpl; [lia|].
  specialize (IH (k + 1)). pose proof (fibonacci_pos k). nia.
Qed.

Lemma destroyZombies_spec rich a zs k sc :
  destroyZombies rich a zs k sc =
  (destroyOne rich <$> zs,
   k + Z.of_nat (zombiesKilled rich zs),
   scoreAfter a k (zombiesKilled rich zs) sc).
Proof.
  revert k sc; induction zs as [|z zs IH]; intros k sc.
  - unfold zombiesKilled. cbn. do 2 f_equal. lia.
  - cbn [destroyZombies fmap list_fmap].
    unfold zombiesKilled, destroyOne, destroyedNow in *.
    rewrite filter_cons.
    destruct (Zombie.alive z) eqn:Ha; cbn [negb andb].
    + destruct (destroyed rich z) eqn:Hd.
      * rewrite IH. rewrite decide_True by done. cbn [length scoreAfter].
        replace (k + 1 - 1) with k by lia. unfold points.
        do 2 f_equal. lia.
      * rewrite IH. rewrite decide_False by done. reflexivity.
    + rewrite IH. rewrite decide_False by done. reflexivity.
Qed.

Lemma eatHuman_alive z h :
  Human.alive (eatHuman z h) = Human.alive h && negb (eaten z h).
Proof.
  unfold eatHuman. destruct (Human.alive h) eqn:Ha; simpl; [|done].
  destruct (eaten z h); simpl; done.
Qed.

Lemma eaten_eatHuman z z' h : eaten z (eatHuman z' h) = eaten z h.
Proof.
  unfold eatHuman. destruct (negb _); [done|]. destruct (eaten z' h); done.
Qed.

Lemma eatHuman_pos z h :
  Human.id (eatHuman z h) = Human.id h /\
  Human.x (eatHuman z h) = Human.x h /\
  Human.y (eatHuman z h) = Human.y h /\
  Human.emoji (eatHuman z h) = Human.emoji h.
Proof.
  unfold eatHuman. destruct (negb _); [done|]. destruct (eaten z h); done.
Qed.

Lemma eatHumans_spec zs hs : eatHumans zs hs = afterMeal zs <$> hs.
Proof.
  revert hs; induction zs as [|z zs IH]; intros hs.
  - simpl. induction hs as [|h hs IHh]; [done|].
    cbn [fmap list_fmap] in *. rewrite <- IHh. f_equal.
    destruct h; unfold afterMeal; simpl. by rewrite andb_true_r.
  - cbn [eatHumans]. destruct (Zombie.alive z) eqn:Ha; cbn [negb].
    + rewrite IH, <- list_fmap_compose. apply list_fmap_ext.
      intros _ h _. unfold afterMeal, eatenBy, compose. cbn [existsb].
      rewrite Ha. cbn [andb].
      destruct (eatHuman_pos z h) as (-> & -> & -> & ->).
      rewrite eatHuman_alive. f_equal.
      assert (E : forall l, existsb (fun z0 => Zombie.alive z0 && eaten z0 (eatHuman z h)) l
                    = existsb (fun z0 => Zombie.alive z0 && eaten z0 h) l).
      { intros l. induction l as [|a l IHl]; [done|]. simpl.
        by rewrite eaten_eatHuman, IHl. }
      rewrite E. destruct (Human.alive h), (eaten z h), (existsb _ zs); done.
    + rewrite IH. apply list_fmap_ext. intros _ h _.
      unfold afterMeal, eatenBy. cbn [existsb]. rewrite Ha. done.
Qed.

End Passes.

(** ** The fields of the state after one turn *)

Section Fields.
Variables (s : GameState.t) (tx ty : JS.value).

Local Abbreviation s' := (simulateTurn s tx ty).
Local Abbreviation zs3 := (destroyOne (richMoved s tx ty) <$> zombiesMoved s).

Lemma simulateTurn_rich : GameState.rich s' = richMoved s tx ty.
Proof.
  unfold simulateTurn. rewrite destroyZombies_spec.
  repeat case_match; reflexivity.
Qed.

Lemma simulateTurn_humans :
  GameState.humans s' = afterMeal zs3 <$> (jsonHuman <$> GameState.humans s).
Proof.
  unfold simulateTurn. rewrite destroyZombies_spec.
  repeat case_match; cbn; rewrite eatHumans_spec; reflexivity.
Qed.

Lemma simulateTurn_zombies :
  GameState.zombies s' =
  nextZombie (GameState.humans s') (GameState.rich s') <$> zs3.
Proof.
  rewrite simulateTurn_humans, simulateTurn_rich.
  unfold simulateTurn. rewrite destroyZombies_spec.
  repeat case_match; cbn; rewrite eatHumans_spec; reflexivity.
Qed.

Lemma simulateTurn_score :
  GameState.score s' =
  scoreAfter (countAlive Human.alive (jsonHuman <$> GameState.humans s)) 0
    (zombiesKilled (richMoved s tx ty) (zombiesMoved s))
    (JS.json (GameState.score s)).
Proof.
  unfold simulateTurn. rewrite destroyZombies_spec.
  repeat case_match; reflexivity.
Qed.

Lemma simulateTurn_turn :
  GameState.turn s' =
  JS.Num (JS.add (JS.to_number (JS.json (GameState.turn s))) (JS.lit 1)).
Proof.
  unfold simulateTurn. rewrite destroyZombies_spec.
  repeat case_match; reflexivity.
Qed.

(** The win/lose check, read on the returned lists. *)
Lemma simulateTurn_outcome :
  let remainingHumans := countAlive Human.alive (GameState.humans s') in
  let remainingZombies := countAlive Zombie.alive (GameState.zombies s') in
  (GameState.gameOver s', GameState.won s', GameState.message s') =
  if (remainingZombies =? 0) && (0 <? remainingHumans) then
    (true, true, Message.Victory (GameState.score s'))
  else if remainingHumans =? 0 then
    (true, false, Message.Text "Game Over - All humans died!")
  else (GameState.gameOver s, GameState.won s, GameState.message s).
Proof.
  unfold simulateTurn. rewrite destroyZombies_spec.
  repeat case_match; cbn in *; simplify_eq; try reflexivity; congruence.
Qed.

End Fields.

(** ** The win/lose check *)

(** C1, as the code has it: after one [simulateTurn], when no zombie is
    alive and at least one human is alive the outcome is a victory, and
    when no human is alive the outcome is a defeat, whether or not a
    zombie is still alive. *)
Theorem simulateTurn_terminal (s : GameState.t) (tx ty : JS.value) :
  let s' := simulateTurn s tx ty in
  (countAlive Zombie.alive (GameState.zombies s') = 0 ->
   0 < countAlive Human.alive (GameState.humans s') ->
   terminalOf s' = victory) /\
  (countAlive Human.alive (GameState.humans s') = 0 ->
   terminalOf s' = defeat).
Proof.
  intros s'. pose proof (simulateTurn_outcome s tx ty) as H.
  cbn zeta in H. fold s' in H. unfold terminalOf. split.
  - intros Hz Hh. rewrite Hz in H.
    replace (0 <? _) with true in H by (symmetry; apply Z.ltb_lt; exact Hh).
    cbn [Z.eqb andb] in H. injection H as Hg Hw _. by rewrite Hg, Hw.
  - intros Hh. rewrite Hh in H. rewrite andb_false_r in H.
    cbn [Z.eqb] in H. injection H as Hg Hw _. by rewrite Hg, Hw.
Qed.

Lemma simulateTurn_terminal_witness :
  terminalOf (simulateTurn duel (JS.lit 0) (JS.lit 0)) = victory /\
  terminalOf (simulateTurn testAll (JS.lit 0) (JS.lit 0)) = defeat.
Proof.
  split.
  - apply (simulateTurn_terminal duel (JS.lit 0) (JS.lit 0));
      vm_compute; reflexivity.
  - apply (simulateTurn_terminal testAll (JS.lit 0) (JS.lit 0)).
    vm_compute; reflexivity.
Defined.

(** C1 as stated fails: on the empty scenario both counts are zero after
    the turn and the outcome is a defeat, not a victory. *)
Lemma both_zero_is_defeat :
  let s' := simulateTurn testAll (JS.lit 0) (JS.lit 0) in
  countAlive Zombie.alive (GameState.zombies s') = 0 /\
  countAlive Human.alive (GameState.humans s') = 0 /\
  terminalOf s' = defeat /\
  terminalOf s' <> victory.
Proof. vm_compute. repeat split; congruence. Qed.

(** ** Score *)

(** The points of a kill are a binary64 number that is not negative. *)
Lemma fibonacci_range n : 0 < fibonacci n <= 987.
Proof.
  unfold fibonacci.
  assert (H : Forall (fun v => 0 < v <= 987) fibs)
    by (repeat constructor; lia).
  rewrite Forall_forall in H. apply H.
  apply list_elem_of_In, nth_In. simpl. lia.
Qed.

Lemma lit_signed n : 0 <= n -> signed false (JS.lit n).
Proof. destruct n as [|p|p]; [done|intros _; apply binary_round_signed|lia]. Qed.

Lemma mul_self_signed x : signed false x -> signed false (JS.mul x x).
Proof.
  destruct x as [[]|[]| |[] m e]; try done. intros _.
  by apply (binary_round_aux_signed false).
Qed.

Lemma mul_finite_signed x m e :
  signed false x -> signed false (JS.mul x (S754_finite false m e)).
Proof.
  destruct x as [[]|[]| |[] mx ex]; try done. intros _.
  by apply (binary_round_aux_signed false).
Qed.

Lemma points_signed a k : 0 <= a -> signed false (points a k).
Proof.
  intros Ha. unfold points.
  pose proof (fibonacci_range k) as Hf.
  destruct (fibonacci k) as [|f|f] eqn:Hk; try lia.
  rewrite (lit_pos f), (lit_pos 10) by lia.
  by apply mul_finite_signed, mul_finite_signed, mul_self_signed, lit_signed.
Qed.

Lemma points_binary64 a k : JS.binary64 (points a k) = true.
Proof. unfold points. repeat apply mul_valid; apply lit_valid. Qed.

(** A score that is a number (or plus infinity) does not go down when
    points are added to it. *)
Lemma scoreAfter_le a n : forall k x,
  0 <= a -> JS.binary64 (JS.to_number x) = true -> summable (JS.to_number x) ->
  JS.le (JS.to_number x) (JS.to_number (scoreAfter a k n x)) = true /\
  JS.binary64 (JS.to_number (scoreAfter a k n x)) = true.
Proof.
  induction n as [|n IH]; intros k x Ha Hv Hx; cbn [scoreAfter].
  - split; [|done]. apply le_refl. by destruct (JS.to_number x) as [| | |].
  - pose proof (add_ge _ (points a k) Hv Hx (points_signed a k Ha)) as Hle.
    destruct (IH (k + 1) (JS.Num (JS.add (JS.to_number x) (points a k))))
      as [H1 H2];
      [done|by apply add_valid, points_binary64|by apply (le_summable _ _ Hx)|].
    split; [|done]. by eapply le_trans.
Qed.

Lemma json_le v :
  JS.binary64 (JS.to_number v) = true -> JS.finite v = true ->
  JS.le (JS.to_number v) (JS.to_number (JS.json v)) = true /\
  JS.binary64 (JS.to_number (JS.json v)) = true /\
  summable (JS.to_number (JS.json v)).
Proof.
  destruct v as [[[]|[]| |sm m e]|]; try done. intros Hv _.
  split; [|done]. by apply (le_refl (S754_finite sm m e)).
Qed.

Lemma simulateTurn_score_le s tx ty :
  JS.binary64 (JS.to_number (GameState.score s)) = true ->
  JS.finite (GameState.score s) = true ->
  JS.le (JS.to_number (GameState.score s))
        (JS.to_number (GameState.score (simulateTurn s tx ty))) = true /\
  JS.binary64 (JS.to_number (GameState.score (simulateTurn s tx ty))) = true.
Proof.
  intros Hv Hf. rewrite simulateTurn_score.
  destruct (json_le _ Hv Hf) as (H1 & H2 & H3).
  destruct (scoreAfter_le
    (countAlive Human.alive (jsonHuman <$> GameState.humans s))
    (zombiesKilled (richMoved s tx ty) (zombiesMoved s)) 0
    (JS.json (GameState.score s))) as [H4 H5];
    [unfold countAlive; lia|done|done|].
  split; [|done]. by eapply le_trans.
Qed.

(** C6: the score after a turn is at least the score before it, for
    every state whose score is a finite binary64 number (or [null],
    which counts as 0) and every destination. *)
Theorem simulateTurn_score_monotone (s : GameState.t) (tx ty : JS.value) :
  JS.binary64 (JS.to_number (GameState.score s)) = true ->
  JS.finite (GameState.score s) = true ->
  JS.le (JS.to_number (GameState.score s))
        (JS.to_number (GameState.score (simulateTurn s tx ty))) = true.
Proof. intros Hv Hf. by apply simulateTurn_score_le. Qed.

Lemma simulateTurn_score_monotone_witness :
  JS.le (JS.to_number (GameState.score duel))
        (JS.to_number (GameState.score
           (simulateTurn duel (JS.lit 0) (JS.lit 0)))) = true.
Proof.
  apply (simulateTurn_score_monotone duel (JS.lit 0) (JS.lit 0));
    vm_compute; reflexivity.
Defined.

(** In that turn a zombie is destroyed and the score goes from 0 to 10. *)
Example simulateTurn_score_grows :
  GameState.score duel = JS.lit 0 /\
  GameState.score (simulateTurn duel (JS.lit 0) (JS.lit 0)) = JS.lit 10.
Proof. vm_compute. split; reflexivity. Qed.

(** ** One entity through the turn *)

Section Entities.
Variables (s : GameState.t) (tx ty : JS.value).

Local Abbreviation s' := (simulateTurn s tx ty).
Local Abbreviation zs3 := (destroyOne (richMoved s tx ty) <$> zombiesMoved s).

Lemma moveZombie_dead hs r z : Zombie.alive z = false -> moveZombie hs r z = z.
Proof. intros H. unfold moveZombie. by rewrite H. Qed.

Lemma moveZombie_alive hs r z :
  Zombie.alive (moveZombie hs r z) = Zombie.alive z.
Proof. unfold moveZombie. by destruct (Zombie.alive z) eqn:E. Qed.

Lemma nextZombie_dead hs r z : Zombie.alive z = false -> nextZombie hs r z = z.
Proof. intros H. unfold nextZombie. by rewrite H. Qed.

Lemma nextZombie_keeps hs r z :
  Zombie.alive (nextZombie hs r z) = Zombie.alive z /\
  Zombie.x (nextZombie hs r z) = Zombie.x z /\
  Zombie.y (nextZombie hs r z) = Zombie.y z /\
  Zombie.id (nextZombie hs r z) = Zombie.id z.
Proof. unfold nextZombie. by destruct (Zombie.alive z) eqn:E. Qed.

Lemma destroyOne_dead r z : Zombie.alive z = false -> destroyOne r z = z.
Proof. intros H. unfold destroyOne, destroyedNow. by rewrite H. Qed.

Lemma destroyOne_keeps r z :
  Zombie.alive (destroyOne r z) = Zombie.alive z && negb (destroyed r z) /\
  Zombie.x (destroyOne r z) = Zombie.x z /\
  Zombie.y (destroyOne r z) = Zombie.y z /\
  Zombie.id (destroyOne r z) = Zombie.id z.
Proof.
  unfold destroyOne, destroyedNow.
  destruct (Zombie.alive z) eqn:E, (destroyed r z) eqn:D; by rewrite ?E.
Qed.

Lemma destroyed_ext r z z' :
  Zombie.x z' = Zombie.x z -> Zombie.y z' = Zombie.y z ->
  destroyed r z' = destroyed r z.
Proof. unfold destroyed. by intros -> ->. Qed.

Lemma eaten_ext z z' h :
  Zombie.x z' = Zombie.x z -> Zombie.y z' = Zombie.y z ->
  eaten z' h = eaten z h.
Proof. unfold eaten. by intros -> ->. Qed.

(** The zombie at position [i] after the turn. *)
Lemma simulateTurn_zombie_at i z :
  GameState.zombies s !! i = Some z ->
  GameState.zombies s' !! i =
  Some (nextZombie (GameState.humans s') (GameState.rich s')
          (destroyOne (GameState.rich s')
             (moveZombie (GameState.humans (jsonCopy s))
                (GameState.rich (jsonCopy s)) (jsonZombie z)))).
Proof.
  intros Hz. rewrite simulateTurn_zombies, simulateTurn_rich.
  unfold zombiesMoved. cbn [jsonCopy GameState.zombies].
  by rewrite !list_lookup_fmap, Hz.
Qed.

Lemma zs3_at i z :
  GameState.zombies s !! i = Some z ->
  zs3 !! i =
  Some (destroyOne (GameState.rich s')
          (moveZombie (GameState.humans (jsonCopy s))
             (GameState.rich (jsonCopy s)) (jsonZombie z))).
Proof.
  intros Hz. rewrite simulateTurn_rich.
  unfold zombiesMoved. cbn [jsonCopy GameState.zombies].
  by rewrite !list_lookup_fmap, Hz.
Qed.

(** The human at position [j] after the turn. *)
Lemma simulateTurn_human_at j h :
  GameState.humans s !! j = Some h ->
  GameState.humans s' !! j = Some (afterMeal zs3 (jsonHuman h)).
Proof.
  intros Hh. rewrite simulateTurn_humans.
  by rewrite !list_lookup_fmap, Hh.
Qed.

Lemma simulateTurn_zombie_alive i z' :
  GameState.zombies s' !! i = Some z' ->
  exists z3, zs3 !! i = Some z3 /\
    Zombie.alive z3 = Zombie.alive z' /\
    Zombie.x z3 = Zombie.x z' /\ Zombie.y z3 = Zombie.y z'.
Proof.
  rewrite simulateTurn_zombies. rewrite list_lookup_fmap.
  destruct (zs3 !! i) as [z3|]; [|done]. intros [= <-].
  exists z3. split; [done|].
  destruct (nextZombie_keeps (GameState.humans (simulateTurn s tx ty))
              (GameState.rich (simulateTurn s tx ty)) z3) as (-> & -> & -> & _).
  done.
Qed.

Lemma countAlive_cons {A} (alive : A -> bool) a l :
  countAlive alive (a :: l) =
  (if alive a then 1 else 0) + countAlive alive l.
Proof.
  unfold countAlive. rewrite filter_cons.
  destruct (alive a); [rewrite decide_True by done|rewrite decide_False by done];
    cbn [length]; lia.
Qed.

Lemma countAlive_fmap {A B} (f : A -> B) (p : B -> bool) (q : A -> bool) l :
  (forall a, p (f a) = q a) ->
  countAlive p (f <$> l) = countAlive q l.
Proof.
  intros H. induction l as [|a l IH]; [done|].
  cbn [fmap list_fmap]. rewrite !countAlive_cons, H. fold (fmap f l). lia.
Qed.

Lemma countAlive_nonneg {A} (alive : A -> bool) l : 0 <= countAlive alive l.
Proof. unfold countAlive. lia. Qed.

Lemma countAlive_destroyOne r zs :
  countAlive Zombie.alive (destroyOne r <$> zs) =
  countAlive Zombie.alive zs - Z.of_nat (zombiesKilled r zs).
Proof.
  induction zs as [|z zs IH]; [done|].
  cbn [fmap list_fmap]. fold (fmap (destroyOne r) zs).
  rewrite !countAlive_cons, IH. unfold zombiesKilled. rewrite filter_cons.
  destruct (destroyOne_keeps r z) as (-> & _).
  unfold destroyedNow.
  destruct (Zombie.alive z), (destroyed r z); cbn [andb negb];
    [rewrite decide_True by done|rewrite decide_False by done..];
    cbn [length]; lia.
Qed.

Lemma simulateTurn_humansAlive_before :
  countAlive Human.alive (jsonHuman <$> GameState.humans s) =
  countAlive Human.alive (GameState.humans s).
Proof. by apply countAlive_fmap. Qed.

Lemma simulateTurn_zombiesAlive :
  countAlive Zombie.alive (GameState.zombies s') =
  countAlive Zombie.alive (GameState.zombies s)
  - Z.of_nat (zombiesKilled (richMoved s tx ty) (zombiesMoved s)).
Proof.
  rewrite simulateTurn_zombies.
  rewrite (countAlive_fmap _ _ Zombie.alive)
    by (intros a; apply nextZombie_keeps).
  rewrite countAlive_destroyOne. f_equal.
  unfold zombiesMoved. cbn [jsonCopy GameState.zombies].
  rewrite <- list_fmap_compose.
  apply countAlive_fmap. intros a. unfold compose.
  by rewrite moveZombie_alive.
Qed.

End Entities.

(** ** The destruction pass *)

Lemma comboScore_sum a n : forall k : nat,
  comboScore a (Z.of_nat k) n = sumZ (killPoints a <$> seq (S k) n).
Proof.
  induction n as [|n IH]; intros k; [done|].
  cbn [comboScore seq]. rewrite fmap_cons.
  change (sumZ (?x :: ?l)) with (x + sumZ l). rewrite <- IH.
  unfold killPoints.
  replace (Z.of_nat (S k) - 1) with (Z.of_nat k) by lia.
  by replace (Z.of_nat k + 1) with (Z.of_nat (S k)) by lia.
Qed.

(** The points of a kill and the score after it are exact while the
    score stays below 2^53. *)
Lemma json_lit n : 0 <= n < 2 ^ 53 -> JS.json (JS.lit n) = JS.lit n.
Proof.
  intros Hn. destruct n as [|p|p]; [done| |lia]. by rewrite lit_pos by lia.
Qed.

Lemma points_lit a k :
  0 <= a -> a * a * 10 * fibonacci k < 2 ^ 53 ->
  points a k = JS.lit (a * a * 10 * fibonacci k).
Proof.
  intros Ha Hp. pose proof (fibonacci_range k) as Hf. unfold points.
  assert (a * a <= a * a * 10 * fibonacci k) by nia.
  assert (a <= a * a) by nia.
  rewrite !mul_lit; try done; nia.
Qed.

Lemma scoreAfter_lit a n : forall k x,
  0 <= a -> 0 <= x -> x + comboScore a k n < 2 ^ 53 ->
  scoreAfter a k n (JS.lit x) = JS.lit (x + comboScore a k n).
Proof.
  induction n as [|n IH]; intros k x Ha Hx Hlt; cbn [scoreAfter comboScore] in *.
  - by rewrite Z.add_0_r.
  - pose proof (comboScore_nonneg a (k + 1) n) as Hc.
    pose proof (fibonacci_range k) as Hf.
    assert (0 <= a * a * 10 * fibonacci k) by nia.
    cbn [JS.to_number]. rewrite points_lit, add_lit by lia.
    rewrite IH by lia. do 2 f_equal. lia.
Qed.

(** C3, as the code has it: in one [simulateTurn], every zombie that
    was alive and stands, after its move, within [RICH_RANGE] (2000) of
    the avatar's new position is not alive in the result (the others
    stay alive).  With [K] zombies destroyed in the turn, the score is
    the copied score to which the points of the kills were added one
    after the other, by binary64 additions: the kill number [k + 1] adds
    the binary64 product
    [aliveHumans * aliveHumans * 10 * fibonacci k], where [aliveHumans]
    is the one count of the humans alive in the input state and
    [fibonacci k] reads the fixed table at [min k 14].  While the score
    is an integer and stays below 2^53 these operations are exact: the
    score grows by the sum, for [k] from 1 to [K], of
    [aliveHumans * aliveHumans * 10 * fibonacci (k - 1)]. *)
Theorem simulateTurn_destroys (s : GameState.t) (tx ty : JS.value) :
  let s' := simulateTurn s tx ty in
  let aliveHumans := countAlive Human.alive (GameState.humans s) in
  let K := countAlive Zombie.alive (GameState.zombies s)
           - countAlive Zombie.alive (GameState.zombies s') in
  (forall i z, GameState.zombies s !! i = Some z -> Zombie.alive z = true ->
     exists z', GameState.zombies s' !! i = Some z' /\
       Zombie.id z' = Zombie.id z /\
       Zombie.alive z' =
       negb (JS.le (distance (Point.x (GameState.rich s'))
                             (Point.y (GameState.rich s'))
                             (Zombie.x z') (Zombie.y z')) (JS.lit 2000))) /\
  0 <= K /\
  GameState.score s' =
  scoreAfter aliveHumans 0 (Z.to_nat K) (JS.json (GameState.score s)) /\
  (forall k n score,
     scoreAfter aliveHumans k 0 score = score /\
     scoreAfter aliveHumans k (S n) score =
     scoreAfter aliveHumans (k + 1) n
       (JS.Num (JS.add (JS.to_number score)
          (JS.mul (JS.mul (JS.mul (JS.lit aliveHumans) (JS.lit aliveHumans))
                          (JS.lit 10))
                  (JS.lit (fibonacci k)))))) /\
  (forall k, fibonacci (Z.of_nat k) =
     nth (Nat.min k 14)
       [1; 2; 3; 5; 8; 13; 21; 34; 55; 89; 144; 233; 377; 610; 987] 0) /\
  (forall n,
     GameState.score s = JS.lit n -> 0 <= n ->
     n + sumZ (killPoints aliveHumans <$> seq 1 (Z.to_nat K)) < 2 ^ 53 ->
     GameState.score s' =
     JS.lit (n + sumZ (killPoints aliveHumans <$> seq 1 (Z.to_nat K)))) /\
  (forall k, killPoints aliveHumans (S k) =
     aliveHumans * aliveHumans * 10 * fibonacci (Z.of_nat k)).
Proof.
  intros s' aliveHumans K.
  assert (HK : Z.to_nat K = zombiesKilled (richMoved s tx ty) (zombiesMoved s)).
  { subst K s'. rewrite simulateTurn_zombiesAlive. lia. }
  assert (Hscore : GameState.score s' =
    scoreAfter aliveHumans 0 (Z.to_nat K) (JS.json (GameState.score s))).
  { subst s' aliveHumans. rewrite simulateTurn_score, HK.
    by rewrite simulateTurn_humansAlive_before. }
  split; [|split; [|split; [|split; [|split; [|split]]]]].
  - intros i z Hz Ha. eexists. split; [by apply simulateTurn_zombie_at|].
    set (z1 := moveZombie _ _ _).
    set (r := GameState.rich (simulateTurn s tx ty)).
    set (hs := GameState.humans (simulateTurn s tx ty)).
    destruct (nextZombie_keeps hs r (destroyOne r z1)) as (-> & -> & -> & ->).
    destruct (destroyOne_keeps r z1) as (-> & -> & -> & ->).
    subst z1. rewrite moveZombie_alive. cbn [jsonZombie Zombie.alive].
    rewrite Ha. split; [|done].
    unfold moveZombie. by destruct (negb _).
  - subst K s'. rewrite simulateTurn_zombiesAlive. lia.
  - exact Hscore.
  - done.
  - intros k. unfold fibonacci. f_equal. cbn [length fibs]. lia.
  - intros n Hn H0 Hlt. rewrite Hscore, Hn.
    rewrite <- (comboScore_sum aliveHumans (Z.to_nat K) 0) in *.
    change (Z.of_nat 0) with 0 in *.
    pose proof (comboScore_nonneg aliveHumans 0 (Z.to_nat K)) as Hc.
    rewrite json_lit by lia.
    apply scoreAfter_lit; [subst aliveHumans; unfold countAlive; lia|done|done].
  - intros k. unfold killPoints. do 2 f_equal. lia.
Qed.

(** One human alive and one zombie destroyed: the score goes from 0 to
    [0 + 1 * 1 * 10 * 1]. *)
Lemma simulateTurn_destroys_witness :
  countAlive Human.alive (GameState.humans duel) = 1 /\
  (Zombie.alive <$> GameState.zombies (simulateTurn duel (JS.lit 0) (JS.lit 0)))
  = [false] /\
  GameState.score (simulateTurn duel (JS.lit 0) (JS.lit 0)) = JS.lit 10.
Proof.
  split; [reflexivity|]. split; [reflexivity|].
  change 10 with
    (0 + sumZ (killPoints (countAlive Human.alive (GameState.humans duel))
                 <$> seq 1 (Z.to_nat
                       (countAlive Zombie.alive (GameState.zombies duel)
                        - countAlive Zombie.alive
                            (GameState.zombies
                               (simulateTurn duel (JS.lit 0) (JS.lit 0))))))).
  apply (simulateTurn_destroys duel (JS.lit 0) (JS.lit 0)).
  - reflexivity.
  - lia.
  - vm_compute. reflexivity.
Defined.

(** C3 as stated fails above 2^53, where not every integer is a
    binary64 number: with one human alive and a score of 2^54, the one
    zombie destroyed adds 8 to the score, not [1 * 1 * 10 * 1 = 10]. *)
Lemma simulateTurn_destroys_rounds :
  let s := GameState.mk (Point.mk (JS.lit 0) (JS.lit 0))
             [human plain 0 0 8000 8000] [zombie 0 500 0]
             (JS.lit (2 ^ 54)) (JS.lit 0) false false (Message.Text "") in
  let s' := simulateTurn s (JS.lit 0) (JS.lit 0) in
  countAlive Human.alive (GameState.humans s) = 1 /\
  (Zombie.alive <$> GameState.zombies s') = [false] /\
  JS.integer (JS.to_number (GameState.score s)) = Some (2 ^ 54) /\
  JS.integer (JS.to_number (GameState.score s')) = Some (2 ^ 54 + 8) /\
  2 ^ 54 + 8 <> 2 ^ 54 + 1 * 1 * 10 * fibonacci 0.
Proof. vm_compute. repeat split; congruence. Qed.

(** The coincident scenario: the avatar and one zombie at (8000, 4500),
    two humans alive; the zombie is destroyed and the score grows by
    2 * 2 * 10 * 1. *)
Example simulateTurn_coincident :
  let s := initialState 8000 4500
             [human plain 0 0 0 0; human plain 1 1 16000 9000]
             [zombie 0 8000 4500] in
  let s' := simulateTurn s (JS.lit 8000) (JS.lit 4500) in
  (Zombie.alive <$> GameState.zombies s') = [false] /\
  GameState.score s' = JS.lit 40.
Proof. vm_compute. split; reflexivity. Qed.

(** ** No resurrection *)

(** C7: a human or a zombie that is not alive in the input state is not
    alive in the state returned by [simulateTurn]; entities keep their
    list position and their id. *)
Theorem simulateTurn_no_resurrection (s : GameState.t) (tx ty : JS.value) :
  let s' := simulateTurn s tx ty in
  (forall j h, GameState.humans s !! j = Some h -> Human.alive h = false ->
     exists h', GameState.humans s' !! j = Some h' /\
       Human.id h' = Human.id h /\ Human.alive h' = false) /\
  (forall i z, GameState.zombies s !! i = Some z -> Zombie.alive z = false ->
     exists z', GameState.zombies s' !! i = Some z' /\
       Zombie.id z' = Zombie.id z /\ Zombie.alive z' = false).
Proof.
  intros s'. split.
  - intros j h Hh Ha. eexists. split; [by apply simulateTurn_human_at|].
    cbn. by rewrite Ha.
  - intros i z Hz Ha. eexists. split; [by apply simulateTurn_zombie_at|].
    rewrite moveZombie_dead by done.
    rewrite destroyOne_dead by done.
    rewrite nextZombie_dead by done. done.
Qed.

(** ** Dead zombies are left alone *)

Lemma json_stable_id v : JS.json_stable v = true -> JS.json v = v.
Proof. destruct v as [[[]| | |]|]; cbn; done. Qed.

Lemma jsonZombie_stable z : zombieJsonStable z = true -> jsonZombie z = z.
Proof.
  unfold zombieJsonStable. rewrite !andb_true_iff. intros [[[Hx Hy] Hxn] Hyn].
  destruct z. unfold jsonZombie. cbn in *.
  by rewrite !json_stable_id.
Qed.

Lemma fmap_filter_alive (f : Zombie.t -> Zombie.t) (l : list Zombie.t) :
  (forall z, Zombie.alive (f z) = Zombie.alive z) ->
  f <$> filter (fun z => Zombie.alive z = true) l =
  filter (fun z => Zombie.alive z = true) (f <$> l).
Proof.
  intros Hf. induction l as [|z l IH]; [done|].
  cbn [fmap list_fmap]. fold (fmap f l). rewrite !filter_cons, Hf.
  destruct (decide (Zombie.alive z = true)); [|done].
  cbn [fmap list_fmap]. by f_equal.
Qed.

Lemma zombiesKilled_living r (l : list Zombie.t) :
  zombiesKilled r (filter (fun z => Zombie.alive z = true) l) = zombiesKilled r l.
Proof.
  unfold zombiesKilled. induction l as [|z l IH]; [done|].
  rewrite !filter_cons. unfold destroyedNow in *.
  destruct (Zombie.alive z) eqn:Ha.
  - rewrite decide_True by done. rewrite filter_cons, Ha. cbn [andb].
    destruct (decide (destroyed r z = true)); cbn [length]; by rewrite IH.
  - rewrite decide_False by done. cbn [andb]. by rewrite decide_False by done.
Qed.

Lemma eatenBy_living r (l : list Zombie.t) h :
  eatenBy (destroyOne r <$> filter (fun z => Zombie.alive z = true) l) h =
  eatenBy (destroyOne r <$> l) h.
Proof.
  unfold eatenBy. induction l as [|z l IH]; [done|].
  rewrite filter_cons. cbn [fmap list_fmap existsb].
  destruct (Zombie.alive z) eqn:Ha.
  - rewrite decide_True by done. cbn [fmap list_fmap existsb]. by rewrite IH.
  - rewrite decide_False by done. rewrite destroyOne_dead by done.
    rewrite Ha. cbn [andb orb]. exact IH.
Qed.

(** The humans and the score after a turn do not depend on the dead
    zombies of the input. *)
Lemma simulateTurn_without_dead s tx ty :
  GameState.humans (simulateTurn (livingZombies s) tx ty) =
  GameState.humans (simulateTurn s tx ty) /\
  GameState.score (simulateTurn (livingZombies s) tx ty) =
  GameState.score (simulateTurn s tx ty).
Proof.
  assert (Hm : zombiesMoved (livingZombies s) =
               filter (fun z => Zombie.alive z = true) (zombiesMoved s)).
  { unfold zombiesMoved, livingZombies.
    cbn [jsonCopy withZombies GameState.humans GameState.rich GameState.zombies].
    rewrite <- !list_fmap_compose. apply fmap_filter_alive.
    intros z. unfold compose. by rewrite moveZombie_alive. }
  assert (Hr : richMoved (livingZombies s) tx ty = richMoved s tx ty) by done.
  split.
  - rewrite !simulateTurn_humans, Hm, Hr.
    cbn [livingZombies withZombies GameState.humans].
    apply list_fmap_ext. intros _ h _. unfold afterMeal.
    by rewrite eatenBy_living.
  - rewrite !simulateTurn_score, Hm, Hr.
    by rewrite zombiesKilled_living.
Qed.

(** C9, as the code has it: a zombie that is not alive in the input
    state comes out of [simulateTurn] as the JSON copy of itself: when
    its coordinates are JSON numbers (finite and not [-0], or null)
    every field ([id], [x], [y], [xNext], [yNext], [alive]) is
    unchanged.  The humans and the score of the result are those of the
    turn played without the dead zombies. *)
Theorem simulateTurn_dead_zombie_unchanged
    (s : GameState.t) (tx ty : JS.value) (i : nat) (z : Zombie.t) :
  GameState.zombies s !! i = Some z ->
  Zombie.alive z = false ->
  GameState.zombies (simulateTurn s tx ty) !! i = Some (jsonZombie z) /\
  (zombieJsonStable z = true ->
   GameState.zombies (simulateTurn s tx ty) !! i = Some z) /\
  GameState.humans (simulateTurn s tx ty) =
  GameState.humans (simulateTurn (livingZombies s) tx ty) /\
  GameState.score (simulateTurn s tx ty) =
  GameState.score (simulateTurn (livingZombies s) tx ty).
Proof.
  intros Hz Ha.
  assert (H : GameState.zombies (simulateTurn s tx ty) !! i = Some (jsonZombie z)).
  { rewrite (simulateTurn_zombie_at s tx ty i z Hz).
    rewrite moveZombie_dead by done.
    rewrite destroyOne_dead by done.
    by rewrite nextZombie_dead. }
  split; [done|]. split.
  - intros Hj. by rewrite H, jsonZombie_stable.
  - destruct (simulateTurn_without_dead s tx ty) as [-> ->]. done.
Qed.

(** C9 as stated fails for a dead zombie whose coordinates are not JSON
    numbers: the copy writes [-0] as [0], and NaN and the infinities as
    [null]. *)
Lemma simulateTurn_dead_zombie_copied :
  let z := Zombie.mk 7 (JS.Num (S754_zero true)) (JS.lit 5)
             (JS.Num S754_nan) (JS.Num (S754_infinity false)) false in
  let s := initialState 0 0 [human plain 0 0 8000 8000] [z] in
  Zombie.alive z = false /\
  GameState.zombies (simulateTurn s (JS.lit 0) (JS.lit 0)) =
  [Zombie.mk 7 (JS.lit 0) (JS.lit 5) JS.Null JS.Null false] /\
  GameState.zombies (simulateTurn s (JS.lit 0) (JS.lit 0)) <> [z].
Proof. vm_compute. repeat split; congruence. Qed.

(** ** The meal *)

Lemma eatenBy_intro zs i z h :
  zs !! i = Some z -> Zombie.alive z = true -> eaten z h = true ->
  eatenBy zs h = true.
Proof.
  intros Hz Ha He. unfold eatenBy. apply existsb_exists.
  exists z. split; [|by rewrite Ha, He].
  apply list_elem_of_In, list_elem_of_lookup. eauto.
Qed.

(** In the state returned by [simulateTurn] no human that is alive is
    within reach of a zombie that is alive. *)
Lemma simulateTurn_eats (s : GameState.t) (tx ty : JS.value) i j z' h' :
  let s' := simulateTurn s tx ty in
  GameState.zombies s' !! i = Some z' ->
  GameState.humans s' !! j = Some h' ->
  Zombie.alive z' = true ->
  eaten z' h' = true ->
  Human.alive h' = false.
Proof.
  intros s' Hz Hh Ha He.
  destruct (simulateTurn_zombie_alive s tx ty i z' Hz) as (z3 & Hz3 & Ha3 & Hx & Hy).
  subst s'. rewrite simulateTurn_humans, list_lookup_fmap in Hh.
  destruct (_ !! j) as [h|] eqn:Hj; [|done]. injection Hh as <-.
  cbn [afterMeal Human.alive].
  rewrite (eatenBy_intro _ i z3 h); [by rewrite andb_false_r|done|congruence|].
  rewrite (eaten_ext z' z3) by done. exact He.
Qed.

(** C10: the 400 unit radius of the meal is inclusive.  In the state
    returned by [simulateTurn], a human whose distance to an alive
    zombie (at the position the zombie moved to) is exactly 400 is not
    alive. *)
Theorem simulateTurn_eats_at_400
    (s : GameState.t) (tx ty : JS.value) (i j : nat)
    (z' : Zombie.t) (h' : Human.t) :
  let s' := simulateTurn s tx ty in
  GameState.zombies s' !! i = Some z' ->
  GameState.humans s' !! j = Some h' ->
  Zombie.alive z' = true ->
  distance (Zombie.x z') (Zombie.y z') (Human.x h') (Human.y h') = JS.lit 400 ->
  Human.alive h' = false.
Proof.
  intros s' Hz Hh Ha Hd.
  apply (simulateTurn_eats s tx ty i j z' h'); try done.
  unfold eaten. rewrite Hd. reflexivity.
Qed.

(** ** The nearest target *)

Lemma closestFrom_spec zombie humans closest m :
  (forall j h, humans !! j = Some h -> Human.alive h = true ->
     JS.is_nan (distanceToHuman zombie h) = false) ->
  (nobodyCloser zombie humans m /\ closestFrom zombie humans closest m = closest)
  \/ (exists i h, picked zombie humans m i h /\
        closestFrom zombie humans closest m = Point.mk (Human.x h) (Human.y h)).
Proof.
  revert closest m. induction humans as [|h0 rest IH]; intros closest m Hnan.
  { left. split; [|done]. intros j h Hj. by rewrite lookup_nil in Hj. }
  assert (Hrest : forall j h, rest !! j = Some h -> Human.alive h = true ->
            JS.is_nan (distanceToHuman zombie h) = false)
    by (intros j h Hj; apply (Hnan (S j) h Hj)).
  cbn [closestFrom]. fold (distanceToHuman zombie h0).
  destruct (Human.alive h0) eqn:Ha0; cbn [negb].
  - destruct (JS.lt (distanceToHuman zombie h0) m) eqn:Hlt.
    + right.
      destruct (IH (Point.mk (Human.x h0) (Human.y h0))
                  (distanceToHuman zombie h0) Hrest)
        as [[Hno ->]|(i & h & (Hi & Ha & Hl & Hbefore & Hafter) & ->)].
      * exists 0%nat, h0. split; [|done]. repeat split; try done.
        -- intros j h' Hj. lia.
        -- intros [|j] h' Hj Hh' Ha'; [lia|]. by apply (Hno j h').
      * exists (S i), h. split; [|done]. repeat split; try done.
        -- eapply lt_trans; eassumption.
        -- intros [|j] h' Hj Hh' Ha'.
           ++ cbn in Hh'. by simplify_eq.
           ++ apply (Hbefore j h'); [lia|done..].
        -- intros [|j] h' Hj Hh' Ha'; [lia|].
           apply (Hafter j h'); [lia|done..].
    + destruct (IH closest m Hrest)
        as [[Hno ->]|(i & h & (Hi & Ha & Hl & Hbefore & Hafter) & ->)].
      * left. split; [|done]. intros [|j] h Hh Ha.
        -- cbn in Hh. by simplify_eq.
        -- by apply (Hno j h).
      * right. exists (S i), h. split; [|done]. repeat split; try done.
        -- intros [|j] h' Hj Hh' Ha'.
           ++ cbn in Hh'. simplify_eq.
              eapply lt_not_lt_trans; [exact Hl|exact Hlt|].
              by apply (Hnan 0%nat h').
           ++ apply (Hbefore j h'); [lia|done..].
        -- intros [|j] h' Hj Hh' Ha'; [lia|].
           apply (Hafter j h'); [lia|done..].
  - destruct (IH closest m Hrest)
      as [[Hno ->]|(i & h & (Hi & Ha & Hl & Hbefore & Hafter) & ->)].
    + left. split; [|done]. intros [|j] h Hh Ha.
      * cbn in Hh. simplify_eq. congruence.
      * by apply (Hno j h).
    + right. exists (S i), h. split; [|done]. repeat split; try done.
      * intros [|j] h' Hj Hh' Ha'.
        -- cbn in Hh'. simplify_eq. congruence.
        -- apply (Hbefore j h'); [lia|done..].
      * intros [|j] h' Hj Hh' Ha'; [lia|].
        apply (Hafter j h'); [lia|done..].
Qed.

Lemma closestFrom_all_nan zombie humans closest m :
  (forall j h, humans !! j = Some h -> Human.alive h = true ->
     distanceToHuman zombie h = S754_nan) ->
  closestFrom zombie humans closest m = closest.
Proof.
  revert closest m. induction humans as [|h0 rest IH]; intros closest m Hnan;
    [done|].
  assert (Hrest : forall j h, rest !! j = Some h -> Human.alive h = true ->
            distanceToHuman zombie h = S754_nan)
    by (intros j h Hj; apply (Hnan (S j) h Hj)).
  cbn [closestFrom]. fold (distanceToHuman zombie h0).
  destruct (Human.alive h0) eqn:Ha0; cbn [negb]; [|by apply IH].
  rewrite (Hnan 0%nat h0 eq_refl Ha0). cbn. by apply IH.
Qed.

(** C4: for alive humans with finite coordinates, whatever the zombie
    and the avatar, [findClosestHuman] returns the avatar's position
    when no alive human is strictly closer to the zombie than the avatar
    (so also for an empty list or with nobody alive); otherwise it
    returns the position of an alive human that is strictly closer than
    the avatar, strictly closer than every alive human earlier in the
    list, and at least as close as every alive human later in the
    list. *)
Theorem findClosestHuman_nearest
    (zombie : Zombie.t) (humans : list Human.t) (rich : Point.t) :
  finiteHumans humans ->
  let toRich := distanceToPoint zombie rich in
  (nobodyCloser zombie humans toRich ->
   findClosestHuman zombie humans rich = Point.mk (Point.x rich) (Point.y rich))
  /\
  (~ nobodyCloser zombie humans toRich ->
   exists i h, picked zombie humans toRich i h /\
     findClosestHuman zombie humans rich = Point.mk (Human.x h) (Human.y h)).
Proof.
  intros Hh toRich.
  unfold findClosestHuman. fold (distanceToPoint zombie rich). fold toRich.
  destruct (JS.is_nan (JS.to_number (Zombie.x zombie))
            || JS.is_nan (JS.to_number (Zombie.y zombie))) eqn:Hz.
  - assert (Hnan : forall j h, humans !! j = Some h -> Human.alive h = true ->
              distanceToHuman zombie h = S754_nan)
      by (intros j h _ _; by apply distance_from_nan).
    split; [intros _; by apply closestFrom_all_nan|].
    intros Hsome. destruct Hsome. intros j h Hj Ha.
    by rewrite (Hnan j h Hj Ha).
  - apply orb_false_elim in Hz as [Hzx Hzy].
    assert (Hnan : forall j h, humans !! j = Some h -> Human.alive h = true ->
              JS.is_nan (distanceToHuman zombie h) = false).
    { intros j h Hj Ha. destruct (Hh j h Hj Ha).
      by apply distance_not_nan. }
    destruct (closestFrom_spec zombie humans
                (Point.mk (Point.x rich) (Point.y rich)) toRich Hnan)
      as [[Hno Hr]|(i & h & Hp & Hr)].
    + split; [done|]. intros Hsome. by destruct Hsome.
    + split; [|by eauto].
      intros Hno. destruct Hp as (Hi & Ha & Hl & _).
      rewrite (Hno i h Hi Ha) in Hl. discriminate.
Qed.

Lemma findClosestHuman_nearest_witness :
  findClosestHuman (zombie 0 0 0) [] (Point.mk (JS.lit 4000) (JS.lit 0))
  = Point.mk (JS.lit 4000) (JS.lit 0) /\
  exists i h,
    picked (zombie 0 0 0) crowd
      (distanceToPoint (zombie 0 0 0) (Point.mk (JS.lit 4000) (JS.lit 0))) i h /\
    findClosestHuman (zombie 0 0 0) crowd (Point.mk (JS.lit 4000) (JS.lit 0))
    = Point.mk (Human.x h) (Human.y h).
Proof.
  split.
  - apply (findClosestHuman_nearest (zombie 0 0 0) []
             (Point.mk (JS.lit 4000) (JS.lit 0))).
    + intros j h Hj. by rewrite lookup_nil in Hj.
    + intros j h Hj. by rewrite lookup_nil in Hj.
  - apply (findClosestHuman_nearest (zombie 0 0 0) crowd
             (Point.mk (JS.lit 4000) (JS.lit 0))).
    + intros [|[|[|[|j]]]] h Hj Ha; cbn in Hj; simplify_eq;
        try discriminate; split; reflexivity.
    + intros Hno. specialize (Hno 1%nat _ eq_refl eq_refl).
      vm_compute in Hno. discriminate.
Defined.

(** The first of two humans at the same distance is the one picked. *)
Example findClosestHuman_tie :
  findClosestHuman (zombie 0 0 0) crowd (Point.mk (JS.lit 4000) (JS.lit 0))
  = Point.mk (JS.lit 3000) (JS.lit 0).
Proof. vm_compute. reflexivity. Qed.

Lemma simulateTurn_no_resurrection_witness :
  (exists h', GameState.humans (simulateTurn graveyard (JS.lit 0) (JS.lit 0)) !! 0%nat
              = Some h' /\ Human.id h' = 0 /\ Human.alive h' = false) /\
  (exists z', GameState.zombies (simulateTurn graveyard (JS.lit 0) (JS.lit 0)) !! 0%nat
              = Some z' /\ Zombie.id z' = 0 /\ Zombie.alive z' = false).
Proof.
  split.
  - apply (proj1 (simulateTurn_no_resurrection graveyard (JS.lit 0) (JS.lit 0))
             0%nat (Human.mk 0 (JS.lit 100) (JS.lit 100) false "")); reflexivity.
  - apply (proj2 (simulateTurn_no_resurrection graveyard (JS.lit 0) (JS.lit 0))
             0%nat
             (Zombie.mk 0 (JS.lit 100) (JS.lit 200) (JS.lit 100) (JS.lit 100) false));
      reflexivity.
Defined.

Lemma simulateTurn_dead_zombie_unchanged_witness :
  GameState.zombies (simulateTurn graveyard (JS.lit 0) (JS.lit 0)) !! 0%nat
  = Some (Zombie.mk 0 (JS.lit 100) (JS.lit 200) (JS.lit 100) (JS.lit 100) false)
  /\
  GameState.humans (simulateTurn graveyard (JS.lit 0) (JS.lit 0)) =
  GameState.humans (simulateTurn (livingZombies graveyard) (JS.lit 0) (JS.lit 0)).
Proof.
  destruct (simulateTurn_dead_zombie_unchanged graveyard (JS.lit 0) (JS.lit 0)
              0%nat
              (Zombie.mk 0 (JS.lit 100) (JS.lit 200) (JS.lit 100) (JS.lit 100) false)
              eq_refl eq_refl) as (_ & Hsame & Hhumans & _).
  split; [apply Hsame; reflexivity|exact Hhumans].
Defined.

Lemma simulateTurn_eats_at_400_witness :
  exists h', GameState.humans (simulateTurn ambush (JS.lit 10000) (JS.lit 0)) !! 0%nat
             = Some h' /\ Human.alive h' = false.
Proof.
  eexists. split; [vm_compute; reflexivity|].
  eapply (simulateTurn_eats_at_400 ambush (JS.lit 10000) (JS.lit 0) 0%nat 0%nat).
  - vm_compute. reflexivity.
  - vm_compute. reflexivity.
  - reflexivity.
  - vm_compute. reflexivity.
Defined.

(** ** Moving towards a target *)

(** C2 as stated fails: from (1000, 1000) towards (0, 0) with a step of
    400 the result is (717, 717), which is 283 * sqrt 2 > 400 away from
    the source. *)
Lemma moveTowards_farther_than_step :
  let p := moveTowards (JS.lit 1000) (JS.lit 1000) (JS.lit 0) (JS.lit 0)
             (JS.lit 400) in
  p = Point.mk (JS.lit 717) (JS.lit 717) /\
  JS.le (distance (JS.lit 1000) (JS.lit 1000) (Point.x p) (Point.y p))
        (JS.lit 400) = false /\
  JS.lt (JS.lit 400)
        (distance (JS.lit 1000) (JS.lit 1000) (Point.x p) (Point.y p)) = true /\
  (400 * 400 < (1000 - 717) * (1000 - 717) + (1000 - 717) * (1000 - 717))%Z.
Proof. vm_compute. repeat split; reflexivity. Qed.

(** With a target that is not on the integer grid the rounding down can
    also pass the target: from (0, 0) towards (-0.5, -1000) the result
    has [x = -1]. *)
Lemma moveTowards_past_target :
  let p := moveTowards (JS.lit 0) (JS.lit 0) minusHalf (JS.lit (-1000))
             (JS.lit 400) in
  Point.x p = JS.Num (JS.lit (-1)) /\
  JS.lt (JS.lit (-1)) minusHalf = true.
Proof. vm_compute. split; reflexivity. Qed.

(** C2, as the code has it: when the distance from the source to the
    target is at most [speed], [moveTowards] returns the target itself,
    which is then within [speed] of the source; otherwise it returns the
    point [from + (to - from) * (speed / dist)] of the straight line from
    the source to the target, each coordinate rounded down by
    [Math.floor]. *)
Theorem moveTowards_cases (fromX fromY toX toY : JS.value) (speed : JS.number) :
  let dist := distance fromX fromY toX toY in
  let p := moveTowards fromX fromY toX toY speed in
  (JS.le dist speed = true ->
     p = Point.mk toX toY /\
     JS.le (distance fromX fromY (Point.x p) (Point.y p)) speed = true) /\
  (JS.le dist speed = false ->
     let ratio := JS.div speed dist in
     p = Point.mk
           (JS.floor (JS.add (JS.to_number fromX)
              (JS.mul (JS.sub (JS.to_number toX) (JS.to_number fromX)) ratio)))
           (JS.floor (JS.add (JS.to_number fromY)
              (JS.mul (JS.sub (JS.to_number toY) (JS.to_number fromY)) ratio)))).
Proof.
  intros dist p. subst p. unfold moveTowards. fold dist. split.
  - intros H. rewrite H. by split.
  - intros H. by rewrite H.
Qed.

Lemma moveTowards_cases_witness :
  moveTowards (JS.lit 0) (JS.lit 0) (JS.lit 300) (JS.lit 400) (JS.lit 1000)
  = Point.mk (JS.lit 300) (JS.lit 400) /\
  moveTowards (JS.lit 1000) (JS.lit 1000) (JS.lit 0) (JS.lit 0) (JS.lit 400)
  = Point.mk (JS.lit 717) (JS.lit 717).
Proof.
  split.
  - apply (proj1 (moveTowards_cases (JS.lit 0) (JS.lit 0) (JS.lit 300) (JS.lit 400)
                    (JS.lit 1000))).
    vm_compute. reflexivity.
  - rewrite (proj2 (moveTowards_cases (JS.lit 1000) (JS.lit 1000) (JS.lit 0)
                      (JS.lit 0) (JS.lit 400))).
    + vm_compute. reflexivity.
    + vm_compute. reflexivity.
Defined.

(** ** The batch evaluator *)

Lemma simulateTurn_won_only_when_over s x y :
  (GameState.gameOver s = false -> GameState.won s = false) ->
  GameState.gameOver (simulateTurn s x y) = false ->
  GameState.won (simulateTurn s x y) = false.
Proof.
  intros Hs. pose proof (simulateTurn_outcome s x y) as H. cbn zeta in H.
  destruct (_ && _); [injection H as -> _ _; done|].
  destruct (_ =? 0); [injection H as -> _ _; done|].
  injection H as -> -> _. exact Hs.
Qed.

Lemma running_step algorithm s s1 x y n :
  GameState.gameOver s = false -> algorithm s = (s1, Some (x, y)) ->
  running algorithm (simulateTurn s1 x y) n -> running algorithm s (S n).
Proof.
  intros Hg Ha Hr [|k] Hk.
  - exists s. by split.
  - cbn [ticks]. rewrite Ha. apply Hr. lia.
Qed.

(** The loop with an algorithm that only reads the state, from a state
    with [m] turns left below the cap. *)
Lemma testLoop_spec m : forall algorithm s fuel t,
  readOnly algorithm ->
  (GameState.gameOver s = false -> GameState.won s = false) ->
  GameState.turn s = JS.lit t -> 0 <= t <= maxTurns ->
  Z.to_nat (maxTurns - t) = m ->
  (m < fuel)%nat ->
  exists b, testLoop fuel algorithm s = Some b /\
    ((exists n sn, (n <= m)%nat /\ endsAt algorithm s n sn /\ b = GameState.won sn)
     \/ (exists n, (n < m)%nat /\ throwsAt algorithm s n /\ b = false)
     \/ (running algorithm s (S m) /\ b = false)).
Proof.
  unfold maxTurns.
  induction m as [|m IH]; intros algorithm s fuel t Hro Hinv Ht Ht200 Hm Hfuel;
    (destruct fuel as [|fuel]; [lia|]); cbn [testLoop];
    rewrite Ht; cbn [JS.to_number]; unfold maxTurns;
    rewrite lt_lit by lia;
    destruct (GameState.gameOver s) eqn:Hg; cbn [negb andb].
  - eexists. split; [done|]. left. exists 0%nat, s. repeat split; try done.
    intros k Hk; lia.
  - replace (_ <? _) with false by (symmetry; apply Z.ltb_ge; lia).
    eexists. split; [done|]. right. right. split; [|by apply Hinv].
    intros k Hk. exists s. replace k with 0%nat by lia. by split.
  - eexists. split; [done|]. left. exists 0%nat, s. repeat split; try done.
    + lia.
    + intros k Hk; lia.
  - replace (_ <? _) with true by (symmetry; apply Z.ltb_lt; lia).
    pose proof (Hro s) as Hs1.
    destruct (algorithm s) as [s1 [[x y]|]] eqn:Ha; cbn [fst] in Hs1; subst s1.
    + destruct (IH algorithm (simulateTurn s x y) fuel (t + 1))
        as (b & Hb & Hcases).
      * done.
      * apply simulateTurn_won_only_when_over. intros _. by apply Hinv.
      * rewrite simulateTurn_turn, Ht, json_lit by lia.
        cbn [JS.to_number]. by rewrite add_lit by lia.
      * lia.
      * lia.
      * lia.
      * exists b. split; [done|].
        destruct Hcases as [(n & sn & Hn & (Hr & Hticks & Hgo) & ->)
                           |[(n & Hn & (Hr & sn & Hticks & Hthrow) & ->)
                            |(Hr & ->)]].
        -- left. exists (S n), sn. repeat split; try done; [lia| |].
           ++ by eapply running_step.
           ++ cbn [ticks]. by rewrite Ha.
        -- right. left. exists (S n). repeat split; try done; [lia| |].
           ++ by eapply running_step.
           ++ exists sn. cbn [ticks]. by rewrite Ha.
        -- right. right. split; [|done]. by eapply running_step.
    + eexists. split; [done|]. right. left. exists 0%nat.
      repeat split; try done; [lia| |].
      * intros k Hk. exists s. replace k with 0%nat by lia. by split.
      * exists s. split; [done|]. by rewrite Ha.
Qed.

(** C8, as the code has it: on a fresh scenario and for every strategy
    that only reads the state it is given (and returns or throws when
    it is called), [runTestCase] returns (201 iterations of its loop
    are enough), after applying the strategy and [simulateTurn] again
    and again from the copy of the scenario until a state is terminal,
    whose [won] flag it reports, or until 200 turns are done; when 200
    turns are done and no state was terminal the result is [false].
    (It is also [false] when the strategy throws.) *)
Theorem runTestCase_cap (algorithm : strategy) (initialState : GameState.t)
    (fuel : nat) :
  readOnly algorithm ->
  freshScenario initialState ->
  (200 < fuel)%nat ->
  let state := jsonCopy initialState in
  exists b, runTestCase fuel (Some algorithm) initialState = Some b /\
    ((exists n sn, (n <= 200)%nat /\ endsAt algorithm state n sn /\
                   b = GameState.won sn)
     \/ (exists n, (n < 200)%nat /\ throwsAt algorithm state n /\ b = false)
     \/ (running algorithm state 201 /\ b = false))
    /\ (running algorithm state 201 -> b = false).
Proof.
  intros Hro (Ht & Hg & Hw) Hfuel state.
  destruct (testLoop_spec 200 algorithm state fuel 0) as (b & Hb & Hcases);
    [done|done|by cbn; rewrite Ht|done|done|done|].
  exists b. split; [done|]. split; [done|].
  intros Hrun.
  destruct Hcases as [(n & sn & Hn & (_ & Hticks & Hgo) & ->)|[(_ & _ & _ & ->)|(_ & ->)]];
    try done.
  destruct (Hrun n) as (sn' & Hs' & Hg'); [lia|]. congruence.
Qed.

Lemma runTestCase_cap_witness :
  exists b, runTestCase 201 (Some nowhere) standoff = Some b /\
    ((exists n sn, (n <= 200)%nat /\ endsAt nowhere (jsonCopy standoff) n sn /\
                   b = GameState.won sn)
     \/ (exists n, (n < 200)%nat /\ throwsAt nowhere (jsonCopy standoff) n /\
                   b = false)
     \/ (running nowhere (jsonCopy standoff) 201 /\ b = false))
    /\ (running nowhere (jsonCopy standoff) 201 -> b = false).
Proof.
  apply (runTestCase_cap nowhere standoff 201).
  - by intros s.
  - repeat split; reflexivity.
  - lia.
Defined.

Lemma allRunning_running algorithm n : forall state,
  allRunning algorithm n state = true -> running algorithm state n.
Proof.
  induction n as [|n IH]; intros state H k Hk; [lia|].
  cbn [allRunning] in H. apply andb_true_iff in H as [Hg H].
  apply negb_true_iff in Hg.
  destruct k as [|k]; [by exists state|].
  destruct n as [|n]; [lia|].
  cbn [ticks]. destruct (algorithm state) as [s1 [[x y]|]]; [|done].
  apply (IH _ H). lia.
Qed.

Lemma testLoop_step fuel algorithm s s1 x y :
  GameState.gameOver s = false ->
  JS.lt (JS.to_number (GameState.turn s)) (JS.lit maxTurns) = true ->
  algorithm s = (s1, Some (x, y)) ->
  testLoop (S fuel) algorithm s = testLoop fuel algorithm (simulateTurn s1 x y).
Proof. intros Hg Ht Ha. cbn [testLoop]. by rewrite Hg, Ht, Ha. Qed.

Lemma testLoop_stalled fuel : testLoop fuel rewind stalled = None.
Proof.
  induction fuel as [|fuel IH]; [done|].
  rewrite (testLoop_step fuel rewind stalled _ _ _ eq_refl eq_refl eq_refl).
  replace (simulateTurn _ _ _) with stalled by (vm_compute; reflexivity).
  exact IH.
Qed.

(** C8 as stated fails for a strategy that assigns to the state it is
    given.  One that sets [won] makes the evaluator report a win when
    the cap is reached with no state terminal; one that sets [turn]
    back keeps the loop below the cap for ever. *)
Lemma runTestCase_cap_needs_readOnly :
  runTestCase 201 (Some claimVictory) standoff = Some true /\
  running claimVictory (jsonCopy standoff) 201 /\
  forall fuel, runTestCase fuel (Some rewind) standoff = None.
Proof.
  split; [by vm_compute|]. split.
  - apply allRunning_running. by vm_compute.
  - intros fuel. unfold runTestCase.
    destruct fuel as [|[|fuel]]; [done|done|].
    rewrite (testLoop_step _ rewind (jsonCopy standoff) _ _ _
               eq_refl eq_refl eq_refl).
    set (s1 := simulateTurn _ _ _).
    assert (H1 : GameState.gameOver s1 = false) by (by vm_compute).
    assert (H2 : JS.lt (JS.to_number (GameState.turn s1)) (JS.lit maxTurns)
                 = true) by (by vm_compute).
    rewrite (testLoop_step _ rewind s1 _ _ _ H1 H2 eq_refl).
    replace (simulateTurn _ _ _) with stalled by (vm_compute; reflexivity).
    apply testLoop_stalled.
Qed.

(** Runs of the evaluator: a level won, a level lost, and a run that is
    stopped by the cap with the game still going on. *)
Example runTestCase_level1 :
  runTestCase 201 (Some toFirstHuman) (level1 plain) = Some true.
Proof. vm_compute. reflexivity. Qed.

Example runTestCase_level2 :
  runTestCase 201 (Some toFirstHuman) (level2 plain) = Some false.
Proof. vm_compute. reflexivity. Qed.

Example runTestCase_capped :
  runTestCase 201 (Some nowhere) standoff = Some false /\
  (GameState.gameOver <$> ticks nowhere 200 (jsonCopy standoff)) = Some false /\
  (GameState.turn <$> ticks nowhere 200 (jsonCopy standoff))
  = Some (JS.Num (JS.lit 200)).
Proof. vm_compute. repeat split; reflexivity. Qed.

(** ** The simulator on objects: what it does to the memory *)

Section Memory.
Variable h : Heap.t.

Local Abbreviation np := (length (Heap.points h)).
Local Abbreviation nh := (length (Heap.humanObjects h)).
Local Abbreviation nz := (length (Heap.zombieObjects h)).
Local Abbreviation na := (length (Heap.arrays h)).
Local Abbreviation ns := (length (Heap.states h)).

Lemma lookup_fresh {A} (old new : list A) i :
  (old ++ new) !! (length old + i)%nat = new !! i.
Proof. rewrite lookup_app_r by lia. f_equal. lia. Qed.

Lemma insert_fresh {A} (old new : list A) i a :
  <[(length old + i)%nat := a]> (old ++ new) = old ++ <[i := a]> new.
Proof. rewrite insert_app_r_alt by lia. do 2 f_equal. lia. Qed.

Lemma lookup_fresh0 {A} (old new : list A) :
  (old ++ new) !! length old = new !! 0%nat.
Proof. rewrite <- (Nat.add_0_r (length old)) at 1. apply lookup_fresh. Qed.

Lemma insert_fresh0 {A} (old new : list A) a :
  <[length old := a]> (old ++ new) = old ++ <[0%nat := a]> new.
Proof. rewrite <- (Nat.add_0_r (length old)) at 1. apply insert_fresh. Qed.

Lemma getState_allocate s :
  getState ns (allocate s h) = Some (objectOf h s, allocate s h).
Proof.
  unfold getState, read. cbn [allocate Heap.states].
  by rewrite lookup_fresh0.
Qed.

Lemma setState_allocate s s' o :
  GameState.rich s' = GameState.rich s ->
  GameState.humans s' = GameState.humans s ->
  GameState.zombies s' = GameState.zombies s ->
  o = objectOf h s' ->
  setState ns o (allocate s h) = Some (tt, allocate s' h).
Proof.
  intros Hr Hh Hz ->. unfold setState, write. cbn [allocate Heap.states].
  rewrite lookup_fresh0, insert_fresh0.
  cbn. unfold Heap.withStates, allocate. cbn. by rewrite Hr, Hh, Hz.
Qed.

Lemma getPoint_allocate s :
  getPoint np (allocate s h) = Some (GameState.rich s, allocate s h).
Proof.
  unfold getPoint, read. cbn [allocate Heap.points].
  by rewrite lookup_fresh0.
Qed.

Lemma setPoint_allocate s p :
  setPoint np p (allocate s h) = Some (tt, allocate (withRich s p) h).
Proof.
  unfold setPoint, write. cbn [allocate Heap.points].
  by rewrite lookup_fresh0, insert_fresh0.
Qed.

Lemma getZombie_allocate s (i : nat) z :
  GameState.zombies s !! i = Some z ->
  getZombie (nz + i)%nat (allocate s h) = Some (z, allocate s h).
Proof.
  intros Hz. unfold getZombie, read. cbn [allocate Heap.zombieObjects].
  by rewrite lookup_fresh, Hz.
Qed.

Lemma setZombie_allocate s (i : nat) z z' :
  GameState.zombies s !! i = Some z ->
  setZombie (nz + i)%nat z' (allocate s h) =
  Some (tt, allocate (withZombies s (<[i := z']> (GameState.zombies s))) h).
Proof.
  intros Hz. unfold setZombie, write. cbn [allocate Heap.zombieObjects].
  rewrite lookup_fresh, Hz, insert_fresh.
  unfold Heap.withZombieObjects, allocate. cbn. by rewrite length_insert.
Qed.

Lemma getHuman_allocate s (j : nat) x :
  GameState.humans s !! j = Some x ->
  getHuman (nh + j)%nat (allocate s h) = Some (x, allocate s h).
Proof.
  intros Hx. unfold getHuman, read. cbn [allocate Heap.humanObjects].
  by rewrite lookup_fresh, Hx.
Qed.

Lemma setHuman_allocate s (j : nat) x x' :
  GameState.humans s !! j = Some x ->
  setHuman (nh + j)%nat x' (allocate s h) =
  Some (tt, allocate (withHumans s (<[j := x']> (GameState.humans s))) h).
Proof.
  intros Hx. unfold setHuman, write. cbn [allocate Heap.humanObjects].
  rewrite lookup_fresh, Hx, insert_fresh.
  unfold Heap.withHumanObjects, allocate. cbn. by rewrite length_insert.
Qed.

Lemma getArray_humans s :
  getArray na (allocate s h) =
  Some (seq nh (length (GameState.humans s)), allocate s h).
Proof.
  unfold getArray, read. cbn [allocate Heap.arrays].
  by rewrite lookup_fresh0.
Qed.

Lemma getArray_zombies s :
  getArray (S na) (allocate s h) =
  Some (seq nz (length (GameState.zombies s)), allocate s h).
Proof.
  unfold getArray, read. cbn [allocate Heap.arrays].
  replace (S na) with (na + 1)%nat by lia. by rewrite lookup_fresh.
Qed.

Lemma mapM_lookup_fresh {A} (new old : list A) :
  mapM (fun l => (old ++ new) !! l) (seq (length old) (length new)) = Some new.
Proof.
  revert old. induction new as [|a new IH]; intros old; [done|].
  cbn [length seq mapM].
  rewrite lookup_fresh0. cbn.
  specialize (IH (old ++ [a])).
  rewrite <- app_assoc, length_app in IH. cbn in IH.
  rewrite Nat.add_1_r in IH. by rewrite IH.
Qed.

Lemma elements_humans s :
  elements Heap.humanObjects na (allocate s h) = Some (GameState.humans s).
Proof.
  unfold elements. cbn [allocate Heap.arrays Heap.humanObjects].
  rewrite lookup_fresh0. cbn. by rewrite mapM_lookup_fresh.
Qed.

Lemma elements_zombies s :
  elements Heap.zombieObjects (S na) (allocate s h) = Some (GameState.zombies s).
Proof.
  unfold elements. cbn [allocate Heap.arrays Heap.zombieObjects].
  replace (S na) with (na + 1)%nat by lia. rewrite lookup_fresh. cbn.
  by rewrite mapM_lookup_fresh.
Qed.

Lemma getHumans_allocate s :
  getHumans na (allocate s h) = Some (GameState.humans s, allocate s h).
Proof. unfold getHumans. by rewrite elements_humans. Qed.

Lemma getZombies_allocate s :
  getZombies (S na) (allocate s h) = Some (GameState.zombies s, allocate s h).
Proof. unfold getZombies. by rewrite elements_zombies. Qed.

Lemma load_allocate s : load (allocate s h) ns = Some s.
Proof.
  unfold load.
  replace (Heap.states (allocate s h) !! ns) with (Some (objectOf h s))
    by (cbn [allocate Heap.states]; by rewrite lookup_fresh0).
  cbn [objectOf Heap.rich Heap.humans Heap.zombies].
  replace (Heap.points (allocate s h) !! np) with (Some (GameState.rich s))
    by (cbn [allocate Heap.points]; by rewrite lookup_fresh0).
  rewrite elements_humans, elements_zombies.
  by destruct s.
Qed.

Lemma preserved_allocate s : preserved h (allocate s h).
Proof. repeat split; by apply prefix_app_r. Qed.

(** *** Loops *)

Lemma forEach_seq n : forall (Inv : nat -> Heap.t -> Prop) base body h0,
  Inv 0%nat h0 ->
  (forall i h1, (i < n)%nat -> Inv i h1 ->
     exists h2, body (base + i)%nat h1 = Some (tt, h2) /\ Inv (S i) h2) ->
  exists h', forEach (seq base n) body h0 = Some (tt, h') /\ Inv n h'.
Proof.
  induction n as [|n IH]; intros Inv base body h0 H0 Hstep.
  - exists h0. by split.
  - destruct (Hstep 0%nat h0) as (h1 & Hb & H1); [lia|done|].
    rewrite Nat.add_0_r in Hb.
    destruct (IH (fun i => Inv (S i)) (S base) body h1 H1) as (h' & Hl & Hn).
    + intros i h2 Hi Hinv. destruct (Hstep (S i) h2) as (h3 & Hb3 & H3);
        [lia|done|].
      exists h3. split; [|done]. by rewrite <- Nat.add_succ_comm in Hb3.
    + exists h'. split; [|done]. cbn [seq forEach]. unfold bind. by rewrite Hb.
Qed.

Lemma forEachWith_seq {A} n : forall (Inv : nat -> A -> Heap.t -> Prop)
    base (body : A -> Heap.loc -> M A) a0 h0,
  Inv 0%nat a0 h0 ->
  (forall i a1 h1, (i < n)%nat -> Inv i a1 h1 ->
     exists a2 h2, body a1 (base + i)%nat h1 = Some (a2, h2) /\ Inv (S i) a2 h2) ->
  exists a' h', forEachWith (seq base n) body a0 h0 = Some (a', h') /\ Inv n a' h'.
Proof.
  induction n as [|n IH]; intros Inv base body a0 h0 H0 Hstep.
  - exists a0, h0. by split.
  - destruct (Hstep 0%nat a0 h0) as (a1 & h1 & Hb & H1); [lia|done|].
    rewrite Nat.add_0_r in Hb.
    destruct (IH (fun i => Inv (S i)) (S base) body a1 h1 H1)
      as (a' & h' & Hl & Hn).
    + intros i a2 h2 Hi Hinv.
      destruct (Hstep (S i) a2 h2) as (a3 & h3 & Hb3 & H3); [lia|done|].
      exists a3, h3. split; [|done]. by rewrite <- Nat.add_succ_comm in Hb3.
    + exists a', h'. split; [|done].
      cbn [seq forEachWith]. unfold bind. by rewrite Hb.
Qed.

Lemma partly_0 {A} (f : A -> A) l : partly f 0 l = l.
Proof. done. Qed.

Lemma partly_all {A} (f : A -> A) l : partly f (length l) l = f <$> l.
Proof. unfold partly. by rewrite firstn_all, drop_all, app_nil_r. Qed.

Lemma partly_lookup {A} (f : A -> A) l i a :
  l !! i = Some a -> partly f i l !! i = Some a.
Proof.
  intros Hl. unfold partly. pose proof (lookup_lt_Some _ _ _ Hl).
  rewrite lookup_app_r; rewrite length_fmap, length_take_le by lia; [|lia].
  by rewrite Nat.sub_diag, lookup_drop, Nat.add_0_r.
Qed.

Lemma partly_step {A} (f : A -> A) l i a :
  l !! i = Some a -> <[i := f a]> (partly f i l) = partly f (S i) l.
Proof.
  intros Hl. unfold partly. pose proof (lookup_lt_Some _ _ _ Hl).
  rewrite insert_app_r_alt; rewrite length_fmap, length_take_le by lia; [|lia].
  rewrite Nat.sub_diag. rewrite (drop_S _ _ _ Hl). cbn.
  rewrite (take_S_r _ _ _ Hl), fmap_app. cbn. by rewrite <- app_assoc.
Qed.

Lemma partly_skip {A} (f : A -> A) l i a :
  l !! i = Some a -> f a = a -> partly f (S i) l = partly f i l.
Proof.
  intros Hl Hf. unfold partly.
  rewrite (drop_S _ _ _ Hl), (take_S_r _ _ _ Hl), fmap_app. cbn.
  by rewrite Hf, <- app_assoc.
Qed.

Lemma partly_length {A} (f : A -> A) l i : length (partly f i l) = length l.
Proof.
  unfold partly. rewrite length_app, length_fmap, length_take, length_drop. lia.
Qed.

Lemma withZombies_same s : withZombies s (GameState.zombies s) = s.
Proof. by destruct s. Qed.

Lemma withHumans_same s : withHumans s (GameState.humans s) = s.
Proof. by destruct s. Qed.

(** *** The passes *)

(** A loop over the zombies that sends each of them through [f]. *)
Lemma zombieLoop s f body :
  (forall s1 i z,
     GameState.humans s1 = GameState.humans s ->
     GameState.rich s1 = GameState.rich s ->
     GameState.zombies s1 !! i = Some z ->
     body (nz + i)%nat (allocate s1 h) =
     if negb (Zombie.alive z) then Some (tt, allocate s1 h)
     else Some (tt, allocate
                 (withZombies s1 (<[i := f z]> (GameState.zombies s1))) h)) ->
  (forall z, Zombie.alive z = false -> f z = z) ->
  forEach (seq nz (length (GameState.zombies s))) body (allocate s h) =
  Some (tt, allocate (withZombies s (f <$> GameState.zombies s)) h).
Proof.
  intros Hbody Hdead.
  destruct (forEach_seq (length (GameState.zombies s))
    (fun i h1 => h1 = allocate (withZombies s (partly f i (GameState.zombies s))) h)
    nz body (allocate s h)) as (h' & Hloop & ->).
  - by rewrite partly_0, withZombies_same.
  - intros i h1 Hi ->.
    destruct (lookup_lt_is_Some_2 (GameState.zombies s) i Hi) as [z Hz].
    rewrite (Hbody _ i z); [|done|done|by apply partly_lookup].
    destruct (Zombie.alive z) eqn:Ha; cbn [negb]; eexists; (split; [done|]).
    + cbn [withZombies GameState.zombies]. rewrite (partly_step f _ _ _ Hz).
      by destruct s.
    + by rewrite (partly_skip f _ _ _ Hz) by by apply Hdead.
  - by rewrite Hloop, partly_all.
Qed.

Lemma moveZombieAt_allocate s0 s i z :
  GameState.zombies s !! i = Some z ->
  moveZombieAt (objectOf h s0) (nz + i)%nat (allocate s h) =
  if negb (Zombie.alive z) then Some (tt, allocate s h)
  else Some (tt, allocate (withZombies s
          (<[i := moveZombie (GameState.humans s) (GameState.rich s) z]>
             (GameState.zombies s))) h).
Proof.
  intros Hz. unfold moveZombieAt, bind.
  rewrite (getZombie_allocate s i z Hz).
  destruct (negb (Zombie.alive z)) eqn:Ha; [done|].
  cbn [objectOf Heap.humans Heap.rich].
  rewrite getHumans_allocate, getPoint_allocate.
  rewrite (setZombie_allocate s i z _ Hz).
  unfold moveZombie. by rewrite Ha.
Qed.

Lemma nextZombieAt_allocate s0 s i z :
  GameState.zombies s !! i = Some z ->
  nextZombieAt (objectOf h s0) (nz + i)%nat (allocate s h) =
  if negb (Zombie.alive z) then Some (tt, allocate s h)
  else Some (tt, allocate (withZombies s
          (<[i := nextZombie (GameState.humans s) (GameState.rich s) z]>
             (GameState.zombies s))) h).
Proof.
  intros Hz. unfold nextZombieAt, bind.
  rewrite (getZombie_allocate s i z Hz).
  destruct (negb (Zombie.alive z)) eqn:Ha; [done|].
  cbn [objectOf Heap.humans Heap.rich].
  rewrite getHumans_allocate, getPoint_allocate.
  rewrite (setZombie_allocate s i z _ Hz).
  unfold nextZombie. by rewrite Ha.
Qed.

Lemma moveZombies_allocate s0 s :
  forEach (seq nz (length (GameState.zombies s))) (moveZombieAt (objectOf h s0))
    (allocate s h) =
  Some (tt, allocate (withZombies s
     (moveZombie (GameState.humans s) (GameState.rich s) <$> GameState.zombies s)) h).
Proof.
  apply zombieLoop.
  - intros s1 i z Hh Hr Hz. rewrite (moveZombieAt_allocate s0 s1 i z Hz).
    by rewrite Hh, Hr.
  - intros z Hz. by apply moveZombie_dead.
Qed.

Lemma nextZombies_allocate s0 s :
  forEach (seq nz (length (GameState.zombies s))) (nextZombieAt (objectOf h s0))
    (allocate s h) =
  Some (tt, allocate (withZombies s
     (nextZombie (GameState.humans s) (GameState.rich s) <$> GameState.zombies s)) h).
Proof.
  apply zombieLoop.
  - intros s1 i z Hh Hr Hz. rewrite (nextZombieAt_allocate s0 s1 i z Hz).
    by rewrite Hh, Hr.
  - intros z Hz. by apply nextZombie_dead.
Qed.

Lemma zombiesKilled_snoc r l z :
  zombiesKilled r (l ++ [z]) =
  (zombiesKilled r l + if destroyedNow r z then 1 else 0)%nat.
Proof.
  unfold zombiesKilled. rewrite filter_app, length_app. f_equal.
  rewrite filter_cons, filter_nil.
  by destruct (destroyedNow r z);
    [rewrite decide_True by done|rewrite decide_False by done].
Qed.

Lemma scoreAfter_snoc a n : forall k score,
  scoreAfter a k (n + 1) score =
  JS.Num (JS.add (JS.to_number (scoreAfter a k n score))
                 (points a (k + Z.of_nat n))).
Proof.
  induction n as [|n IH]; intros k score; cbn [Nat.add scoreAfter].
  - by replace (k + Z.of_nat 0) with k by lia.
  - rewrite IH.
    by replace (k + 1 + Z.of_nat n) with (k + Z.of_nat (S n)) by lia.
Qed.

Lemma destroyZombies_allocate s a n :
  n = length (GameState.zombies s) ->
  exists k,
  forEachWith (seq nz n) (destroyZombieAt ns a) 0 (allocate s h) =
  Some (k, allocate
    (withScore
       (withZombies s (destroyOne (GameState.rich s) <$> GameState.zombies s))
       (scoreAfter a 0 (zombiesKilled (GameState.rich s) (GameState.zombies s))
          (GameState.score s)))
    h).
Proof.
  intros ->. set (r := GameState.rich s). set (zs := GameState.zombies s).
  destruct (forEachWith_seq (length zs)
    (fun i k h1 =>
       k = Z.of_nat (zombiesKilled r (take i zs)) /\
       h1 = allocate
              (withScore (withZombies s (partly (destroyOne r) i zs))
                 (scoreAfter a 0 (zombiesKilled r (take i zs))
                    (GameState.score s))) h)
    nz (destroyZombieAt ns a) 0 (allocate s h)) as (k & h' & Hloop & -> & ->).
  - split; [done|]. rewrite partly_0. cbn. by destruct s.
  - intros i k h1 Hi (-> & ->).
    destruct (lookup_lt_is_Some_2 zs i Hi) as [z Hz].
    set (s1 := withScore _ _).
    assert (Hz1 : GameState.zombies s1 !! i = Some z)
      by by apply partly_lookup.
    unfold destroyZombieAt, bind. rewrite (getZombie_allocate s1 i z Hz1).
    rewrite (take_S_r _ _ _ Hz), zombiesKilled_snoc. unfold destroyedNow.
    destruct (Zombie.alive z) eqn:Ha; cbn [negb andb].
    + rewrite getState_allocate. cbn [objectOf Heap.rich].
      rewrite getPoint_allocate. cbn [s1 withScore withZombies GameState.rich].
      fold r. destruct (destroyed r z) eqn:Hd.
      * rewrite (setZombie_allocate s1 i z _ Hz1), getState_allocate.
        set (s2 := withZombies s1 _).
        rewrite (setState_allocate s2
                   (withScore s2
                      (JS.Num (JS.add (JS.to_number (GameState.score s2))
                         (points a
                            (Z.of_nat (zombiesKilled r (take i zs)) + 1 - 1))))))
          by reflexivity.
        eexists _, _. split; [reflexivity|]. split; [lia|].
        rewrite <- (partly_step (destroyOne r) _ _ _ Hz), scoreAfter_snoc.
        replace (destroyOne r z) with (killZombie z)
          by (unfold destroyOne, destroyedNow; by rewrite Ha, Hd).
        subst s2 s1. unfold withScore, withZombies.
        cbn [GameState.rich GameState.humans GameState.zombies GameState.score
             GameState.turn GameState.gameOver GameState.won GameState.message].
        by replace (Z.of_nat (zombiesKilled r (take i zs)) + 1 - 1)
          with (0 + Z.of_nat (zombiesKilled r (take i zs))) by lia.
      * eexists _, _. split; [reflexivity|]. split; [lia|].
        rewrite Nat.add_0_r. subst s1.
        rewrite (partly_skip (destroyOne r) _ _ _ Hz); [done|].
        unfold destroyOne, destroyedNow. by rewrite Ha, Hd.
    + eexists _, _. split; [reflexivity|]. split; [lia|].
      rewrite Nat.add_0_r. subst s1.
      rewrite (partly_skip (destroyOne r) _ _ _ Hz); [done|].
      by apply destroyOne_dead.
  - eexists. rewrite Hloop. by rewrite partly_all, firstn_all.
Qed.

Lemma eatHumans_app l1 : forall l2 hs,
  eatHumans (l1 ++ l2) hs = eatHumans l2 (eatHumans l1 hs).
Proof.
  induction l1 as [|z l1 IH]; intros l2 hs; [done|].
  cbn [app eatHumans]. destruct (negb _); apply IH.
Qed.

Lemma eatHumans_length zs hs : length (eatHumans zs hs) = length hs.
Proof. by rewrite eatHumans_spec, length_fmap. Qed.

Lemma eatHumanAt_allocate s z n :
  n = length (GameState.humans s) ->
  forEach (seq nh n) (eatHumanAt z) (allocate s h) =
  Some (tt, allocate (withHumans s (eatHuman z <$> GameState.humans s)) h).
Proof.
  intros ->. set (hs := GameState.humans s).
  destruct (forEach_seq (length hs)
    (fun j h1 => h1 = allocate (withHumans s (partly (eatHuman z) j hs)) h)
    nh (eatHumanAt z) (allocate s h)) as (h' & Hloop & ->).
  - by rewrite partly_0, withHumans_same.
  - intros j h1 Hj ->.
    destruct (lookup_lt_is_Some_2 hs j Hj) as [x Hx].
    set (s1 := withHumans _ _).
    assert (Hx1 : GameState.humans s1 !! j = Some x) by by apply partly_lookup.
    unfold eatHumanAt, bind. rewrite (getHuman_allocate s1 j x Hx1).
    destruct (Human.alive x) eqn:Ha; cbn [negb].
    + destruct (eaten z x) eqn:He.
      * rewrite (setHuman_allocate s1 j x _ Hx1). eexists. split; [done|].
        rewrite <- (partly_step (eatHuman z) _ _ _ Hx).
        replace (eatHuman z x) with
          (Human.mk (Human.id x) (Human.x x) (Human.y x) false (Human.emoji x))
          by (unfold eatHuman; by rewrite Ha, He).
        done.
      * eexists. split; [done|]. subst s1.
        rewrite (partly_skip (eatHuman z) _ _ _ Hx); [done|].
        unfold eatHuman. by rewrite Ha, He.
    + eexists. split; [done|]. subst s1.
      rewrite (partly_skip (eatHuman z) _ _ _ Hx); [done|].
      unfold eatHuman. by rewrite Ha.
  - by rewrite Hloop, partly_all.
Qed.

Lemma eatHumansAt_allocate s0 s n :
  n = length (GameState.zombies s) ->
  forEach (seq nz n) (eatHumansAt (objectOf h s0)) (allocate s h) =
  Some (tt, allocate
    (withHumans s (eatHumans (GameState.zombies s) (GameState.humans s))) h).
Proof.
  intros ->. set (zs := GameState.zombies s). set (hs := GameState.humans s).
  destruct (forEach_seq (length zs)
    (fun i h1 => h1 = allocate (withHumans s (eatHumans (take i zs) hs)) h)
    nz (eatHumansAt (objectOf h s0)) (allocate s h)) as (h' & Hloop & ->).
  - cbn [take eatHumans]. by rewrite withHumans_same.
  - intros i h1 Hi ->.
    destruct (lookup_lt_is_Some_2 zs i Hi) as [z Hz].
    set (s1 := withHumans _ _).
    unfold eatHumansAt, bind. rewrite (getZombie_allocate s1 i z Hz).
    rewrite (take_S_r _ _ _ Hz), eatHumans_app. cbn [eatHumans].
    destruct (Zombie.alive z) eqn:Ha; cbn [negb].
    + cbn [objectOf Heap.humans]. rewrite getArray_humans.
      rewrite (eatHumanAt_allocate s1 z) by done.
      eexists. split; [done|]. by subst s1.
    + eexists. by split.
  - rewrite Hloop. by rewrite firstn_all.
Qed.

Lemma point_eta p : Point.mk (Point.x p) (Point.y p) = p.
Proof. by destruct p. Qed.

Lemma simulateTurn_steps s tx ty :
  simulateTurn s tx ty = checkOutcome (beforeCheck s tx ty).
Proof.
  unfold simulateTurn, checkOutcome, beforeCheck.
  rewrite destroyZombies_spec.
  cbn [withTurn withZombies withRich withScore withHumans withOutcome
       GameState.rich GameState.humans GameState.zombies GameState.score
       GameState.turn GameState.gameOver GameState.won GameState.message].
  rewrite !point_eta.
  repeat case_match; reflexivity.
Qed.

(** The whole turn: on a memory where [state] holds the value [s], the
    program returns a new reference, and the memory it leaves is the one
    it started from with the objects of [simulateTurn s tx ty] added. *)
Lemma simulateTurnAt_allocate state s tx ty :
  load h state = Some s ->
  simulateTurnAt state tx ty h = Some (ns, allocate (simulateTurn s tx ty) h).
Proof.
  intros Hload. unfold simulateTurnAt, bind at 1. unfold stringify.
  rewrite Hload. unfold bind at 1, parse.
  set (s0 := jsonCopy s).
  unfold bind at 1. rewrite getState_allocate.
  unfold bind at 1.
  rewrite (setState_allocate s0
             (withTurn s0
                (JS.Num (JS.add (JS.to_number (GameState.turn s0)) (JS.lit 1)))))
    by reflexivity.
  set (s1 := withTurn s0 _).
  unfold bind at 1. cbn [objectOf Heap.zombies Heap.rich Heap.humans].
  rewrite getArray_zombies.
  unfold bind at 1.
  rewrite (moveZombies_allocate s0 s1).
  set (s2 := withZombies s1 _).
  unfold bind at 1. rewrite getPoint_allocate.
  unfold bind at 1. rewrite setPoint_allocate.
  set (s3 := withRich s2 _).
  unfold bind at 1. rewrite getHumans_allocate.
  unfold bind at 1.
  destruct (destroyZombies_allocate s3
              (countAlive Human.alive (GameState.humans s3))
              (length (GameState.zombies s1))) as (k & Hk).
  { unfold s3, s2, s1.
    cbn [withRich withZombies withTurn withScore withHumans GameState.zombies].
    by rewrite ?length_fmap. }
  rewrite Hk. clear Hk.
  set (s4 := withScore _ _).
  unfold bind at 1.
  rewrite (eatHumansAt_allocate s0 s4)
    by (unfold s4, s3, s2, s1;
        cbn [withRich withZombies withTurn withScore withHumans GameState.zombies];
        by rewrite ?length_fmap).
  set (s5 := withHumans s4 _).
  unfold bind at 1.
  replace (length (GameState.zombies s1)) with (length (GameState.zombies s5))
    by (unfold s5, s4, s3, s2, s1;
        cbn [withRich withZombies withTurn withScore withHumans GameState.zombies];
        by rewrite ?length_fmap).
  rewrite (nextZombies_allocate s0 s5).
  set (s6 := withZombies s5 _).
  unfold bind at 1. rewrite getHumans_allocate.
  unfold bind at 1. rewrite getZombies_allocate.
  unfold bind at 1. rewrite getState_allocate.
  unfold bind at 1.
  rewrite simulateTurn_steps.
  change (beforeCheck s tx ty) with s6.
  unfold checkOutcome.
  destruct ((countAlive Zombie.alive (GameState.zombies s6) =? 0)
            && (0 <? countAlive Human.alive (GameState.humans s6))) eqn:Hwin;
    [|destruct (countAlive Human.alive (GameState.humans s6) =? 0) eqn:Hlose].
  - by rewrite (setState_allocate s6 (withOutcome s6 true true
               (Message.Victory (GameState.score s6))))
      by reflexivity.
  - by rewrite (setState_allocate s6 (withOutcome s6 true false
               (Message.Text "Game Over - All humans died!"))) by reflexivity.
  - done.
Qed.

End Memory.

(** *** The input is left alone *)

Lemma elements_preserved {A} (region : Heap.t -> list A) array g g' l :
  Heap.arrays g `prefix_of` Heap.arrays g' ->
  region g `prefix_of` region g' ->
  elements region array g = Some l ->
  elements region array g' = Some l.
Proof.
  intros Ha Hr. unfold elements.
  destruct (Heap.arrays g !! array) as [locs|] eqn:Hl; [|done].
  rewrite (prefix_lookup_Some _ _ _ _ Hl Ha).
  rewrite !mapM_Some. intros Hall. eapply Forall2_impl; [exact Hall|].
  intros i a Hi. by apply (prefix_lookup_Some _ _ _ _ Hi).
Qed.

Lemma load_preserved g g' l s :
  preserved g g' -> load g l = Some s -> load g' l = Some s.
Proof.
  intros (Hp & Hh & Hz & Ha & Hs). unfold load.
  destruct (Heap.states g !! l) as [o|] eqn:Ho; [|done].
  rewrite (prefix_lookup_Some _ _ _ _ Ho Hs).
  destruct (Heap.points g !! Heap.rich o) as [r|] eqn:Hr; [|done].
  rewrite (prefix_lookup_Some _ _ _ _ Hr Hp).
  destruct (elements Heap.humanObjects (Heap.humans o) g) as [hs|] eqn:Hhs;
    [|done].
  rewrite (elements_preserved Heap.humanObjects _ g g' hs Ha Hh Hhs).
  destruct (elements Heap.zombieObjects (Heap.zombies o) g) as [zs|] eqn:Hzs;
    [|done].
  by rewrite (elements_preserved Heap.zombieObjects _ g g' zs Ha Hz Hzs).
Qed.

(** C5: [simulateTurn] is a pure function of the value of its input.
    Run on a memory [h] where the reference [state] holds the value [s],
    the program returns, leaves every object of [h] (the input state,
    its avatar, its arrays, its humans and its zombies among them) as it
    was, and returns a reference to new objects whose value is
    [simulateTurn s tx ty]; any other call on a state of the same value
    and with the same destination, on whatever memory, returns a state
    of that same value. *)
Theorem simulateTurnAt_pure (h : Heap.t) (state : Heap.loc) (s : GameState.t)
    (tx ty : JS.value) :
  load h state = Some s ->
  exists newState h',
    simulateTurnAt state tx ty h = Some (newState, h') /\
    preserved h h' /\
    load h' state = Some s /\
    load h' newState = Some (simulateTurn s tx ty) /\
    forall g other, load g other = Some s ->
      exists newState2 g',
        simulateTurnAt other tx ty g = Some (newState2, g') /\
        load g' newState2 = load h' newState.
Proof.
  intros Hload. eexists _, _.
  split; [by apply simulateTurnAt_allocate|].
  split; [by apply preserved_allocate|].
  split; [by apply (load_preserved h), Hload; apply preserved_allocate|].
  split; [by apply load_allocate|].
  intros g other Hg. eexists _, _.
  split; [by apply simulateTurnAt_allocate|].
  by rewrite !load_allocate.
Qed.

Lemma simulateTurnAt_pure_witness :
  exists newState h',
    simulateTurnAt 0%nat (JS.lit 0) (JS.lit 0) (holding duel) = Some (newState, h') /\
    preserved (holding duel) h' /\
    load h' 0%nat = Some duel /\
    load h' newState = Some (simulateTurn duel (JS.lit 0) (JS.lit 0)) /\
    forall g other, load g other = Some duel ->
      exists newState2 g',
        simulateTurnAt other (JS.lit 0) (JS.lit 0) g = Some (newState2, g') /\
        load g' newState2 = load h' newState.
Proof.
  apply (simulateTurnAt_pure (holding duel) 0%nat duel (JS.lit 0) (JS.lit 0)).
  reflexivity.
Defined.

(** The run on the memory that holds [duel]: the old state object is at
    reference 0 and still has its value, the new one is at reference 1. *)
Example simulateTurnAt_duel :
  match simulateTurnAt 0%nat (JS.lit 0) (JS.lit 0) (holding duel) with
  | Some (newState, h') =>
      newState = 1%nat /\
      load h' 0%nat = Some duel /\
      (GameState.score <$> load h' newState) = Some (JS.Num (JS.lit 10)) /\
      (terminalOf <$> load h' newState) = Some victory
  | None => False
  end.
Proof. vm_compute. repeat split; reflexivity. Qed.

(** ** More on one turn *)

Lemma json_finite v : JS.finite (JS.json v) = true.
Proof. by destruct v as [[[]|[]| |[] ? ?]|]. Qed.

Lemma json_json v : JS.json (JS.json v) = JS.json v.
Proof. by destruct v as [[[]|[]| |[] ? ?]|]. Qed.

Lemma jsonHuman_jsonHuman h : jsonHuman (jsonHuman h) = jsonHuman h.
Proof. unfold jsonHuman. cbn. by rewrite !json_json. Qed.

Lemma jsonZombie_jsonZombie z : jsonZombie (jsonZombie z) = jsonZombie z.
Proof. unfold jsonZombie. cbn. by rewrite !json_json. Qed.

Lemma jsonCopy_jsonCopy s : jsonCopy (jsonCopy s) = jsonCopy s.
Proof.
  unfold jsonCopy, jsonPoint. cbn. rewrite !json_json.
  rewrite <- !list_fmap_compose. f_equal.
  - apply list_fmap_ext. intros _ h _. apply jsonHuman_jsonHuman.
  - apply list_fmap_ext. intros _ z _. apply jsonZombie_jsonZombie.
Qed.

(** X1: the entities keep their place: [simulateTurn] neither adds nor
    removes a human or a zombie, keeps their order and their ids, never
    moves a human (its coordinates are those of the JSON copy) and adds
    one to the copied turn counter by a binary64 addition, which is
    exact while the counter is an integer below 2^53 - 1. *)
Theorem simulateTurn_keeps_entities (s : GameState.t) (tx ty : JS.value) :
  let s' := simulateTurn s tx ty in
  length (GameState.humans s') = length (GameState.humans s) /\
  length (GameState.zombies s') = length (GameState.zombies s) /\
  GameState.turn s' =
    JS.Num (JS.add (JS.to_number (JS.json (GameState.turn s))) (JS.lit 1)) /\
  (forall t, 0 <= t -> t + 1 < 2 ^ 53 -> GameState.turn s = JS.lit t ->
     GameState.turn s' = JS.lit (t + 1)) /\
  (forall j h, GameState.humans s !! j = Some h ->
     exists h', GameState.humans s' !! j = Some h' /\
       Human.id h' = Human.id h /\
       Human.x h' = JS.json (Human.x h) /\
       Human.y h' = JS.json (Human.y h) /\
       Human.emoji h' = Human.emoji h) /\
  (forall i z, GameState.zombies s !! i = Some z ->
     exists z', GameState.zombies s' !! i = Some z' /\
       Zombie.id z' = Zombie.id z).
Proof.
  intros s'. subst s'. repeat split.
  - by rewrite simulateTurn_humans, !length_fmap.
  - rewrite simulateTurn_zombies, !length_fmap. unfold zombiesMoved.
    cbn [jsonCopy GameState.zombies]. by rewrite !length_fmap.
  - apply simulateTurn_turn.
  - intros t Ht Ht1 Hs. rewrite simulateTurn_turn, Hs, json_lit by lia.
    cbn [JS.to_number]. by rewrite add_lit by lia.
  - intros j h Hh. eexists. split; [by apply simulateTurn_human_at|]. done.
  - intros i z Hz. eexists. split; [by apply simulateTurn_zombie_at|].
    destruct (nextZombie_keeps (GameState.humans (simulateTurn s tx ty))
                (GameState.rich (simulateTurn s tx ty))
                (destroyOne (GameState.rich (simulateTurn s tx ty))
                   (moveZombie (GameState.humans (jsonCopy s))
                      (GameState.rich (jsonCopy s)) (jsonZombie z))))
      as (_ & _ & _ & ->).
    destruct (destroyOne_keeps (GameState.rich (simulateTurn s tx ty))
                (moveZombie (GameState.humans (jsonCopy s))
                   (GameState.rich (jsonCopy s)) (jsonZombie z)))
      as (_ & _ & _ & ->).
    unfold moveZombie. by destruct (negb _).
Qed.

Lemma simulateTurn_keeps_entities_witness :
  exists h', GameState.humans (simulateTurn (level1 plain) (JS.lit 0) (JS.lit 0))
               !! 0%nat = Some h' /\
    Human.id h' = 0 /\
    Human.x h' = JS.json (JS.Num (JS.lit 8000)) /\
    Human.y h' = JS.json (JS.Num (JS.lit 8500)) /\
    Human.emoji h' = "".
Proof.
  apply (proj1 (proj2 (proj2 (proj2 (proj2
           (simulateTurn_keeps_entities (level1 plain) (JS.lit 0) (JS.lit 0))))))
         0%nat (human plain 0 0 8000 8500)).
  reflexivity.
Defined.

(** Above 2^53 the counter can stay where it is. *)
Example turn_stuck :
  let s := GameState.mk (Point.mk (JS.lit 0) (JS.lit 0)) [] []
             (JS.lit 0) (JS.lit (2 ^ 53)) false false (Message.Text "") in
  GameState.turn (simulateTurn s (JS.lit 0) (JS.lit 0)) = JS.lit (2 ^ 53).
Proof. vm_compute. reflexivity. Qed.

(** X2: who survives the meal: a human is alive after the turn exactly when
    it was alive before and no zombie that is alive after the turn
    stands within 400 of it.  The zombies destroyed in the turn are not
    alive after it, so they eat nobody: the avatar strikes first. *)
Theorem simulateTurn_survivors (s : GameState.t) (tx ty : JS.value)
    (j : nat) (h : Human.t) :
  GameState.humans s !! j = Some h ->
  exists h', GameState.humans (simulateTurn s tx ty) !! j = Some h' /\
    (Human.alive h' = true <->
     Human.alive h = true /\
     forall i z', GameState.zombies (simulateTurn s tx ty) !! i = Some z' ->
       Zombie.alive z' = true ->
       JS.le (distance (Zombie.x z') (Zombie.y z') (Human.x h') (Human.y h'))
             (JS.lit 400) = false).
Proof.
  intros Hh. eexists. split; [by apply simulateTurn_human_at|].
  set (zs3 := destroyOne (richMoved s tx ty) <$> zombiesMoved s).
  cbn [afterMeal Human.alive Human.x Human.y jsonHuman].
  rewrite andb_true_iff, negb_true_iff.
  change (Human.alive (jsonHuman h)) with (Human.alive h).
  assert (Heq : eatenBy zs3 (jsonHuman h) = false <->
    forall i z', GameState.zombies (simulateTurn s tx ty) !! i = Some z' ->
      Zombie.alive z' = true -> eaten z' (jsonHuman h) = false).
  { split.
    - intros Hno i z' Hz' Ha.
      destruct (simulateTurn_zombie_alive s tx ty i z' Hz')
        as (z3 & Hz3 & Ha3 & Hx & Hy).
      destruct (eaten z' (jsonHuman h)) eqn:He; [|done].
      rewrite (eatenBy_intro zs3 i z3 (jsonHuman h)) in Hno;
        [done|done|congruence|].
      by rewrite (eaten_ext z' z3).
    - intros Hall. unfold eatenBy.
      destruct (existsb _ zs3) eqn:Hex; [|done].
      apply existsb_exists in Hex as (z3 & Hin & Hz3).
      apply list_elem_of_In, list_elem_of_lookup in Hin as [i Hi].
      apply andb_true_iff in Hz3 as [Ha3 He3].
      assert (Hz' : GameState.zombies (simulateTurn s tx ty) !! i =
                    Some (nextZombie (GameState.humans (simulateTurn s tx ty))
                            (GameState.rich (simulateTurn s tx ty)) z3)).
      { rewrite simulateTurn_zombies, list_lookup_fmap. fold zs3.
        by rewrite Hi. }
      destruct (nextZombie_keeps (GameState.humans (simulateTurn s tx ty))
                  (GameState.rich (simulateTurn s tx ty)) z3)
        as (Ha' & Hx' & Hy' & _).
      rewrite <- (Hall i _ Hz') by congruence.
      symmetry. by rewrite (eaten_ext z3 (nextZombie _ _ z3)). }
  unfold eaten in Heq. cbn [jsonHuman Human.x Human.y] in Heq.
  by rewrite Heq.
Qed.

Lemma simulateTurn_survivors_witness :
  exists h', GameState.humans (simulateTurn ambush (JS.lit 10000) (JS.lit 0))
               !! 0%nat = Some h' /\
    (Human.alive h' = true <->
     Human.alive (human plain 0 0 0 0) = true /\
     forall i z',
       GameState.zombies (simulateTurn ambush (JS.lit 10000) (JS.lit 0)) !! i
       = Some z' ->
       Zombie.alive z' = true ->
       JS.le (distance (Zombie.x z') (Zombie.y z') (Human.x h') (Human.y h'))
             (JS.lit 400) = false).
Proof.
  apply (simulateTurn_survivors ambush (JS.lit 10000) (JS.lit 0) 0%nat
           (human plain 0 0 0 0)).
  reflexivity.
Defined.

(** ** Score *)

Lemma comboScore_ge_10 a k n : 0 < a -> (0 < n)%nat -> 10 <= comboScore a k n.
Proof.
  intros Ha Hn. destruct n as [|n]; [lia|]. cbn [comboScore].
  pose proof (comboScore_nonneg a (k + 1) n).
  pose proof (fibonacci_pos k). nia.
Qed.

(** With no human alive every kill adds [+0]. *)
Lemma scoreAfter_no_humans n : forall k v,
  JS.to_number (scoreAfter 0 k n (JS.json v)) = JS.to_number (JS.json v).
Proof.
  assert (Hp : forall k, points 0 k = S754_zero false).
  { intros k. unfold points. pose proof (fibonacci_range k) as Hf.
    destruct (fibonacci k) as [|f|f] eqn:Hk; try lia.
    by rewrite (lit_pos f) by lia. }
  assert (Hadd : forall x, JS.to_number (JS.json x) =
            JS.add (JS.to_number (JS.json x)) (S754_zero false))
    by (by intros [[[]|[]| |[] ? ?]|]).
  induction n as [|n IH]; intros k v; cbn [scoreAfter]; [done|].
  rewrite Hp, <- Hadd.
  destruct (JS.json v) as [x|] eqn:Hv.
  - cbn [JS.to_number]. rewrite <- Hv, IH. by rewrite Hv.
  - cbn [JS.to_number].
    change (JS.Num (S754_zero false))
      with (JS.json (JS.Num (S754_zero false))).
    by rewrite IH.
Qed.

(** X3: the score moves exactly when a zombie is destroyed while a human is
    alive.  While it is an integer that stays below 2^53, where the
    additions are exact, it grows by at least 10 if the turn destroys a
    zombie and at least one human is alive at that time.  In every
    state it keeps the value of its JSON copy when no zombie is
    destroyed or no human is alive: zombies destroyed with no human
    left bring nothing. *)
Theorem simulateTurn_score_changes (s : GameState.t) (tx ty : JS.value) :
  let s' := simulateTurn s tx ty in
  let destroyedNow := countAlive Zombie.alive (GameState.zombies s)
                      - countAlive Zombie.alive (GameState.zombies s') in
  let aliveHumans := countAlive Human.alive (GameState.humans s) in
  (forall n, 0 <= n -> GameState.score s = JS.lit n ->
     n + comboScore aliveHumans 0 (Z.to_nat destroyedNow) < 2 ^ 53 ->
     0 < destroyedNow -> 0 < aliveHumans ->
     exists n', GameState.score s' = JS.lit n' /\ n + 10 <= n') /\
  (destroyedNow = 0 \/ aliveHumans = 0 ->
   JS.to_number (GameState.score s')
   = JS.to_number (JS.json (GameState.score s))).
Proof.
  intros s' destroyedNow aliveHumans. subst s' destroyedNow aliveHumans.
  rewrite simulateTurn_zombiesAlive, simulateTurn_score,
    simulateTurn_humansAlive_before.
  set (n := zombiesKilled _ _). set (a := countAlive Human.alive _).
  replace (Z.to_nat (_ - _)) with n by lia.
  split.
  - intros x Hx Hs Hlt Hn Ha. exists (x + comboScore a 0 n).
    rewrite Hs, json_lit
      by (pose proof (comboScore_nonneg a 0 n); lia).
    split; [apply scoreAfter_lit; lia|].
    pose proof (comboScore_ge_10 a 0 n Ha ltac:(lia)). lia.
  - intros [Hn| ->].
    + by replace n with 0%nat by lia.
    + apply scoreAfter_no_humans.
Qed.

Lemma simulateTurn_score_changes_witness :
  exists n', GameState.score (simulateTurn duel (JS.lit 0) (JS.lit 0)) = JS.lit n'
             /\ 0 + 10 <= n'.
Proof.
  apply (proj1 (simulateTurn_score_changes duel (JS.lit 0) (JS.lit 0)) 0);
    vm_compute; try reflexivity; discriminate.
Defined.

(** X4: the combo multiplier: the table holds the Fibonacci numbers from 1,
    2 on, it never decreases with the number of kills, and from the
    fifteenth kill of a turn on it stays at 987. *)
Theorem fibonacci_table (n : Z) :
  0 <= n ->
  1 <= fibonacci n <= 987 /\
  fibonacci n <= fibonacci (n + 1) /\
  (n <= 12 -> fibonacci (n + 2) = fibonacci (n + 1) + fibonacci n) /\
  (14 <= n -> fibonacci n = 987).
Proof.
  intros Hn. destruct (Z_lt_le_dec n 14) as [Hlt|Hge].
  - assert (Hall : forallb (fun k =>
              (1 <=? fibonacci k) && (fibonacci k <=? 987)
              && (fibonacci k <=? fibonacci (k + 1))
              && ((12 <? k)
                  || (fibonacci (k + 2) =? fibonacci (k + 1) + fibonacci k)))
              (seqZ 0 14) = true) by (vm_compute; reflexivity).
    rewrite forallb_forall in Hall. specialize (Hall n).
    destruct (andb_prop _ _ (Hall (proj1 (list_elem_of_In _ _)
                (proj2 (elem_of_seqZ 0 14 n) (conj Hn Hlt))))) as [H123 H4].
    destruct (andb_prop _ _ H123) as [H12 H3].
    destruct (andb_prop _ _ H12) as [H1 H2].
    apply Z.leb_le in H1, H2, H3.
    repeat split; try done; [|lia].
    intros H12'. apply orb_prop in H4 as [H4%Z.ltb_lt|H4%Z.eqb_eq]; [lia|done].
  - unfold fibonacci. cbn [length fibs]. rewrite !Z.min_r by lia.
    repeat split; intros; try lia;
      try (apply Z.leb_le; vm_compute; reflexivity); vm_compute; reflexivity.
Qed.

Lemma fibonacci_table_witness :
  1 <= fibonacci 20 <= 987 /\
  fibonacci 20 <= fibonacci (20 + 1) /\
  (20 <= 12 -> fibonacci (20 + 2) = fibonacci (20 + 1) + fibonacci 20) /\
  (14 <= 20 -> fibonacci 20 = 987).
Proof. apply (fibonacci_table 20). lia. Defined.

(** ** The outcome *)

Lemma countAlive_fmap_le {A B} (f : A -> B) (p : B -> bool) (q : A -> bool)
    (l : list A) :
  (forall a, p (f a) = true -> q a = true) ->
  countAlive p (f <$> l) <= countAlive q l.
Proof.
  intros H. induction l as [|a l IH]; [done|].
  cbn [fmap list_fmap]. fold (fmap f l). rewrite !countAlive_cons.
  specialize (H a). destruct (p (f a)), (q a); try lia.
  all: by specialize (H eq_refl).
Qed.

Lemma simulateTurn_humansAlive_le s tx ty :
  countAlive Human.alive (GameState.humans (simulateTurn s tx ty))
  <= countAlive Human.alive (GameState.humans s).
Proof.
  rewrite simulateTurn_humans, <- list_fmap_compose.
  apply countAlive_fmap_le. intros h. unfold compose. cbn.
  by intros [? _]%andb_true_iff.
Qed.

Lemma eatenBy_no_zombie (zs : list Zombie.t) h :
  countAlive Zombie.alive zs = 0 -> eatenBy zs h = false.
Proof.
  unfold eatenBy. induction zs as [|z zs IH]; [done|].
  rewrite countAlive_cons. pose proof (countAlive_nonneg Zombie.alive zs).
  destruct (Zombie.alive z) eqn:Ha; [lia|]. intros Hz. cbn [existsb].
  rewrite Ha. cbn [andb orb]. apply IH. lia.
Qed.

Lemma simulateTurn_humansAlive_safe s tx ty :
  countAlive Zombie.alive (GameState.zombies s) = 0 ->
  countAlive Human.alive (GameState.humans (simulateTurn s tx ty))
  = countAlive Human.alive (GameState.humans s).
Proof.
  intros Hz. rewrite simulateTurn_humans, <- list_fmap_compose.
  apply countAlive_fmap. intros h. unfold compose. cbn [afterMeal Human.alive].
  rewrite eatenBy_no_zombie; [by rewrite andb_true_r|].
  rewrite countAlive_destroyOne.
  pose proof (countAlive_nonneg Zombie.alive
    (destroyOne (richMoved s tx ty) <$> zombiesMoved s)) as Hnn.
  rewrite countAlive_destroyOne in Hnn.
  assert (Hm : countAlive Zombie.alive (zombiesMoved s) = 0).
  { unfold zombiesMoved. cbn [jsonCopy GameState.zombies].
    rewrite <- list_fmap_compose.
    rewrite (countAlive_fmap _ _ Zombie.alive); [done|].
    intros z. unfold compose. by rewrite moveZombie_alive. }
  lia.
Qed.

(** The outcome of a state agrees with its board. *)
Lemma settled_step s x y :
  (terminalOf s = victory /\
   countAlive Zombie.alive (GameState.zombies s) = 0 /\
   0 < countAlive Human.alive (GameState.humans s)) \/
  (terminalOf s = defeat /\
   countAlive Human.alive (GameState.humans s) = 0) ->
  let s' := simulateTurn s x y in
  terminalOf s' = terminalOf s /\
  ((terminalOf s' = victory /\
    countAlive Zombie.alive (GameState.zombies s') = 0 /\
    0 < countAlive Human.alive (GameState.humans s')) \/
   (terminalOf s' = defeat /\
    countAlive Human.alive (GameState.humans s') = 0)).
Proof.
  intros Hs s'.
  pose proof (simulateTurn_outcome s x y) as H2. cbn zeta in H2. fold s' in H2.
  pose proof (simulateTurn_humansAlive_le s x y) as Hle. fold s' in Hle.
  pose proof (countAlive_nonneg Human.alive (GameState.humans s')) as Hh2.
  pose proof (countAlive_nonneg Zombie.alive (GameState.zombies s')) as Hz2.
  destruct Hs as [(Ht & Hz & Hh)|(Ht & Hh)]; rewrite Ht.
  - pose proof (simulateTurn_humansAlive_safe s x y Hz) as Hsafe.
    fold s' in Hsafe.
    assert (Hz' : countAlive Zombie.alive (GameState.zombies s') = 0).
    { subst s'. rewrite simulateTurn_zombiesAlive in *. lia. }
    rewrite Hz', Hsafe in H2.
    replace (0 <? _) with true in H2 by (symmetry; apply Z.ltb_lt; lia).
    cbn [Z.eqb andb] in H2. injection H2 as Hg Hw _.
    assert (terminalOf s' = victory) by (unfold terminalOf; by rewrite Hg, Hw).
    split; [done|]. left. split; [done|]. split; [done|lia].
  - assert (Hh' : countAlive Human.alive (GameState.humans s') = 0) by lia.
    rewrite Hh' in H2. rewrite andb_false_r in H2. cbn [Z.eqb] in H2.
    injection H2 as Hg Hw _.
    assert (terminalOf s' = defeat) by (unfold terminalOf; by rewrite Hg, Hw).
    split; [done|]. right. by split.
Qed.

Lemma settled_turns targets : forall s,
  (terminalOf s = victory /\
   countAlive Zombie.alive (GameState.zombies s) = 0 /\
   0 < countAlive Human.alive (GameState.humans s)) \/
  (terminalOf s = defeat /\
   countAlive Human.alive (GameState.humans s) = 0) ->
  terminalOf (turns targets s) = terminalOf s.
Proof.
  induction targets as [|[x y] targets IH]; intros s Hs; [done|].
  cbn [turns]. destruct (settled_step s x y Hs) as [Ht Hs'].
  by rewrite IH.
Qed.

(** X5: from a game that is going on, the check after a turn leaves it going
    on exactly when a human and a zombie are both still alive; and the
    outcome that this turn reaches is final: whatever the later
    destinations and however many further calls of [simulateTurn] are
    made on the result, a won state stays won and a lost state lost. *)
Theorem simulateTurn_outcome_final (s : GameState.t) (tx ty : JS.value)
    (targets : list (JS.value * JS.value)) :
  GameState.gameOver s = false ->
  let s1 := simulateTurn s tx ty in
  (terminalOf s1 = ongoing <->
   0 < countAlive Human.alive (GameState.humans s1) /\
   0 < countAlive Zombie.alive (GameState.zombies s1)) /\
  (terminalOf s1 <> ongoing ->
   terminalOf (turns targets s1) = terminalOf s1).
Proof.
  intros Hgo s1.
  pose proof (simulateTurn_outcome s tx ty) as H1. cbn zeta in H1.
  fold s1 in H1.
  pose proof (countAlive_nonneg Human.alive (GameState.humans s1)) as Hh0.
  pose proof (countAlive_nonneg Zombie.alive (GameState.zombies s1)) as Hz0.
  assert (Hcases :
    (countAlive Zombie.alive (GameState.zombies s1) = 0 /\
     0 < countAlive Human.alive (GameState.humans s1) /\
     terminalOf s1 = victory) \/
    (countAlive Human.alive (GameState.humans s1) = 0 /\
     terminalOf s1 = defeat) \/
    (0 < countAlive Human.alive (GameState.humans s1) /\
     0 < countAlive Zombie.alive (GameState.zombies s1) /\
     terminalOf s1 = ongoing)).
  { unfold terminalOf.
    destruct (countAlive Zombie.alive (GameState.zombies s1) =? 0) eqn:Ez;
      destruct (0 <? countAlive Human.alive (GameState.humans s1)) eqn:Eh;
      cbn [andb] in H1.
    - injection H1 as -> -> _. left. split; [lia|]. split; [lia|done].
    - replace (countAlive Human.alive (GameState.humans s1) =? 0) with true in H1
        by (symmetry; apply Z.eqb_eq; lia).
      injection H1 as -> -> _. right. left. split; [lia|done].
    - replace (countAlive Human.alive (GameState.humans s1) =? 0) with false in H1
        by (symmetry; apply Z.eqb_neq; lia).
      injection H1 as -> _ _. rewrite Hgo. right. right.
      split; [lia|]. split; [lia|done].
    - replace (countAlive Human.alive (GameState.humans s1) =? 0) with true in H1
        by (symmetry; apply Z.eqb_eq; lia).
      injection H1 as -> -> _. right. left. split; [lia|done]. }
  split.
  - destruct Hcases as [(Hz & Hh & ->)|[(Hh & ->)|(Hh & Hz & ->)]];
      split; try done; lia.
  - intros Hover. apply settled_turns.
    destruct Hcases as [(Hz & Hh & Ht)|[(Hh & Ht)|(_ & _ & Ht)]];
      [by left|by right|congruence].
Qed.

Lemma simulateTurn_outcome_final_witness :
  terminalOf (turns [(JS.Num (JS.lit 5000), JS.Num (JS.lit 5000));
                     (JS.Null, JS.Num S754_nan)]
                (simulateTurn duel (JS.lit 0) (JS.lit 0)))
  = terminalOf (simulateTurn duel (JS.lit 0) (JS.lit 0)).
Proof.
  apply (proj2 (simulateTurn_outcome_final duel (JS.lit 0) (JS.lit 0)
                  [(JS.Num (JS.lit 5000), JS.Num (JS.lit 5000));
                   (JS.Null, JS.Num S754_nan)] eq_refl)).
  vm_compute. discriminate.
Defined.

(** A state that is only marked as lost, with a human alive and a zombie
    in the avatar's range, is turned into a victory. *)
Example marked_outcome_not_final :
  terminalOf markedLost = defeat /\
  terminalOf (simulateTurn markedLost (JS.lit 0) (JS.lit 0)) = victory.
Proof. vm_compute. split; reflexivity. Qed.

(** ** Runs *)

Lemma simulateTurn_zombiesAlive_le s tx ty :
  countAlive Zombie.alive (GameState.zombies (simulateTurn s tx ty))
  <= countAlive Zombie.alive (GameState.zombies s).
Proof. rewrite simulateTurn_zombiesAlive. lia. Qed.

(** X6: along a run of [n] rounds of strategy then [simulateTurn], for a
    strategy that only reads the state: the turn counter grows by [n]
    while it is an integer below 2^53, the score does not go down as
    long as it stays finite, the numbers of humans and of zombies alive
    never go up, and the two lists keep their lengths. *)
Theorem ticks_invariants (algorithm : strategy) (n : nat) :
  readOnly algorithm ->
  forall s s', ticks algorithm n s = Some s' ->
  (forall t, 0 <= t -> t + Z.of_nat n < 2 ^ 53 -> GameState.turn s = JS.lit t ->
     GameState.turn s' = JS.lit (t + Z.of_nat n)) /\
  (JS.binary64 (JS.to_number (GameState.score s)) = true ->
   (forall k sk, (k <= n)%nat -> ticks algorithm k s = Some sk ->
      JS.finite (GameState.score sk) = true) ->
   JS.le (JS.to_number (GameState.score s))
         (JS.to_number (GameState.score s')) = true) /\
  countAlive Human.alive (GameState.humans s')
    <= countAlive Human.alive (GameState.humans s) /\
  countAlive Zombie.alive (GameState.zombies s')
    <= countAlive Zombie.alive (GameState.zombies s) /\
  length (GameState.humans s') = length (GameState.humans s) /\
  length (GameState.zombies s') = length (GameState.zombies s).
Proof.
  intros Hro.
  induction n as [|n IH]; intros s s' Hrun; cbn [ticks] in Hrun.
  - injection Hrun as <-. split; [|split; [|repeat split; lia]].
    + intros t _ _ ->. by rewrite Z.add_0_r.
    + intros Hv Hf. apply le_refl.
      specialize (Hf 0%nat s (Nat.le_refl 0) eq_refl). unfold JS.finite in Hf.
      by destruct (JS.to_number (GameState.score s)) as [| | |].
  - pose proof (Hro s) as Hs1.
    destruct (algorithm s) as [s1 [[x y]|]] eqn:Ha; [|done].
    cbn [fst] in Hs1. subst s1.
    destruct (IH _ _ Hrun) as (Ht & Hs & Hh & Hz & Hlh & Hlz).
    pose proof (simulateTurn_humansAlive_le s x y).
    pose proof (simulateTurn_zombiesAlive_le s x y).
    rewrite simulateTurn_humans, !length_fmap in Hlh.
    rewrite simulateTurn_zombies, !length_fmap in Hlz.
    unfold zombiesMoved in Hlz. cbn [jsonCopy GameState.zombies] in Hlz.
    rewrite !length_fmap in Hlz.
    split; [|split; [|repeat split; try done; lia]].
    + intros t Ht0 Htn Hturn.
      replace (t + Z.of_nat (S n)) with (t + 1 + Z.of_nat n) by lia.
      apply Ht; [lia|lia|].
      rewrite simulateTurn_turn, Hturn, json_lit by lia.
      cbn [JS.to_number]. by rewrite add_lit by lia.
    + intros Hv Hf.
      destruct (simulateTurn_score_le s x y Hv) as [Hle Hv1].
      { apply (Hf 0%nat); [lia|done]. }
      eapply le_trans; [exact Hle|]. apply Hs; [done|].
      intros k sk Hk Hsk. apply (Hf (S k)); [lia|].
      cbn [ticks]. by rewrite Ha.
Qed.

Lemma ticks_invariants_witness :
  GameState.turn (turns [(JS.Num (JS.lit 8000), JS.Num (JS.lit 8500))]
                    (level1 plain)) = JS.lit (0 + Z.of_nat 1).
Proof.
  apply (proj1 (ticks_invariants toFirstHuman 1 ltac:(by intros s)
                  (level1 plain)
                  (turns [(JS.Num (JS.lit 8000), JS.Num (JS.lit 8500))]
                     (level1 plain))
                  eq_refl) 0); [lia|lia|reflexivity].
Defined.

(** A run of the strategy that walks to the first human, on level 1. *)
Example ticks_level1 :
  (GameState.turn <$> ticks toFirstHuman 3 (level1 plain))
  = Some (JS.Num (JS.lit 3)) /\
  (GameState.score <$> ticks toFirstHuman 3 (level1 plain))
  = Some (JS.Num (JS.lit 0)).
Proof. vm_compute. split; reflexivity. Qed.

(** ** The JSON copy *)

Lemma jsonHuman_finite h :
  JS.finite (Human.x (jsonHuman h)) = true /\
  JS.finite (Human.y (jsonHuman h)) = true.
Proof. split; apply json_finite. Qed.

(** X7: both lists of humans that [simulateTurn] hands to
    [findClosestHuman] (the copy of the input for the move, the humans
    after the meal for the projected positions) hold finite coordinates
    only, whatever the input state; and so does the state it returns. *)
Theorem simulateTurn_humans_finite (s : GameState.t) (tx ty : JS.value) :
  finiteHumans (GameState.humans (jsonCopy s)) /\
  finiteHumans (GameState.humans (simulateTurn s tx ty)).
Proof.
  split.
  - intros j h Hj _. cbn [jsonCopy GameState.humans] in Hj.
    rewrite list_lookup_fmap in Hj.
    destruct (GameState.humans s !! j) as [h0|]; [|done].
    injection Hj as <-. apply jsonHuman_finite.
  - intros j h Hj _. rewrite simulateTurn_humans, !list_lookup_fmap in Hj.
    destruct (GameState.humans s !! j) as [h0|]; [|done].
    injection Hj as <-. apply jsonHuman_finite.
Qed.

(** X8: copying a state through JSON a second time changes nothing, so a
    state that was copied before it is given to [simulateTurn] (as
    [runTestCase] does with the scenario) gives the same result as the
    state itself. *)
Theorem simulateTurn_of_copy (s : GameState.t) (tx ty : JS.value) :
  jsonCopy (jsonCopy s) = jsonCopy s /\
  simulateTurn (jsonCopy s) tx ty = simulateTurn s tx ty.
Proof.
  split; [apply jsonCopy_jsonCopy|].
  unfold simulateTurn. by rewrite jsonCopy_jsonCopy.
Qed.

(** ** The nearest target, again *)

Lemma closestFrom_ext z z' hs c m :
  Zombie.x z' = Zombie.x z -> Zombie.y z' = Zombie.y z ->
  closestFrom z' hs c m = closestFrom z hs c m.
Proof.
  intros Hx Hy. revert c m. induction hs as [|h hs IH]; intros c m; [done|].
  cbn [closestFrom]. rewrite Hx, Hy.
  destruct (negb (Human.alive h)); [apply IH|].
  destruct (JS.lt _ m); apply IH.
Qed.

Lemma findClosestHuman_ext z z' hs r :
  Zombie.x z' = Zombie.x z -> Zombie.y z' = Zombie.y z ->
  findClosestHuman z' hs r = findClosestHuman z hs r.
Proof.
  intros Hx Hy. unfold findClosestHuman. rewrite Hx, Hy.
  by apply closestFrom_ext.
Qed.

Lemma closestFrom_aliveOnly z hs c m :
  closestFrom z (aliveOnly hs) c m = closestFrom z hs c m.
Proof.
  unfold aliveOnly. revert c m. induction hs as [|h hs IH]; intros c m; [done|].
  rewrite filter_cons. cbn [closestFrom].
  destruct (Human.alive h) eqn:Ha; cbn [negb].
  - rewrite decide_True by done. cbn [closestFrom]. rewrite Ha. cbn [negb].
    destruct (JS.lt _ m); apply IH.
  - rewrite decide_False by done. apply IH.
Qed.

Lemma closestFrom_member z hs c m :
  closestFrom z hs c m = c \/
  exists i h, hs !! i = Some h /\ Human.alive h = true /\
    closestFrom z hs c m = Point.mk (Human.x h) (Human.y h).
Proof.
  revert c m. induction hs as [|h hs IH]; intros c m; [by left|].
  cbn [closestFrom].
  assert (Hshift : forall c' m',
    (closestFrom z hs c' m' = c' \/
     exists i h0, hs !! i = Some h0 /\ Human.alive h0 = true /\
       closestFrom z hs c' m' = Point.mk (Human.x h0) (Human.y h0)) ->
    closestFrom z hs c' m' = c' \/
    exists i h0, (h :: hs) !! i = Some h0 /\ Human.alive h0 = true /\
      closestFrom z hs c' m' = Point.mk (Human.x h0) (Human.y h0)).
  { intros c' m' [Hc|(i & h0 & Hi & Ha & Hr)]; [by left|].
    right. by exists (S i), h0. }
  destruct (Human.alive h) eqn:Ha; cbn [negb]; [|by apply Hshift, IH].
  destruct (JS.lt _ m); [|by apply Hshift, IH].
  destruct (Hshift _ _ (IH (Point.mk (Human.x h) (Human.y h))
              (distance (Zombie.x z) (Zombie.y z) (Human.x h) (Human.y h))))
    as [Hc|Hex]; [|by right].
  right. exists 0%nat, h. by rewrite Hc.
Qed.

(** X9: whatever the coordinates, [findClosestHuman] returns the avatar's
    position or the position of a human of the list that is alive; and
    dead humans are invisible to it: the result is the same on the list
    without them. *)
Theorem findClosestHuman_alive_only
    (zombie : Zombie.t) (humans : list Human.t) (rich : Point.t) :
  (findClosestHuman zombie humans rich = Point.mk (Point.x rich) (Point.y rich)
   \/ exists i h, humans !! i = Some h /\ Human.alive h = true /\
        findClosestHuman zombie humans rich = Point.mk (Human.x h) (Human.y h))
  /\ findClosestHuman zombie (aliveOnly humans) rich
     = findClosestHuman zombie humans rich.
Proof.
  split; unfold findClosestHuman.
  - apply closestFrom_member.
  - apply closestFrom_aliveOnly.
Qed.

(** ** The projected position *)

Lemma afterMeal_jsonHuman zs h :
  jsonHuman (afterMeal zs (jsonHuman h)) = afterMeal zs (jsonHuman h).
Proof. unfold jsonHuman, afterMeal. cbn. by rewrite !json_json. Qed.

Lemma simulateTurn_humans_copied s tx ty :
  jsonHuman <$> GameState.humans (simulateTurn s tx ty)
  = GameState.humans (simulateTurn s tx ty).
Proof.
  rewrite simulateTurn_humans, <- !list_fmap_compose.
  apply list_fmap_ext. intros _ h _. unfold compose.
  apply afterMeal_jsonHuman.
Qed.

(** X10: [xNext] and [yNext] are exact.  For a zombie that is alive after a
    turn, when its coordinates and the avatar's are JSON numbers (finite,
    not minus zero), the position the zombie has after the next turn is
    the projected position recorded in [xNext], [yNext], whatever the
    avatar's next destination (the zombie may well be destroyed
    there). *)
Theorem next_position_is_exact (s : GameState.t) (tx ty tx' ty' : JS.value)
    (i : nat) (z1 : Zombie.t) :
  let s1 := simulateTurn s tx ty in
  GameState.zombies s1 !! i = Some z1 ->
  Zombie.alive z1 = true ->
  JS.json_stable (Zombie.x z1) = true ->
  JS.json_stable (Zombie.y z1) = true ->
  pointJsonStable (GameState.rich s1) = true ->
  exists z2, GameState.zombies (simulateTurn s1 tx' ty') !! i = Some z2 /\
    Zombie.x z2 = Zombie.xNext z1 /\ Zombie.y z2 = Zombie.yNext z1.
Proof.
  intros s1 Hz1 Ha Hx Hy Hr.
  eexists. split; [by apply simulateTurn_zombie_at|].
  set (hs1 := GameState.humans s1) in *. set (r1 := GameState.rich s1) in *.
  match goal with |- context [nextZombie ?a ?b ?c] =>
    destruct (nextZombie_keeps a b c) as (_ & -> & -> & _) end.
  match goal with |- context [destroyOne ?b ?c] =>
    destruct (destroyOne_keeps b c) as (_ & -> & -> & _) end.
  cbn [jsonCopy GameState.humans GameState.rich].
  fold s1 hs1 r1.
  assert (Hhs : jsonHuman <$> hs1 = hs1) by apply simulateTurn_humans_copied.
  assert (Hr1 : jsonPoint r1 = r1).
  { unfold pointJsonStable in Hr. apply andb_true_iff in Hr as [Hrx Hry].
    unfold jsonPoint. rewrite !json_stable_id by done. by destruct r1. }
  rewrite Hhs, Hr1.
  unfold moveZombie. cbn [jsonZombie Zombie.alive Zombie.x Zombie.y].
  rewrite Ha. cbn [negb Zombie.x Zombie.y].
  rewrite !json_stable_id by done.
  (* the record of [z1] was written by the last loop of the turn *)
  assert (Hz3 : exists z3, z1 = nextZombie hs1 r1 z3).
  { pose proof Hz1 as H. subst s1.
    rewrite simulateTurn_zombies, list_lookup_fmap in H.
    destruct ((destroyOne (richMoved s tx ty) <$> zombiesMoved s) !! i)
      as [z3|]; [|done].
    injection H as H. by exists z3. }
  destruct Hz3 as (z3 & ->).
  assert (Ha3 : Zombie.alive z3 = true).
  { rewrite <- Ha. symmetry. apply nextZombie_keeps. }
  destruct (nextZombie_keeps hs1 r1 z3) as (_ & Hx3 & Hy3 & _).
  rewrite Hx3 in Hx. rewrite Hy3 in Hy.
  unfold nextZombie. rewrite Ha3.
  cbn [negb Zombie.x Zombie.y Zombie.xNext Zombie.yNext].
  set (zc := jsonZombie _).
  rewrite (findClosestHuman_ext z3 zc hs1 r1); [done|..];
    subst zc; cbn [jsonZombie Zombie.x Zombie.y]; by apply json_stable_id.
Qed.

Lemma next_position_is_exact_witness :
  exists z1 z2,
    GameState.zombies level1Started !! 0%nat = Some z1 /\
    GameState.zombies (simulateTurn level1Started (JS.lit 0) (JS.lit 0)) !! 0%nat
    = Some z2 /\
    Zombie.x z2 = Zombie.xNext z1 /\ Zombie.y z2 = Zombie.yNext z1.
Proof.
  assert (H1 : exists z1,
            GameState.zombies level1Started !! 0%nat = Some z1 /\
            Zombie.alive z1 = true /\
            JS.json_stable (Zombie.x z1) = true /\
            JS.json_stable (Zombie.y z1) = true)
    by (eexists; vm_compute; repeat split; reflexivity).
  destruct H1 as (z1 & Hz1 & Ha & Hx & Hy).
  destruct (next_position_is_exact (level1 plain) (JS.lit 8000) (JS.lit 8500)
              (JS.lit 0) (JS.lit 0) 0%nat z1 Hz1 Ha Hx Hy)
    as (z2 & Hz2 & Hxy); [vm_compute; reflexivity|].
  exists z1, z2. split; [exact Hz1|]. split; [exact Hz2|exact Hxy].
Defined.

(** ** Staying in place *)

Lemma sub_self n : finite_number n -> JS.sub n n = S754_zero false.
Proof.
  destruct n as [[]| | |s m e]; try done. intros _.
  unfold JS.sub, SFsub. by rewrite Z.sub_diag.
Qed.

Lemma distance_self x y :
  JS.finite x = true -> JS.finite y = true ->
  distance x y x y = S754_zero false.
Proof.
  intros Hx Hy. unfold distance.
  by rewrite !sub_self by by apply finite_to_number.
Qed.

(** X11: a move from a point with finite coordinates to that same point, with
    a speed that is not negative, returns the point: the distance is 0,
    nothing is divided by it. *)
Theorem moveTowards_stays (x y : JS.value) (speed : JS.number) :
  JS.finite x = true -> JS.finite y = true ->
  JS.le (JS.lit 0) speed = true ->
  moveTowards x y x y speed = Point.mk x y.
Proof.
  intros Hx Hy Hs. unfold moveTowards. rewrite distance_self by done.
  change (S754_zero false) with (JS.lit 0). by rewrite Hs.
Qed.

Lemma moveTowards_stays_witness :
  moveTowards (JS.lit 8000) JS.Null (JS.lit 8000) JS.Null RICH_SPEED
  = Point.mk (JS.lit 8000) JS.Null.
Proof.
  apply (moveTowards_stays (JS.lit 8000) JS.Null RICH_SPEED); reflexivity.
Defined.

(** ** The avatar's picture *)

Lemma pixel_index (j r : nat) : (r < 4)%nat ->
  ((4 * j + r) / 4 * 4 = 4 * j)%nat /\ ((4 * j + r) mod 4 = r)%nat.
Proof.
  intros Hr. replace (4 * j + r)%nat with (r + j * 4)%nat by lia.
  rewrite Nat.div_add by lia. rewrite Nat.Div0.mod_add.
  rewrite Nat.div_small, Nat.mod_small by lia. lia.
Qed.

Lemma whitened_colour data (j r : nat) : (r < 3)%nat ->
  whitened data (4 * j + r) = data !! (4 * j + r)%nat.
Proof.
  intros Hr. unfold whitened, alphaByte.
  destruct (pixel_index j r ltac:(lia)) as [_ ->].
  destruct (data !! _); [|done].
  by replace (r =? 3)%nat with false by (symmetry; apply Nat.eqb_neq; lia).
Qed.

Lemma whitened_alpha data (j : nat) :
  whitened data (4 * j + 3) =
  match data !! (4 * j + 3)%nat with
  | Some v => Some (if above240 (data !! (4 * j)%nat)
                       && above240 (data !! (4 * j + 1)%nat)
                       && above240 (data !! (4 * j + 2)%nat) then 0 else v)
  | None => None
  end.
Proof.
  unfold whitened, alphaByte, nearlyWhite.
  destruct (pixel_index j 3 ltac:(lia)) as [-> ->]. done.
Qed.

Lemma whitenLoop_spec data fuel : forall (j : nat) d,
  length d = length data ->
  (forall k, d !! k = if (k <? 4 * j)%nat then whitened data k else data !! k) ->
  (length data + 4 <= 4 * (j + fuel))%nat -> (0 < fuel)%nat ->
  exists d', whitenLoop fuel (4 * j) d = Some d' /\
    length d' = length data /\
    forall k, d' !! k = whitened data k.
Proof.
  induction fuel as [|fuel IH]; intros j d Hlen Hinv Hfuel Hpos; [lia|].
  cbn [whitenLoop]. rewrite Hlen.
  destruct (Nat.ltb_spec (4 * j) (length data)) as [Hin|Hout].
  - assert (Hr : forall r, d !! (4 * j + r)%nat = data !! (4 * j + r)%nat).
    { intros r. rewrite Hinv.
      by replace (4 * j + r <? 4 * j)%nat with false
        by (symmetry; apply Nat.ltb_ge; lia). }
    pose proof (Hr 0%nat) as H0. rewrite Nat.add_0_r in H0.
    rewrite H0, !Hr.
    replace (4 * j + 4)%nat with (4 * S j)%nat by lia.
    destruct (above240 (data !! (4 * j)%nat)
              && above240 (data !! (4 * j + 1)%nat)
              && above240 (data !! (4 * j + 2)%nat)) eqn:Hw.
    + apply IH; [by rewrite length_insert| |lia|lia].
      intros k.
      destruct (Nat.ltb_spec k (4 * S j)) as [Hk|Hk].
      * destruct (decide (k = 4 * j + 3)%nat) as [->|Hne].
        -- rewrite whitened_alpha, Hw.
           destruct (data !! (4 * j + 3)%nat) as [v|] eqn:Hv.
           ++ apply list_lookup_insert_eq. rewrite Hlen.
              by apply lookup_lt_Some in Hv.
           ++ apply lookup_ge_None. rewrite length_insert, Hlen.
              by apply lookup_ge_None in Hv.
        -- rewrite list_lookup_insert_ne by lia.
           destruct (Nat.ltb_spec k (4 * j)) as [Hlt|Hge].
           ++ rewrite Hinv.
              by replace (k <? 4 * j)%nat with true
                by (symmetry; apply Nat.ltb_lt; lia).
           ++ replace k with (4 * j + (k - 4 * j))%nat by lia.
              rewrite whitened_colour by lia. apply Hr.
      * rewrite list_lookup_insert_ne by lia. rewrite Hinv.
        by replace (k <? 4 * j)%nat with false
          by (symmetry; apply Nat.ltb_ge; lia).
    + apply IH; [done| |lia|lia].
      intros k.
      destruct (Nat.ltb_spec k (4 * S j)) as [Hk|Hk].
      * destruct (Nat.ltb_spec k (4 * j)) as [Hlt|Hge].
        -- rewrite Hinv.
           by replace (k <? 4 * j)%nat with true
             by (symmetry; apply Nat.ltb_lt; lia).
        -- destruct (decide (k = 4 * j + 3)%nat) as [->|Hne].
           ++ rewrite whitened_alpha, Hw, Hr.
              by destruct (data !! (4 * j + 3)%nat).
           ++ replace k with (4 * j + (k - 4 * j))%nat by lia.
              rewrite whitened_colour by lia. apply Hr.
      * rewrite Hinv.
        by replace (k <? 4 * j)%nat with false
          by (symmetry; apply Nat.ltb_ge; lia).
  - exists d. split; [done|]. split; [done|].
    intros k. rewrite Hinv.
    destruct (Nat.ltb_spec k (4 * j)) as [Hlt|Hge]; [done|].
    unfold whitened. by rewrite (lookup_ge_None_2 data k) by lia.
Qed.

(** X12: the loop over the picture returns (a quarter of the length plus two
    iterations are enough), keeps the length of the array and every
    colour byte, and changes an alpha byte only to clear it, which it
    does exactly for the pixels whose red, green and blue are all above
    240. *)
Theorem makeWhiteTransparent_spec (fuel : nat) (data : list Z) :
  (length data / 4 + 1 < fuel)%nat ->
  exists result, makeWhiteTransparent fuel data = Some result /\
    length result = length data /\
    forall k v, data !! k = Some v ->
      result !! k = Some (if alphaByte k && nearlyWhite data k then 0 else v).
Proof.
  intros Hfuel.
  destruct (whitenLoop_spec data fuel 0 data) as (d' & Hrun & Hlen & Hall);
    [done|done| |lia|].
  { pose proof (Nat.div_mod_eq (length data) 4).
    pose proof (Nat.mod_upper_bound (length data) 4). lia. }
  exists d'. split; [exact Hrun|]. split; [done|].
  intros k v Hk. rewrite Hall. unfold whitened. by rewrite Hk.
Qed.

Lemma makeWhiteTransparent_spec_witness :
  exists result,
    makeWhiteTransparent 4 [255; 250; 241; 255; 255; 240; 255; 200; 7] = Some result /\
    length result = 9%nat /\
    forall k v, [255; 250; 241; 255; 255; 240; 255; 200; 7] !! k = Some v ->
      result !! k =
      Some (if alphaByte k
               && nearlyWhite [255; 250; 241; 255; 255; 240; 255; 200; 7] k
            then 0 else v).
Proof.
  apply (makeWhiteTransparent_spec 4 [255; 250; 241; 255; 255; 240; 255; 200; 7]).
  vm_compute. lia.
Defined.

Example makeWhiteTransparent_run :
  makeWhiteTransparent 4 [255; 250; 241; 255; 255; 240; 255; 200; 7]
  = Some [255; 250; 241; 0; 255; 240; 255; 200; 7].
Proof. reflexivity. Qed.

(** ** The test script *)

Section TestScript.

Local Ltac compare_cases a b c :=
  unfold JS.lt, JS.le, SFltb, SFleb, SFcompare, JS.is_nan;
  destruct a as [[]|[]| |[] ? ?], b as [[]|[]| |[] ? ?], c as [[]|[]| |[] ? ?];
  try discriminate; try reflexivity;
  rewrite ?compare_cont_Eq; intros; rewrite ?compare_cont_Eq in *;
  repeat match goal with
  | |- context [Z.compare ?a ?b] => destruct (Z.compare_spec a b)
  | H : context [Z.compare ?a ?b] |- _ => destruct (Z.compare_spec a b)
  | |- context [Pos.compare ?a ?b] => destruct (Pos.compare_spec a b)
  | H : context [Pos.compare ?a ?b] |- _ => destruct (Pos.compare_spec a b)
  end; subst; cbn in *;
  try discriminate; try reflexivity; try lia.

Lemma lt_asym a b : JS.lt a b = true -> JS.lt b a = false.
Proof.
  unfold JS.lt, SFltb, SFcompare.
  destruct a as [[]|[]| |[] ? ?], b as [[]|[]| |[] ? ?];
    try discriminate; try reflexivity;
    rewrite ?compare_cont_Eq; intros; rewrite ?compare_cont_Eq in *;
    repeat match goal with
    | |- context [Z.compare ?a ?b] => destruct (Z.compare_spec a b)
    | H : context [Z.compare ?a ?b] |- _ => destruct (Z.compare_spec a b)
    | |- context [Pos.compare ?a ?b] => destruct (Pos.compare_spec a b)
    | H : context [Pos.compare ?a ?b] |- _ => destruct (Pos.compare_spec a b)
    end; subst; cbn in *;
    try discriminate; try reflexivity; try lia.
Qed.

Lemma lt_irrefl a : JS.lt a a = false.
Proof. destruct (JS.lt a a) eqn:E; [|done]. by rewrite (lt_asym _ _ E) in E. Qed.

Lemma le_not_lt_trans r m k :
  JS.le r m = true -> JS.lt k m = false -> JS.is_nan k = false ->
  JS.le r k = true.
Proof. compare_cases r m k. Qed.

Lemma sub_finite_not_nan a b :
  JS.is_nan a = false -> finite_number b -> JS.is_nan (JS.sub a b) = false.
Proof.
  destruct a as [[]|[]| |sa ma ea], b as [[]| | |sb mb eb]; try done.
  intros _ _. apply binary_normalize_not_nan.
Qed.

Lemma div_finite_not_nan a sb mb eb :
  JS.is_nan a = false -> JS.is_nan (JS.div a (S754_finite sb mb eb)) = false.
Proof.
  destruct a as [sa|sa| |sa ma ea]; try done. intros _.
  unfold JS.div, SFdiv, SFdiv_core_binary.
  match goal with |- context [Z.div_eucl ?a ?b] =>
    assert (Hq : 0 <= a / b);
    [ apply Z.div_pos; [|lia];
      match goal with |- 0 <= match ?s with _ => _ end =>
        destruct s; [lia| |lia] end;
      apply Z.shiftl_nonneg; lia
    | unfold Z.div in Hq; destruct (Z.div_eucl a b) as [q r] ]
  end.
  match goal with |- context [binary_round_aux _ _ ?s ?m ?e ?l] =>
    pose proof (binary_round_aux_signed s m e l Hq) as H;
    by destruct (binary_round_aux _ _ s m e l) end.
Qed.

Lemma floor_not_nan a : JS.is_nan a = false -> JS.is_nan (JS.floor a) = false.
Proof.
  destruct a as [sa|sa| |sa ma ea]; try done. intros _. cbn [JS.floor].
  destruct (0 <=? ea); [done|]. apply binary_normalize_not_nan.
Qed.

Lemma turnsToKillHuman_not_nan z h :
  JS.is_nan (JS.to_number (Zombie.x z)) = false ->
  JS.is_nan (JS.to_number (Zombie.y z)) = false ->
  JS.finite (Human.x h) = true -> JS.finite (Human.y h) = true ->
  JS.is_nan (turnsToKillHuman z h) = false.
Proof.
  intros. unfold turnsToKillHuman.
  apply floor_not_nan.
  replace (JS.lit 400) with (S754_finite false 7036874417766400 (-44))
    by (vm_compute; reflexivity).
  apply div_finite_not_nan, sub_finite_not_nan; [|done].
  by apply distance_not_nan.
Qed.

(** The inner loop returns the first zombie with the least number of
    turns, if that number is below the bound it started from. *)
Lemma threatLoop_spec zs h m t :
  (forall z, z ∈ zs -> JS.is_nan (turnsToKillHuman z h) = false) ->
  (threatLoop zs h m t = (m, t) /\
     forall z, z ∈ zs -> JS.lt (turnsToKillHuman z h) m = false)
  \/ (exists z, z ∈ zs /\
        threatLoop zs h m t = (turnsToKillHuman z h, Some z) /\
        JS.lt (turnsToKillHuman z h) m = true /\
        forall z', z' ∈ zs ->
          JS.lt (turnsToKillHuman z' h) (turnsToKillHuman z h) = false).
Proof.
  revert m t. induction zs as [|z0 rest IH]; intros m t Hnan.
  { left. split; [done|]. intros z Hz. by apply elem_of_nil in Hz. }
  assert (Hrest : forall z, z ∈ rest ->
            JS.is_nan (turnsToKillHuman z h) = false)
    by (intros z Hz; apply Hnan; by right).
  cbn [threatLoop].
  destruct (JS.lt (turnsToKillHuman z0 h) m) eqn:Hlt.
  - right.
    destruct (IH (turnsToKillHuman z0 h) (Some z0) Hrest)
      as [[-> Hall]|(z & Hz & -> & Hzlt & Hall)].
    + exists z0. repeat split; [by left|done|].
      intros z' [->|Hz']%elem_of_cons; [apply lt_irrefl|by apply Hall].
    + exists z. repeat split; [by right|by eapply lt_trans|].
      intros z' [->|Hz']%elem_of_cons; [by apply lt_asym|by apply Hall].
  - destruct (IH m t Hrest) as [[-> Hall]|(z & Hz & -> & Hzlt & Hall)].
    + left. split; [done|].
      intros z [->|Hz]%elem_of_cons; [done|by apply Hall].
    + right. exists z. repeat split; [by right|done|].
      intros z' [->|Hz']%elem_of_cons; [|by apply Hall].
      apply lt_asym. eapply lt_not_lt_trans; [done..|].
      apply Hnan. by left.
Qed.

(** What the outer loop tests on a human is [saveable]. *)
Lemma threatLoop_saveable rich zs h :
  (forall z, z ∈ zs -> JS.is_nan (turnsToKillHuman z h) = false) ->
  match threatLoop zs h Infinity None with
  | (m, Some _) => JS.le (turnsToReachHuman rich h) m
  | (_, None) => false
  end = saveable rich zs h.
Proof.
  intros Hnan. unfold saveable.
  destruct (threatLoop_spec zs h Infinity None Hnan)
    as [[-> Hall]|(z & Hz & -> & Hzlt & Hall)].
  - symmetry. apply andb_false_iff. left.
    apply not_true_is_false. intros (z & Hz & Hlt)%existsb_exists.
    apply list_elem_of_In in Hz. by rewrite Hall in Hlt.
  - assert (He : existsb (fun z => JS.lt (turnsToKillHuman z h) Infinity) zs
                 = true).
    { apply existsb_exists. exists z. split; [by apply list_elem_of_In|done]. }
    rewrite He, andb_true_l.
    destruct (JS.le (turnsToReachHuman rich h) (turnsToKillHuman z h)) eqn:Hle.
    + symmetry. apply forallb_forall. intros z' Hz'%list_elem_of_In.
      eapply le_not_lt_trans; [done|by apply Hall|by apply Hnan].
    + symmetry. apply not_true_is_false. intros Hall'.
      rewrite forallb_forall in Hall'.
      specialize (Hall' z). rewrite Hle in Hall'.
      by specialize (Hall' (proj1 (list_elem_of_In _ _) Hz)).
Qed.

(** The outer loop returns the first of the nearest saveable humans, if
    it is nearer than the bound the loop started from. *)
Lemma targetLoop_spec rich zs hs md b :
  (forall h z, h ∈ hs -> z ∈ zs -> JS.is_nan (turnsToKillHuman z h) = false) ->
  (forall h, h ∈ hs -> JS.is_nan (distRichToHuman rich h) = false) ->
  (targetLoop rich zs hs md b = b /\
     forall h, h ∈ hs -> saveable rich zs h = true ->
       JS.lt (distRichToHuman rich h) md = false)
  \/ (exists h, h ∈ hs /\ targetLoop rich zs hs md b = Some h /\
        saveable rich zs h = true /\
        JS.lt (distRichToHuman rich h) md = true /\
        forall h', h' ∈ hs -> saveable rich zs h' = true ->
          JS.lt (distRichToHuman rich h') (distRichToHuman rich h) = false).
Proof.
  revert md b. induction hs as [|h0 rest IH]; intros md b Hkill Hdist.
  { left. split; [done|]. intros h Hh. by apply elem_of_nil in Hh. }
  assert (Hkill' : forall h z, h ∈ rest -> z ∈ zs ->
            JS.is_nan (turnsToKillHuman z h) = false)
    by (intros h z Hh; apply Hkill; by right).
  assert (Hdist' : forall h, h ∈ rest ->
            JS.is_nan (distRichToHuman rich h) = false)
    by (intros h Hh; apply Hdist; by right).
  assert (Hstep : targetLoop rich zs (h0 :: rest) md b =
            if saveable rich zs h0 && JS.lt (distRichToHuman rich h0) md
            then targetLoop rich zs rest (distRichToHuman rich h0) (Some h0)
            else targetLoop rich zs rest md b).
  { cbn [targetLoop]. fold (distRichToHuman rich h0).
    rewrite <- (threatLoop_saveable rich zs h0)
      by (intros z Hz; apply Hkill; [by left|done]).
    by destruct (threatLoop zs h0 Infinity None) as [m [t|]]. }
  rewrite Hstep. clear Hstep.
  destruct (saveable rich zs h0) eqn:Hs; cbn [andb].
  - destruct (JS.lt (distRichToHuman rich h0) md) eqn:Hlt.
    + right.
      destruct (IH (distRichToHuman rich h0) (Some h0) Hkill' Hdist')
        as [[-> Hall]|(h & Hh & -> & Hsh & Hhlt & Hall)].
      * exists h0. repeat split; [by left|done..|].
        intros h' [->|Hh']%elem_of_cons; [intros _; apply lt_irrefl|by apply Hall].
      * exists h. repeat split; [by right|done|by eapply lt_trans|].
        intros h' [->|Hh']%elem_of_cons; [intros _; by apply lt_asym|by apply Hall].
    + destruct (IH md b Hkill' Hdist')
        as [[-> Hall]|(h & Hh & -> & Hsh & Hhlt & Hall)].
      * left. split; [done|].
        intros h [->|Hh]%elem_of_cons; [done|by apply Hall].
      * right. exists h. repeat split; [by right|done..|].
        intros h' [->|Hh']%elem_of_cons; [intros _|by apply Hall].
        apply lt_asym. eapply lt_not_lt_trans; [done..|].
        apply Hdist. by left.
  - destruct (IH md b Hkill' Hdist')
      as [[-> Hall]|(h & Hh & -> & Hsh & Hhlt & Hall)].
    + left. split; [done|].
      intros h [->|Hh]%elem_of_cons; [by rewrite Hs|by apply Hall].
    + right. exists h. repeat split; [by right|done..|].
      intros h' [->|Hh']%elem_of_cons; [by rewrite Hs|by apply Hall].
Qed.

(** A saveable human is at a finite distance from the avatar. *)
Lemma saveable_near rich zs h :
  saveable rich zs h = true ->
  JS.is_nan (distRichToHuman rich h) = false ->
  JS.lt (distRichToHuman rich h) Infinity = true.
Proof.
  unfold saveable, turnsToReachHuman. fold (distRichToHuman rich h).
  intros [(z & Hz & Hlt)%existsb_exists Hall]%andb_true_iff Hnan.
  rewrite forallb_forall in Hall. specialize (Hall z Hz).
  destruct (turnsToKillHuman z h) as [[]|[]| |[] mk ek]; try done;
    destruct (distRichToHuman rich h) as [[]|[]| |[] m e]; try done;
    by vm_compute in Hall.
Qed.

(** X13: TEST_SCRIPT: without a zombie alive the script returns the avatar's
    own position.  With one, on a state whose coordinates are numbers, it
    throws when no human alive is saveable, and otherwise returns the
    position of a saveable human alive, none of the others being nearer
    to the avatar; it never returns the position of a zombie. *)
Theorem getRichTarget_spec (state : GameState.t) :
  numericState state = true ->
  ((forall z, z ∈ GameState.zombies state -> Zombie.alive z = false) ->
   getRichTarget state
   = Some (Point.mk (Point.x (GameState.rich state))
                    (Point.y (GameState.rich state)))) /\
  ((exists z, z ∈ GameState.zombies state /\ Zombie.alive z = true) ->
   match getRichTarget state with
   | None => forall h, ~ candidate state h
   | Some p =>
       exists h, candidate state h /\
         p = Point.mk (Human.x h) (Human.y h) /\
         forall h', candidate state h' ->
           JS.lt (distRichToHuman (GameState.rich state) h')
                 (distRichToHuman (GameState.rich state) h) = false
   end).
Proof.
  intros Hnum. unfold getRichTarget, candidate.
  set (zs := filter (fun z => Zombie.alive z = true) (GameState.zombies state)).
  set (hs := filter (fun h => Human.alive h = true) (GameState.humans state)).
  split.
  - intros Hdead.
    assert (Hzs : zs = []).
    { apply elem_of_nil_inv. intros z [Ha Hz]%list_elem_of_filter.
      by rewrite (Hdead z Hz) in Ha. }
    by rewrite Hzs.
  - intros (z0 & Hz0 & Ha0).
    assert (Hzs : (length zs =? 0)%nat = false).
    { apply Nat.eqb_neq. intros Hl%nil_length_inv.
      assert (Hin : z0 ∈ zs) by by apply list_elem_of_filter.
      rewrite Hl in Hin. by apply elem_of_nil in Hin. }
    rewrite Hzs.
    unfold numericState in Hnum.
    apply andb_true_iff in Hnum as [Hnum Hry].
    apply andb_true_iff in Hnum as [Hnum Hrx].
    apply andb_true_iff in Hnum as [Hzn Hhn].
    rewrite forallb_forall in Hzn. rewrite forallb_forall in Hhn.
    apply negb_true_iff in Hrx, Hry.
    assert (Hfin : forall h, h ∈ hs ->
              JS.finite (Human.x h) = true /\ JS.finite (Human.y h) = true).
    { intros h [Ha Hh]%list_elem_of_filter.
      specialize (Hhn h (proj1 (list_elem_of_In _ _) Hh)).
      rewrite Ha in Hhn. cbn in Hhn. by apply andb_true_iff in Hhn. }
    assert (Hkill : forall h z, h ∈ hs -> z ∈ zs ->
              JS.is_nan (turnsToKillHuman z h) = false).
    { intros h z Hh [Ha Hz]%list_elem_of_filter.
      destruct (Hfin h Hh) as [Hx Hy].
      specialize (Hzn z (proj1 (list_elem_of_In _ _) Hz)).
      rewrite Ha in Hzn. cbn in Hzn.
      apply andb_true_iff in Hzn as [Hzx%negb_true_iff Hzy%negb_true_iff].
      by apply turnsToKillHuman_not_nan. }
    assert (Hdist : forall h, h ∈ hs ->
              JS.is_nan (distRichToHuman (GameState.rich state) h) = false).
    { intros h Hh. destruct (Hfin h Hh) as [Hx Hy].
      by apply distance_not_nan. }
    destruct (targetLoop_spec (GameState.rich state) zs hs Infinity None
                Hkill Hdist)
      as [[-> Hall]|(h & Hh & -> & Hsh & Hhlt & Hall)].
    + intros h (Hh & Ha & Hs).
      assert (Hin : h ∈ hs) by by apply list_elem_of_filter.
      pose proof (saveable_near _ _ _ Hs (Hdist h Hin)) as Hlt.
      by rewrite (Hall h Hin Hs) in Hlt.
    + exists h. apply list_elem_of_filter in Hh as [Ha Hh].
      repeat split; try done.
      intros h' (Hh' & Ha' & Hs'). apply Hall; [|done].
      by apply list_elem_of_filter.
Qed.

Lemma getRichTarget_spec_witness :
  ((forall z, z ∈ GameState.zombies (level3 plain) -> Zombie.alive z = false) ->
   getRichTarget (level3 plain)
   = Some (Point.mk (Point.x (GameState.rich (level3 plain)))
                    (Point.y (GameState.rich (level3 plain))))) /\
  ((exists z, z ∈ GameState.zombies (level3 plain) /\ Zombie.alive z = true) ->
   match getRichTarget (level3 plain) with
   | None => forall h, ~ candidate (level3 plain) h
   | Some p =>
       exists h, candidate (level3 plain) h /\
         p = Point.mk (Human.x h) (Human.y h) /\
         forall h', candidate (level3 plain) h' ->
           JS.lt (distRichToHuman (GameState.rich (level3 plain)) h')
                 (distRichToHuman (GameState.rich (level3 plain)) h) = false
   end).
Proof.
  apply (getRichTarget_spec (level3 plain)). vm_compute. reflexivity.
Defined.

(** On level 3 the script gives up the nearest human, at (2000, 4500),
    whom a zombie reaches first, and heads for the one at (11000, 6000);
    with a zombie next to the only human, too far to be reached in time,
    it throws. *)
Example getRichTarget_level3 :
  getRichTarget (level3 plain) = Some (Point.mk (JS.lit 11000) (JS.lit 6000)).
Proof. vm_compute. reflexivity. Qed.

Example getRichTarget_throws :
  getRichTarget
    (initialState 0 0 [human plain 0 0 8000 8000] [zombie 0 7900 8000])
  = None.
Proof. vm_compute. reflexivity. Qed.

End TestScript.

(** ** The page: levels and controls *)

Section Page.

Lemma has_add prev i l : has (add prev i) l = has prev l || (l =? i).
Proof.
  unfold add, has.
  destruct (bool_decide (i ∈ prev)) eqn:Hi.
  - apply bool_decide_eq_true in Hi.
    destruct (Z.eqb_spec l i) as [->|Hne]; [|by rewrite orb_false_r].
    by rewrite bool_decide_eq_true_2.
  - destruct (Z.eqb_spec l i) as [->|Hne].
    + rewrite orb_true_r. apply bool_decide_eq_true_2.
      apply elem_of_app. right. by apply list_elem_of_singleton.
    + rewrite orb_false_r. apply bool_decide_ext.
      rewrite elem_of_app, list_elem_of_singleton. tauto.
Qed.

Lemma levelAt_Some i level emoji :
  levelAt i = Some level ->
  0 <= i < 5 /\
  (LevelConfig.testAll level = true <-> i = 4) /\
  (i = 4 -> LevelConfig.createInitialState level emoji = testAll) /\
  GameState.turn (LevelConfig.createInitialState level emoji) = JS.lit 0 /\
  GameState.score (LevelConfig.createInitialState level emoji) = JS.lit 0 /\
  freshScenario (LevelConfig.createInitialState level emoji).
Proof.
  unfold levelAt. destruct (Z.leb_spec 0 i) as [Hi|]; [|done].
  destruct (Z.to_nat i) as [|[|[|[|[|n]]]]] eqn:Hn; cbn; intros [= <-]; cbn;
    repeat split; try lia; try done.
Qed.

Lemma levelAt_range i : 0 <= i < 5 -> exists level, levelAt i = Some level.
Proof.
  intros Hi. unfold levelAt. destruct (Z.leb_spec 0 i); [|lia].
  destruct (Z.to_nat i) as [|[|[|[|[|n]]]]] eqn:Hn; cbn; eauto. lia.
Qed.

(** On a board without humans a turn leaves no human and no victory. *)
Lemma simulateTurn_empty_board g x y :
  GameState.humans g = [] ->
  GameState.humans (simulateTurn g x y) = [] /\
  GameState.won (simulateTurn g x y) = false.
Proof.
  intros Hh.
  assert (Hh' : GameState.humans (simulateTurn g x y) = [])
    by by rewrite simulateTurn_humans, Hh.
  split; [done|].
  pose proof (simulateTurn_outcome g x y) as Ho. cbn zeta in Ho.
  rewrite Hh' in Ho. cbn [countAlive] in Ho.
  replace (countAlive Human.alive []) with 0 in Ho by reflexivity.
  rewrite andb_false_r in Ho. cbn in Ho. congruence.
Qed.

(** The handlers that play a turn touch the board and [isRunning]
    only. *)
Lemma handleStep_levels s :
  App.currentLevel (handleStep s) = App.currentLevel s /\
  App.completedLevels (handleStep s) = App.completedLevels s /\
  App.algorithm (handleStep s) = App.algorithm s.
Proof. unfold handleStep. by repeat case_match. Qed.

Lemma frame_levels s :
  App.currentLevel (frame s) = App.currentLevel s /\
  App.completedLevels (frame s) = App.completedLevels s /\
  App.algorithm (frame s) = App.algorithm s.
Proof. unfold frame, gameLoop. by repeat case_match. Qed.

(** The board after a handler that plays a turn with an algorithm that
    only reads the state: the old one, or the old one after a turn. *)
Lemma handleStep_board s :
  readsOnly s ->
  App.gameState (handleStep s) = App.gameState s \/
  exists x y, App.gameState (handleStep s) = simulateTurn (App.gameState s) x y.
Proof.
  intros Hro. unfold handleStep.
  destruct (App.algorithm s) as [a|] eqn:Ha; [|by left].
  destruct (GameState.gameOver (App.gameState s)); [by left|].
  pose proof (Hro a Ha (App.gameState s)) as H1.
  destruct (a (App.gameState s)) as [g [[x y]|]]; cbn [fst] in H1; subst g;
    [right; by exists x, y|by left].
Qed.

Lemma frame_board s :
  readsOnly s ->
  App.gameState (frame s) = App.gameState s \/
  exists x y, App.gameState (frame s) = simulateTurn (App.gameState s) x y.
Proof.
  intros Hro. unfold frame, gameLoop.
  destruct (App.algorithm s) as [a|] eqn:Ha; [|by left].
  destruct (App.isRunning s); [|by left].
  destruct (GameState.gameOver (App.gameState s)); [by left|].
  pose proof (Hro a Ha (App.gameState s)) as H1.
  destruct (a (App.gameState s)) as [g [[x y]|]]; cbn [fst] in H1; subst g;
    [|by left].
  right. exists x, y. by case_match.
Qed.

Lemma inOrder_ext s s' :
  App.currentLevel s' = App.currentLevel s ->
  App.completedLevels s' = App.completedLevels s ->
  inOrder s -> inOrder s'.
Proof. unfold inOrder. by intros -> ->. Qed.

(** Marking the current level completed keeps the order. *)
Lemma inOrder_add s :
  inOrder s ->
  inOrder (setCompletedLevels (fun prev => add prev (App.currentLevel s)) s).
Proof.
  intros (Hc & Hr & Hlow). unfold inOrder. cbn.
  split; [done|]. split.
  - intros l. rewrite has_add.
    intros [Hl| ->%Z.eqb_eq]%orb_true_iff; [by apply Hr|done].
  - intros l k Hl Hk. rewrite has_add. apply orb_true_iff. left.
    apply (Hlow l k); [|done].
    destruct Hl as [->|Hl]; [by left|].
    rewrite has_add in Hl.
    apply orb_true_iff in Hl as [Hl| ->%Z.eqb_eq]; [by right|by left].
Qed.

Lemma markCompleted_inOrder s : inOrder s -> inOrder (markCompleted s).
Proof.
  intros H. unfold markCompleted. case_match; [|done]. by apply inOrder_add.
Qed.

(** No handler throws, and the page that a handler leaves is in
    order. *)
Lemma handle_inOrder fuel e s :
  fromPage e = true -> inOrder s ->
  handle fuel e s <> Throws /\
  forall s', handle fuel e s = Returns s' -> inOrder s'.
Proof.
  intros He Hs. pose proof Hs as (Hc & Hr & Hlow).
  destruct (levelAt_range _ Hc) as [level Hlevel].
  destruct e as [a|emojis| |emoji|emoji i| |]; cbn [handle].
  - split; [done|]. intros s' [= <-]. by eapply inOrder_ext.
  - unfold handleRun. rewrite Hlevel.
    destruct (App.algorithm s) as [a|] eqn:Ha;
      [|split; [done|by intros s' [= <-]]].
    destruct (LevelConfig.testAll level) eqn:Ht.
    + apply (levelAt_Some _ _ plain) in Hlevel as (_ & Hl & _).
      apply Hl in Ht. unfold runAllTests. rewrite Ha.
      destruct (runTestCases _ _ _) as [results|]; [|done].
      split; [done|]. intros s' [= <-].
      case_match; [|by eapply inOrder_ext].
      apply (inOrder_ext
        (setCompletedLevels (fun prev => add prev (App.currentLevel s)) s));
        [done|cbn; by rewrite Ht|by apply inOrder_add].
    + split; [done|]. intros s' [= <-]. by eapply inOrder_ext.
  - split; [done|]. intros s' [= <-]. by eapply inOrder_ext.
  - unfold handleReset. rewrite Hlevel. split; [done|]. intros s' [= <-].
    by eapply inOrder_ext.
  - unfold handleLevelSelect. cbn in He.
    apply andb_true_iff in He as [Hi1%Z.leb_le Hi2%Z.ltb_lt].
    destruct (canSelect s i) eqn:Hcan; cbn [negb];
      [|split; [done|by intros s' [= <-]]].
    destruct (levelAt_range i) as [li Hli]; [lia|]. rewrite Hli.
    split; [done|]. intros s' [= <-].
    assert (Hnew : inOrder (setCurrentLevel i s)).
    { unfold inOrder. cbn. split; [lia|]. split; [done|].
      intros l k Hl Hk.
      destruct Hl as [->|Hl]; [|apply (Hlow l k); [by right|done]].
      unfold canSelect in Hcan.
      apply orb_true_iff in Hcan as [Hcan|Hcan];
        [apply orb_true_iff in Hcan as [Hcan|Hcan]|].
      - apply (Hlow i k); [left; by apply Z.eqb_eq|done].
      - apply (Hlow i k); [by right|done].
      - apply andb_true_iff in Hcan as [Hi%Z.eqb_eq Hcur].
        destruct (decide (k = App.currentLevel s)) as [->|Hne]; [done|].
        apply (Hlow (App.currentLevel s) k); [by left|lia]. }
    case_match; by eapply inOrder_ext.
  - split; [done|]. intros s' [= <-]. eapply inOrder_ext; [..|done];
      by destruct (handleStep_levels s) as (? & ? & ?).
  - split; [done|]. intros s' [= <-]. eapply inOrder_ext; [..|done];
      by destruct (frame_levels s) as (? & ? & ?).
Qed.

Lemma run_inOrder fuel es : forall s,
  forallb fromPage es = true -> inOrder s ->
  run fuel es s <> Throws /\
  forall s', run fuel es s = Returns s' -> inOrder s'.
Proof.
  induction es as [|e es IH]; intros s Hes Hs;
    [split; [done|by intros s' [= <-]]|].
  cbn [forallb] in Hes. apply andb_true_iff in Hes as [He Hes].
  destruct (handle_inOrder fuel e s He Hs) as [Hthrow Hin].
  cbn [run]. unfold step.
  destruct (handle fuel e s) as [s1| |]; cbn [resultMap]; [|done|done].
  apply IH; [done|]. by apply markCompleted_inOrder, Hin.
Qed.

Lemma initialApp_inOrder emoji : inOrder (initialApp emoji).
Proof.
  unfold inOrder. cbn. split; [lia|]. split; [done|].
  intros l k [->|Hl] Hk; [lia|done].
Qed.

(** With an algorithm that only reads the state, the loop of
    [runTestCase] ends within 201 iterations on every level. *)
Lemma runTestCase_returns fuel algorithm testCase :
  readOnly algorithm -> freshScenario testCase -> (200 < fuel)%nat ->
  exists b, runTestCase fuel (Some algorithm) testCase = Some b.
Proof.
  intros Hro (Ht & Hg & Hw) Hfuel.
  destruct (testLoop_spec 200 algorithm (jsonCopy testCase) fuel 0)
    as (b & Hb & _); try done.
  - by cbn; rewrite Ht.
  - by exists b.
Qed.

Lemma runTestCases_returns fuel algorithm emojis :
  readOnly algorithm -> (200 < fuel)%nat ->
  exists results,
    runTestCases fuel (Some algorithm) (testCases emojis) = Some results.
Proof.
  intros Hro Hfuel. unfold runTestCases, testCases.
  destruct (runTestCase_returns fuel algorithm (level1 (emojis 0%nat)) Hro)
    as [b1 H1]; [done|done|].
  destruct (runTestCase_returns fuel algorithm (level2 (emojis 1%nat)) Hro)
    as [b2 H2]; [done|done|].
  destruct (runTestCase_returns fuel algorithm (level3 (emojis 2%nat)) Hro)
    as [b3 H3]; [done|done|].
  destruct (runTestCase_returns fuel algorithm (level4 (emojis 3%nat)) Hro)
    as [b4 H4]; [done|done|].
  exists [b1; b2; b3; b4]. cbn [mapM]. rewrite H1, H2, H3, H4. done.
Qed.

Lemma markCompleted_board s :
  App.currentLevel (markCompleted s) = App.currentLevel s /\
  App.gameState (markCompleted s) = App.gameState s /\
  App.algorithm (markCompleted s) = App.algorithm s.
Proof. unfold markCompleted. by case_match. Qed.

(** The algorithm of the page is the one that was loaded last. *)
Lemma handle_algorithm fuel e s s' :
  handle fuel e s = Returns s' ->
  App.algorithm s' = App.algorithm s \/
  exists a, e = Load a /\ App.algorithm s' = Some a.
Proof.
  destruct e as [a|emojis| |emoji|emoji i| |]; cbn [handle].
  - intros [= <-]. right. by exists a.
  - unfold handleRun, runAllTests. intros H. left.
    repeat case_match; by simplify_eq.
  - intros [= <-]. by left.
  - unfold handleReset. case_match; [|done]. intros [= <-]. by left.
  - unfold handleLevelSelect. repeat case_match; try done;
      intros [= <-]; by left.
  - intros [= <-]. left. by destruct (handleStep_levels s) as (? & ? & ?).
  - intros [= <-]. left. by destruct (frame_levels s) as (? & ? & ?).
Qed.

Lemma step_readsOnly fuel e s s' :
  loadsReadOnly e -> readsOnly s -> step fuel e s = Returns s' -> readsOnly s'.
Proof.
  unfold step. intros He Hs Hstep.
  destruct (handle fuel e s) as [s1| |] eqn:H1; [|done|done].
  cbn in Hstep. injection Hstep as <-.
  destruct (markCompleted_board s1) as (_ & _ & Ha).
  unfold readsOnly. rewrite Ha.
  destruct (handle_algorithm fuel e s s1 H1) as [->|(a & -> & ->)]; [done|].
  by intros ? [= <-].
Qed.

(** With algorithms that only read the state, a handler returns when
    the fuel allows 201 iterations of the test loop. *)
Lemma handle_returns fuel e s :
  fromPage e = true -> inOrder s -> readsOnly s -> (200 < fuel)%nat ->
  exists s', handle fuel e s = Returns s'.
Proof.
  intros He Hs Hro Hfuel.
  destruct (handle_inOrder fuel e s He Hs) as [Hthrow _].
  destruct (handle fuel e s) as [s'| |] eqn:Hh; [by exists s'|done|].
  exfalso. destruct e as [a|emojis| |emoji|emoji i| |]; cbn [handle] in Hh;
    try done.
  - unfold handleRun, runAllTests in Hh.
    destruct (App.algorithm s) as [a|] eqn:Ha; [|done].
    destruct (runTestCases_returns fuel a emojis (Hro a Ha) Hfuel)
      as [results Hr].
    rewrite Hr in Hh. by repeat case_match.
  - unfold handleReset in Hh. by case_match.
  - unfold handleLevelSelect in Hh. by repeat case_match.
Qed.

Lemma run_returns fuel es : forall s,
  forallb fromPage es = true -> Forall loadsReadOnly es ->
  inOrder s -> readsOnly s -> (200 < fuel)%nat ->
  exists s', run fuel es s = Returns s'.
Proof.
  induction es as [|e es IH]; intros s Hes Hload Hs Hro Hfuel;
    [by exists s|].
  cbn [forallb] in Hes. apply andb_true_iff in Hes as [He Hes].
  apply Forall_cons in Hload as [Hl Hload].
  destruct (handle_returns fuel e s He Hs Hro Hfuel) as [s1 H1].
  destruct (handle_inOrder fuel e s He Hs) as [_ Hin].
  cbn [run].
  assert (Hstep : step fuel e s = Returns (markCompleted s1))
    by (unfold step; by rewrite H1).
  rewrite Hstep. apply IH; try done.
  - by apply markCompleted_inOrder, Hin.
  - by eapply step_readsOnly.
Qed.

Lemma initialApp_readsOnly emoji : readsOnly (initialApp emoji).
Proof. by intros a. Qed.

(** X14: the level list: the levels are taken in order.  Whatever the user
    does with the controls and the entries of the level list and
    whatever the algorithms loaded do, no handler throws, the current
    level is one of the five, every level below it and below a
    completed level is completed, and an entry that can be clicked is
    never drawn as locked.  With algorithms that only read the state,
    every handler returns: the test loops end within 201 iterations. *)
Theorem levels_in_order (fuel : nat) (es : list event)
    (emoji : nat -> string) :
  forallb fromPage es = true ->
  run fuel es (initialApp emoji) <> Throws /\
  (forall s, run fuel es (initialApp emoji) = Returns s ->
     inOrder s /\
     forall index, canClick s index = true -> isUnlocked s index = true) /\
  ((200 < fuel)%nat -> Forall loadsReadOnly es ->
   exists s, run fuel es (initialApp emoji) = Returns s).
Proof.
  intros Hes.
  destruct (run_inOrder fuel es (initialApp emoji) Hes (initialApp_inOrder emoji))
    as [Hthrow Hin].
  split; [done|]. split.
  - intros s Hrun. pose proof (Hin s Hrun) as Hs. split; [done|].
    destruct Hs as (Hc & Hr & Hlow).
    intros index. unfold canClick, isUnlocked.
    destruct (Z.eqb_spec index 0) as [->|H0]; [done|]. cbn [orb].
    destruct (has (App.completedLevels s) index) eqn:Hi; [done|].
    rewrite orb_false_r. cbn [orb].
    intros [->%Z.eqb_eq|[->%Z.eqb_eq Hcur]%andb_true_iff]%orb_true_iff.
    + apply (Hlow (App.currentLevel s)); [by left|lia].
    + by replace (App.currentLevel s + 1 - 1) with (App.currentLevel s) by lia.
  - intros Hfuel Hload.
    apply run_returns; try done; apply initialApp_inOrder.
Qed.

Lemma levels_in_order_witness :
  run 201 [Load testScript; Step; LevelSelect plain 1; Run (fun _ => plain);
           Frame; Reset plain; LevelSelect plain 4] (initialApp plain)
  <> Throws /\
  (forall s,
     run 201 [Load testScript; Step; LevelSelect plain 1; Run (fun _ => plain);
              Frame; Reset plain; LevelSelect plain 4] (initialApp plain)
     = Returns s ->
     inOrder s /\
     forall index, canClick s index = true -> isUnlocked s index = true) /\
  ((200 < 201)%nat ->
   Forall loadsReadOnly
     [Load testScript; Step; LevelSelect plain 1; Run (fun _ => plain);
      Frame; Reset plain; LevelSelect plain 4] ->
   exists s,
     run 201 [Load testScript; Step; LevelSelect plain 1; Run (fun _ => plain);
              Frame; Reset plain; LevelSelect plain 4] (initialApp plain)
     = Returns s).
Proof.
  apply (levels_in_order 201
    [Load testScript; Step; LevelSelect plain 1; Run (fun _ => plain);
     Frame; Reset plain; LevelSelect plain 4] plain).
  vm_compute. reflexivity.
Defined.

(** What a handler does to the board and to the current level, with an
    algorithm that only reads the state. *)
Lemma handle_board fuel e s s' :
  readsOnly s ->
  handle fuel e s = Returns s' ->
  (App.currentLevel s' = App.currentLevel s /\
   (App.gameState s' = App.gameState s \/
    exists x y, App.gameState s' = simulateTurn (App.gameState s) x y))
  \/ (exists level emoji, levelAt (App.currentLevel s') = Some level /\
        App.gameState s' = LevelConfig.createInitialState level emoji).
Proof.
  intros Hro.
  destruct e as [a|emojis| |emoji|emoji i| |]; cbn [handle].
  - intros [= <-]. left. split; [done|by left].
  - unfold handleRun, runAllTests. intros H. left.
    repeat case_match; simplify_eq; split; try done; by left.
  - intros [= <-]. left. split; [done|by left].
  - unfold handleReset. destruct (levelAt (App.currentLevel s)) as [level|] eqn:Hl;
      [|done]. intros [= <-]. right. by exists level, emoji.
  - unfold handleLevelSelect. destruct (canSelect s i); cbn [negb].
    + destruct (levelAt i) as [level|] eqn:Hl; [|done]. intros [= <-].
      right. exists level, emoji. by case_match.
    + intros [= <-]. left. split; [done|by left].
  - intros [= <-]. left. destruct (handleStep_levels s) as (? & ? & ?).
    split; [done|]. by apply handleStep_board.
  - intros [= <-]. left. destruct (frame_levels s) as (? & ? & ?).
    split; [done|]. by apply frame_board.
Qed.

Lemma step_emptyBoard fuel e s s' :
  readsOnly s -> emptyBoard s -> step fuel e s = Returns s' -> emptyBoard s'.
Proof.
  unfold step. intros Hro Hs Hstep.
  destruct (handle fuel e s) as [s1| |] eqn:He; [|done|done]. cbn in Hstep.
  injection Hstep as <-.
  destruct (markCompleted_board s1) as (Hc & Hg & _).
  unfold emptyBoard. rewrite Hc, Hg. intros H4.
  destruct (handle_board fuel e s s1 Hro He)
    as [[Hc1 [Hg1|(x & y & Hg1)]]|(level & emoji & Hl & Hg1)]; rewrite Hg1.
  - apply Hs. congruence.
  - apply simulateTurn_empty_board. apply Hs. congruence.
  - apply (levelAt_Some _ _ emoji) in Hl as (_ & _ & Hl & _).
    by rewrite (Hl H4).
Qed.

(** The turn counter after a turn is 1 or more. *)
Lemma turn_after g x y :
  let turn := JS.to_number (GameState.turn g) in
  let turn' := JS.to_number (GameState.turn (simulateTurn g x y)) in
  JS.binary64 turn = true -> signed false turn ->
  JS.binary64 turn' = true /\ signed false turn' /\
  JS.le (JS.lit 1) turn' = true.
Proof.
  intros turn turn' Hv Hs. subst turn turn'.
  rewrite simulateTurn_turn. cbn [JS.to_number].
  set (t := JS.to_number (JS.json (GameState.turn g))).
  assert (Ht : JS.binary64 t = true /\ signed false t).
  { subst t. destruct (GameState.turn g) as [[[]|[]| |[] m e]|]; done. }
  destruct Ht as [Ht1 Ht2]. split; [|split].
  - by apply add_valid.
  - by apply add_signed.
  - rewrite add_comm. by apply add_ge.
Qed.

Lemma step_freshBoard fuel e s s' :
  readsOnly s -> freshBoard s -> step fuel e s = Returns s' -> freshBoard s'.
Proof.
  unfold step. intros Hro (Hv & Hsg & Hfresh) Hstep.
  destruct (handle fuel e s) as [s1| |] eqn:He; [|done|done]. cbn in Hstep.
  injection Hstep as <-.
  destruct (markCompleted_board s1) as (Hc & Hg & _).
  unfold freshBoard, newBoard. rewrite Hc, Hg.
  destruct (handle_board fuel e s s1 Hro He)
    as [[Hc1 [Hg1|(x & y & Hg1)]]|(level & emoji & Hl & Hg1)]; rewrite Hg1.
  - rewrite Hc1. by repeat split.
  - destruct (turn_after (App.gameState s) x y Hv Hsg) as (H1 & H2 & H3).
    repeat split; try done. by right.
  - pose proof (levelAt_Some _ _ emoji Hl) as (_ & _ & _ & H0 & _).
    rewrite H0. repeat split; try done. left. by exists level, emoji.
Qed.

Lemma initialApp_freshBoard emoji : freshBoard (initialApp emoji).
Proof.
  repeat split; try done. left.
  exists (LevelConfig.mk "Level 1" level1 false), emoji. split; [done|].
  reflexivity.
Qed.

Lemma run_freshBoard fuel es : forall s s',
  Forall loadsReadOnly es -> readsOnly s -> freshBoard s ->
  run fuel es s = Returns s' -> freshBoard s' /\ readsOnly s'.
Proof.
  induction es as [|e es IH]; intros s s' Hload Hro Hs; cbn [run].
  - by intros [= <-].
  - apply Forall_cons in Hload as [Hl Hload].
    destruct (step fuel e s) as [s1| |] eqn:He; [|done|done].
    apply IH; [done|by eapply step_readsOnly|by eapply step_freshBoard].
Qed.

Lemma strict_eq_0 v :
  JS.strict_eq v (JS.lit 0) = true ->
  JS.le (JS.lit 1) (JS.to_number v) = false.
Proof. by destruct v as [[[]|[]| |[] m e]|]. Qed.

(** X15: the Reset button: with algorithms that only read the state, it is
    disabled ([isInitialState]) exactly when the board shown is a new
    board of the current level, whatever happened on the page
    before. *)
Theorem reset_disabled_when_fresh (fuel : nat) (es : list event)
    (emoji : nat -> string) (s : App.t) :
  Forall loadsReadOnly es ->
  run fuel es (initialApp emoji) = Returns s ->
  isInitialState s = true <->
  exists level emoji',
    levelAt (App.currentLevel s) = Some level /\
    App.gameState s = LevelConfig.createInitialState level emoji'.
Proof.
  intros Hload Hrun.
  destruct (run_freshBoard fuel es _ _ Hload (initialApp_readsOnly emoji)
              (initialApp_freshBoard emoji) Hrun)
    as [(Hv & Hsg & Hfresh) _].
  unfold isInitialState. split.
  - intros [[H0 _]%andb_true_iff _]%andb_true_iff.
    destruct Hfresh as [Hnew|Hle]; [done|].
    apply strict_eq_0 in H0. congruence.
  - intros (level & emoji' & Hl & ->).
    unfold levelAt in Hl. destruct (0 <=? App.currentLevel s); [|done].
    destruct (Z.to_nat (App.currentLevel s)) as [|[|[|[|[|n]]]]];
      cbn in Hl; by simplify_eq.
Qed.

Lemma reset_disabled_when_fresh_witness :
  isInitialState
    (App.mk (level1 plain) false (Some toFirstHuman) 0 [] [None; None; None; None])
  = true <->
  exists level emoji',
    levelAt 0 = Some level /\
    level1 plain = LevelConfig.createInitialState level emoji'.
Proof.
  apply (reset_disabled_when_fresh 201
           [Load toFirstHuman; Step; Reset plain] plain
           (App.mk (level1 plain) false (Some toFirstHuman) 0 []
              [None; None; None; None])).
  - by repeat constructor.
  - reflexivity.
Defined.

(** With an algorithm that sets the turn counter back, a board on which
    a turn was played passes for a new one. *)
Example reset_disabled_after_rewind :
  match run 201 [Load rewind; Step] (initialApp plain) with
  | Returns s =>
      isInitialState s = true /\
      GameState.zombies (App.gameState s)
      <> GameState.zombies (jsonCopy (level1 plain))
  | _ => False
  end.
Proof. vm_compute. split; [reflexivity|congruence]. Qed.

(** The only handler that adds to the completed levels is [handleRun] on
    the level "Test All", when every test is won. *)
Lemma handle_completed fuel e s s' :
  handle fuel e s = Returns s' ->
  App.completedLevels s' = App.completedLevels s \/
  exists emojis a results, e = Run emojis /\ App.currentLevel s = 4 /\
    App.algorithm s = Some a /\
    runTestCases fuel (Some a) (testCases emojis) = Some results /\
    forallb id results = true.
Proof.
  destruct e as [a|emojis| |emoji|emoji i| |]; cbn [handle].
  - intros [= <-]. by left.
  - unfold handleRun, runAllTests.
    destruct (App.algorithm s) as [a|] eqn:Ha; [|intros [= <-]; by left].
    destruct (levelAt (App.currentLevel s)) as [level|] eqn:Hl; [|done].
    destruct (LevelConfig.testAll level) eqn:Ht; [|intros [= <-]; by left].
    apply (levelAt_Some _ _ plain) in Hl as (_ & Hl & _). apply Hl in Ht.
    destruct (runTestCases fuel (Some a) (testCases emojis))
      as [results|] eqn:Hr; [|done].
    destruct (forallb id results) eqn:Hall;
      intros [= <-]; [|by left].
    right. by exists emojis, a, results.
  - intros [= <-]. by left.
  - unfold handleReset. case_match; [|done]. intros [= <-]. by left.
  - unfold handleLevelSelect. repeat case_match; try done;
      intros [= <-]; by left.
  - intros [= <-]. left. by destruct (handleStep_levels s) as (? & ? & ?).
  - intros [= <-]. left. by destruct (frame_levels s) as (? & ? & ?).
Qed.

Lemma step_completes_testAll fuel e s s' :
  readsOnly s -> emptyBoard s -> has (App.completedLevels s) 4 = false ->
  step fuel e s = Returns s' -> has (App.completedLevels s') 4 = true ->
  exists emojis a results, e = Run emojis /\ App.currentLevel s = 4 /\
    App.algorithm s = Some a /\
    runTestCases fuel (Some a) (testCases emojis) = Some results /\
    forallb id results = true.
Proof.
  intros Hro Hs H4 Hstep H4'.
  pose proof (step_emptyBoard fuel e s s' Hro Hs Hstep) as Hs'.
  unfold step in Hstep.
  destruct (handle fuel e s) as [s1| |] eqn:He; [|done|done]. cbn in Hstep.
  injection Hstep as <-.
  destruct (markCompleted_board s1) as (Hc & Hg & _).
  assert (H1 : has (App.completedLevels s1) 4 = true).
  { revert H4' Hs'. unfold emptyBoard. rewrite Hc, Hg.
    unfold markCompleted. case_match eqn:Hcond; [|done].
    cbn. rewrite has_add.
    intros [H|H%Z.eqb_eq]%orb_true_iff Hempty; [done|].
    destruct (Hempty (eq_sym H)) as [_ Hw]. rewrite Hw in Hcond.
    by rewrite andb_false_r in Hcond. }
  destruct (handle_completed fuel e s s1 He) as [Heq|H]; [|done].
  rewrite Heq in H1. congruence.
Qed.

Lemma run_testAll fuel es : forall s0 s,
  Forall loadsReadOnly es -> readsOnly s0 ->
  emptyBoard s0 -> has (App.completedLevels s0) 4 = false ->
  run fuel es s0 = Returns s -> has (App.completedLevels s) 4 = true ->
  exists es1 emojis es2 s1 a results,
    es = es1 ++ Run emojis :: es2 /\ run fuel es1 s0 = Returns s1 /\
    App.currentLevel s1 = 4 /\ App.algorithm s1 = Some a /\
    runTestCases fuel (Some a) (testCases emojis) = Some results /\
    forallb id results = true.
Proof.
  induction es as [|e es IH]; intros s0 s Hload Hro Hs0 H4; cbn [run].
  - intros [= <-]. congruence.
  - apply Forall_cons in Hload as [Hl Hload].
    destruct (step fuel e s0) as [s1| |] eqn:He; [|done|done]. intros Hrun H4'.
    destruct (has (App.completedLevels s1) 4) eqn:H1.
    + destruct (step_completes_testAll fuel e s0 s1 Hro Hs0 H4 He H1)
        as (emojis & a & results & -> & Hc & Ha & Hr & Hall).
      by exists [], emojis, es, s0, a, results.
    + destruct (IH s1 s Hload (step_readsOnly _ _ _ _ Hl Hro He)
                  (step_emptyBoard _ _ _ _ Hro Hs0 He) H1 Hrun H4')
        as (es1 & emojis & es2 & s2 & a & results & -> & Hrun1 & Hc & Ha
            & Hr & Hall).
      exists (e :: es1), emojis, es2, s2, a, results. repeat split; try done.
      cbn [run]. by rewrite He.
Qed.

(** X16: with algorithms that only read the state, the level "Test All"
    is marked completed only by a click on Run there, with an algorithm
    that wins each of the four levels; playing turns on its empty board
    never completes it. *)
Theorem testAll_needs_tests (fuel : nat) (es : list event)
    (emoji : nat -> string) :
  Forall loadsReadOnly es ->
  completedAfter fuel es emoji 4 = true ->
  exists es1 emojis es2 s1 a,
    es = es1 ++ Run emojis :: es2 /\
    run fuel es1 (initialApp emoji) = Returns s1 /\
    App.currentLevel s1 = 4 /\ App.algorithm s1 = Some a /\
    forall testCase, testCase ∈ testCases emojis ->
      runTestCase fuel (Some a) testCase = Some true.
Proof.
  intros Hload. unfold completedAfter.
  destruct (run fuel es (initialApp emoji)) as [s| |] eqn:Hrun; [|done|done].
  intros H4.
  destruct (run_testAll fuel es (initialApp emoji) s) as
    (es1 & emojis & es2 & s1 & a & results & -> & Hrun1 & Hc & Ha & Hr & Hall);
    try done.
  exists es1, emojis, es2, s1, a. repeat split; try done.
  intros testCase Hin. unfold runTestCases in Hr.
  apply mapM_Some in Hr.
  apply list_elem_of_lookup in Hin as [i Hi].
  destruct (Forall2_lookup_l _ _ _ _ _ Hr Hi) as (b & Hb & ->).
  f_equal. rewrite forallb_forall in Hall. apply (Hall b).
  apply list_elem_of_In, list_elem_of_lookup. by exists i.
Qed.

Lemma playLevel_loadsReadOnly n next : Forall loadsReadOnly (playLevel n next).
Proof.
  unfold playLevel. constructor; [done|]. apply Forall_app. split.
  - by apply Forall_replicate.
  - by repeat constructor.
Qed.

Lemma testAll_needs_tests_witness :
  exists es1 emojis es2 s1 a,
    wholeGame = es1 ++ Run emojis :: es2 /\
    run 201 es1 (initialApp plain) = Returns s1 /\
    App.currentLevel s1 = 4 /\ App.algorithm s1 = Some a /\
    forall testCase, testCase ∈ testCases emojis ->
      runTestCase 201 (Some a) testCase = Some true.
Proof.
  apply (testAll_needs_tests 201 wholeGame plain).
  - unfold wholeGame. constructor; [by intros s|].
    repeat (apply Forall_app; split; [apply playLevel_loadsReadOnly|]).
    by repeat constructor.
  - vm_compute. reflexivity.
Defined.

(** The session [wholeGame] completes the five levels in order. *)
Example wholeGame_completes :
  resultMap App.completedLevels (run 201 wholeGame (initialApp plain))
  = Returns [0; 1; 2; 3; 4].
Proof. vm_compute. reflexivity. Qed.

(** An algorithm that assigns to the state completes the five levels
    without a click on Run: it marks the board as won, which the turn
    that follows leaves as it is while a human and a zombie are alive;
    on the empty board of "Test All" it throws, and the effect takes
    the board at its word. *)
Example cheat_completes :
  resultMap App.completedLevels (run 201 (cheatedGame cheat) (initialApp plain))
  = Returns [0; 1; 2; 3; 4].
Proof. vm_compute. reflexivity. Qed.

Lemma handle_over fuel e s s' :
  GameState.gameOver (App.gameState s) = true -> keepsBoard e = true ->
  handle fuel e s = Returns s' -> App.gameState s' = App.gameState s.
Proof.
  intros Hover Hk.
  destruct e as [a|emojis| |emoji|emoji i| |]; try done; cbn [handle].
  - by intros [= <-].
  - unfold handleRun, runAllTests. intros H.
    repeat case_match; by simplify_eq.
  - by intros [= <-].
  - intros [= <-]. unfold handleStep. rewrite Hover. by case_match.
  - intros [= <-]. unfold frame, gameLoop. rewrite Hover.
    by repeat case_match.
Qed.

(** X21: a game that is over stays as it is: whatever the user clicks,
    whatever algorithm is loaded and however many animation frames
    pass, the board (positions, score, turn, outcome) does not change
    until Reset or a level is chosen. *)
Theorem board_final_once_over (fuel : nat) (es : list event) (s s' : App.t) :
  GameState.gameOver (App.gameState s) = true ->
  forallb keepsBoard es = true ->
  run fuel es s = Returns s' ->
  App.gameState s' = App.gameState s.
Proof.
  revert s. induction es as [|e es IH]; intros s Hover Hes; cbn [run].
  - by intros [= <-].
  - cbn [forallb] in Hes. apply andb_true_iff in Hes as [He Hes].
    unfold step. destruct (handle fuel e s) as [s1| |] eqn:H1; [|done|done].
    cbn.
    pose proof (handle_over fuel e s s1 Hover He H1) as Hg.
    destruct (markCompleted_board s1) as (_ & Hm & _).
    intros Hrun. rewrite (IH (markCompleted s1)); [congruence| |done|done].
    congruence.
Qed.

Lemma board_final_once_over_witness :
  App.gameState (pageWith cheat lostBoard)
  = App.gameState (pageWith nowhere lostBoard).
Proof.
  apply (board_final_once_over 201
    [Step; Run (fun _ => plain); Frame; Frame; Pause; Load cheat; Step]
    (pageWith nowhere lostBoard) (pageWith cheat lostBoard));
    reflexivity.
Defined.

(** [lostBoard] is what a turn makes of [ambush]. *)
Example ambush_lost :
  simulateTurn ambush (JS.lit 0) (JS.lit 0) = lostBoard.
Proof. vm_compute. reflexivity. Qed.

End Page.

(** ** Cleaning the code that Claude returns *)

Section Markdown.

Import RegExp.

Lemma startsWith_app p s : startsWith p (p ++ s) = Some s.
Proof. induction p as [|a p IH]; [done|]. cbn. by rewrite Z.eqb_refl. Qed.

Lemma startsWith_Some p s s' : startsWith p s = Some s' -> s = p ++ s'.
Proof.
  revert s. induction p as [|a p IH]; intros s; cbn.
  - by intros [= ->].
  - destruct s as [|b s]; [done|].
    destruct (Z.eqb_spec a b) as [->|]; [|done]. intros H. by rewrite (IH s H).
Qed.

Lemma fenced_spec s : fenced s = true <-> exists r, s = fence ++ r.
Proof.
  split.
  - destruct s as [|a [|b [|c r]]]; try done. cbn.
    intros [[->%Z.eqb_eq ->%Z.eqb_eq]%andb_true_iff ->%Z.eqb_eq]%andb_true_iff.
    by exists r.
  - by intros [r ->].
Qed.

Lemma startsWith_fence s :
  startsWith (codeUnits "```") s = if fenced s then Some (drop 3 s) else None.
Proof.
  destruct (fenced s) eqn:Hf.
  - apply fenced_spec in Hf as [r ->]. apply (startsWith_app fence).
  - destruct (startsWith (codeUnits "```") s) as [s'|] eqn:Hs; [|done].
    apply startsWith_Some in Hs. rewrite Hs in Hf. done.
Qed.

Lemma fenced_app s r : fenced s = true -> fenced (s ++ r) = true.
Proof. intros [r' ->]%fenced_spec. apply fenced_spec. exists (r' ++ r). by rewrite <- !app_assoc. Qed.

Lemma hasFence_cons a s : hasFence s = true -> hasFence (a :: s) = true.
Proof. intros H. cbn [hasFence]. rewrite H. apply orb_true_r. Qed.

Lemma hasFence_app_l l s : hasFence s = true -> hasFence (l ++ s) = true.
Proof. induction l as [|a l IH]; [done|]. intros H. by apply hasFence_cons, IH. Qed.

Lemma hasFence_app_r s r : hasFence s = true -> hasFence (s ++ r) = true.
Proof.
  induction s as [|a s IH]; [done|]. cbn [hasFence].
  intros [H|H]%orb_true_iff.
  - change ((a :: s) ++ r) with (a :: (s ++ r)). cbn [hasFence].
    change (a :: (s ++ r)) with ((a :: s) ++ r).
    by rewrite (fenced_app _ r H).
  - apply (hasFence_cons a (s ++ r)). by apply IH.
Qed.

Lemma whiteSpace_not_backtick a : isWhiteSpace a = true -> a <> backtick.
Proof. by intros H ->. Qed.

Lemma fenced_cons_false a s : a <> backtick -> fenced (a :: s) = false.
Proof.
  intros Ha. destruct s as [|b [|c r]]; try done. cbn.
  destruct (Z.eqb_spec a backtick); done.
Qed.

(** [trimStart] and [trimEnd] cut a piece of white space off. *)
Lemma trimStart_suffix s :
  exists l, s = l ++ trimStart s /\ forallb isWhiteSpace l = true.
Proof.
  induction s as [|a s (l & IH & Hl)]; [by exists []|]. cbn [trimStart].
  destruct (isWhiteSpace a) eqn:Ha; [|by exists []].
  exists (a :: l). cbn. rewrite Ha, Hl. split; [by f_equal|done].
Qed.

Lemma trimEnd_prefix s : exists r, s = trimEnd s ++ r.
Proof.
  induction s as [|a s [r IH]]; [by exists []|]. cbn [trimEnd].
  destruct (trimEnd s) as [|b t] eqn:Ht.
  - destruct (isWhiteSpace a); [by exists (a :: s)|].
    exists s. done.
  - exists r. cbn. by rewrite IH at 1.
Qed.

Lemma trimStart_head s :
  match trimStart s with
  | a :: _ => isWhiteSpace a = false
  | [] => True
  end.
Proof.
  induction s as [|a s IH]; [done|]. cbn [trimStart].
  by destruct (isWhiteSpace a) eqn:Ha.
Qed.

Lemma trimStart_white l s :
  forallb isWhiteSpace l = true -> trimStart (l ++ s) = trimStart s.
Proof.
  induction l as [|a l IH]; [done|]. cbn.
  intros [-> Hl]%andb_true_iff. by apply IH.
Qed.

Lemma trimStart_app l a r :
  isWhiteSpace a = false -> trimStart (l ++ a :: r) = trimStart l ++ a :: r.
Proof.
  intros Ha. induction l as [|b l IH]; cbn; [by rewrite Ha|].
  by destruct (isWhiteSpace b).
Qed.

Lemma trimEnd_cons a s :
  trimEnd (a :: s) =
  match trimEnd s with
  | [] => if isWhiteSpace a then [] else [a]
  | t => a :: t
  end.
Proof. reflexivity. Qed.

Lemma trimEnd_idem s : trimEnd (trimEnd s) = trimEnd s.
Proof.
  induction s as [|a s IH]; [done|]. rewrite trimEnd_cons.
  destruct (trimEnd s) as [|b t] eqn:Ht.
  - destruct (isWhiteSpace a) eqn:Ha; [done|]. cbn. by rewrite Ha.
  - by rewrite trimEnd_cons, IH.
Qed.

Lemma trimEnd_head a s :
  isWhiteSpace a = false -> exists t, trimEnd (a :: s) = a :: t.
Proof.
  intros Ha. cbn [trimEnd]. destruct (trimEnd s) as [|b t]; rewrite ?Ha; eauto.
Qed.

Lemma trim_idem s : trim (trim s) = trim s.
Proof.
  unfold trim. pose proof (trimStart_head s) as Hh.
  destruct (trimStart s) as [|a u] eqn:Hu; [done|].
  destruct (trimEnd_head a u Hh) as [t Ht].
  rewrite Ht. cbn [trimStart]. rewrite Hh, <- Ht. apply trimEnd_idem.
Qed.

(** The piece that [trim] keeps. *)
Lemma trim_infix s : exists l r, s = l ++ trim s ++ r.
Proof.
  destruct (trimStart_suffix s) as (l & Hl & _).
  destruct (trimEnd_prefix (trimStart s)) as [r Hr].
  exists l, r. unfold trim. by rewrite <- Hr.
Qed.

Lemma white_noBacktick l : forallb isWhiteSpace l = true -> noBacktick l = true.
Proof.
  unfold noBacktick. induction l as [|a l IH]; [done|]. cbn [forallb].
  intros [Ha Hl]%andb_true_iff. rewrite (IH Hl), andb_true_r.
  apply negb_true_iff, Z.eqb_neq. by apply whiteSpace_not_backtick.
Qed.

Lemma hasFence_noBacktick l s :
  noBacktick l = true -> hasFence (l ++ s) = hasFence s.
Proof.
  induction l as [|a l IH]; [done|]. cbn [noBacktick forallb].
  intros [Ha%negb_true_iff%Z.eqb_neq Hl]%andb_true_iff.
  change ((a :: l) ++ s) with (a :: (l ++ s)). cbn [hasFence].
  rewrite (fenced_cons_false a (l ++ s) Ha). by apply IH.
Qed.

Lemma hasFence_beforeFence s :
  hasFence s = match beforeFence s with Some _ => true | None => false end.
Proof.
  induction s as [|a s IH]; [done|]. cbn [hasFence beforeFence].
  destruct (fenced (a :: s)); [done|]. cbn [orb]. rewrite IH.
  by destruct (beforeFence s).
Qed.

Lemma beforeFence_Some s b :
  beforeFence s = Some b ->
  (exists r, s = b ++ fence ++ r) /\ hasFence b = false.
Proof.
  revert b. induction s as [|a s IH]; intros b; [done|]. cbn [beforeFence].
  destruct (fenced (a :: s)) eqn:Hf.
  - intros [= <-]. split; [|done]. by apply fenced_spec.
  - destruct (beforeFence s) as [b'|] eqn:Hb; [|done]. cbn. intros [= <-].
    destruct (IH b' eq_refl) as [[r Hr] Hno]. split.
    + exists r. cbn. by rewrite Hr at 1.
    + cbn [hasFence]. rewrite Hno, orb_false_r.
      destruct (fenced (a :: b')) eqn:Hf'; [|done].
      apply (fenced_app _ (fence ++ r)) in Hf'.
      change ((a :: b') ++ fence ++ r) with (a :: (b' ++ fence ++ r)) in Hf'.
      rewrite <- Hr in Hf'. congruence.
Qed.

Lemma beforeFence_app b r :
  noBacktick b = true -> beforeFence (b ++ fence ++ r) = Some b.
Proof.
  induction b as [|a b IH]; [done|]. cbn [noBacktick forallb].
  intros [Ha%negb_true_iff%Z.eqb_neq Hb]%andb_true_iff.
  change ((a :: b) ++ fence ++ r) with (a :: (b ++ fence ++ r)).
  cbn [beforeFence]. rewrite (fenced_cons_false a _ Ha).
  fold (noBacktick b) in Hb. by rewrite (IH Hb).
Qed.

(** The two loops of the pattern, followed by the closing fence. *)
Lemma lazyStar_spec pre s :
  lazyStar (fun _ => true)
    (fun s' =>
       matcher (Chars (codeUnits "```")) s'
         (Some (take (length (pre ++ s) - length s') (pre ++ s)))
         (fun _ capture => Some capture)) s
  = (fun b => Some (pre ++ b)) <$> beforeFence s.
Proof.
  revert pre. induction s as [|a s IH]; intros pre.
  - cbn. done.
  - cbn [lazyStar matcher]. rewrite startsWith_fence. cbn [beforeFence].
    destruct (fenced (a :: s)) eqn:Hf.
    + cbn. do 3 f_equal.
      rewrite length_app. cbn [length].
      replace (length pre + S (length s) - S (length s))%nat
        with (length pre) by lia.
      by rewrite take_app_length, app_nil_r.
    + specialize (IH (pre ++ [a])). rewrite <- app_assoc in IH.
      cbn [app] in IH. cbn [matcher] in IH. rewrite IH.
      destruct (beforeFence s) as [b|]; [|done]. cbn.
      by rewrite <- app_assoc.
Qed.

Lemma greedyStar_spec (k : list Z -> option (option (list Z))) s :
  (forall a t, isWhiteSpace a = true -> k t = None -> k (a :: t) = None) ->
  greedyStar isWhiteSpace k s = k (trimStart s).
Proof.
  intros Hk. induction s as [|a s IH]; [done|]. cbn [greedyStar trimStart].
  destruct (isWhiteSpace a) eqn:Ha; [|done]. rewrite IH.
  destruct (k (trimStart s)) as [x|] eqn:Hx; [done|].
  assert (Hwhite : forall l t, forallb isWhiteSpace l = true ->
            k t = None -> k (l ++ t) = None).
  { intros l t. induction l as [|b l IHl]; [done|]. cbn.
    intros [Hb Hw]%andb_true_iff Ht. apply Hk; [done|]. by apply IHl. }
  destruct (trimStart_suffix s) as (l & Hl & Hw).
  rewrite Hl. apply (Hwhite (a :: l)); [|done]. cbn. by rewrite Ha.
Qed.

Local Abbreviation final := (fun (_ : list Z) (capture : option (list Z)) => Some capture).
Local Abbreviation body :=
  (Seq (Group (LazyStar (fun _ => true))) (Chars (codeUnits "```"))).
Local Abbreviation spaces := (Seq (Star isWhiteSpace) body).
Local Abbreviation tag :=
  (Opt (Alt (Chars (codeUnits "javascript")) (Chars (codeUnits "js")))).

Lemma matcher_Seq {R} r1 r2 s capture (k : list Z -> option (list Z) -> option R) :
  matcher (Seq r1 r2) s capture k
  = matcher r1 s capture (fun s' capture' => matcher r2 s' capture' k).
Proof. reflexivity. Qed.

Lemma matcher_Opt {R} r s capture (k : list Z -> option (list Z) -> option R) :
  matcher (Opt r) s capture k
  = match matcher r s capture k with
    | Some x => Some x
    | None => k s capture
    end.
Proof. reflexivity. Qed.

Lemma matcher_Alt {R} r1 r2 s capture (k : list Z -> option (list Z) -> option R) :
  matcher (Alt r1 r2) s capture k
  = match matcher r1 s capture k with
    | Some x => Some x
    | None => matcher r2 s capture k
    end.
Proof. reflexivity. Qed.

Lemma matcher_Chars {R} p s capture (k : list Z -> option (list Z) -> option R) :
  matcher (Chars p) s capture k
  = match startsWith p s with
    | Some s' => k s' capture
    | None => None
    end.
Proof. reflexivity. Qed.

Lemma matcher_body s capture :
  matcher body s capture final = Some <$> beforeFence s.
Proof. exact (lazyStar_spec [] s). Qed.

Lemma matcher_spaces s capture :
  matcher spaces s capture final = Some <$> beforeFence (trimStart s).
Proof.
  change (greedyStar isWhiteSpace (fun s' => matcher body s' capture final) s
          = Some <$> beforeFence (trimStart s)).
  rewrite greedyStar_spec; [apply matcher_body|].
  intros a t Ha. rewrite !matcher_body. cbn [beforeFence].
  rewrite (fenced_cons_false a t (whiteSpace_not_backtick a Ha)).
  by destruct (beforeFence t).
Qed.

Lemma beforeFence_trimStart_None s :
  beforeFence (trimStart s) = None <-> hasFence s = false.
Proof.
  destruct (trimStart_suffix s) as (l & Hl & Hw).
  rewrite Hl at 2. rewrite (hasFence_noBacktick l _ (white_noBacktick l Hw)).
  rewrite hasFence_beforeFence. by destruct (beforeFence (trimStart s)).
Qed.

Lemma matcher_tag s :
  matcher (Seq tag spaces) s None final
  = Some <$> beforeFence (trimStart (stripTag s)).
Proof.
  rewrite matcher_Seq, matcher_Opt, matcher_Alt, !matcher_Chars.
  unfold stripTag.
  assert (Hnone : forall l t, noBacktick l = true ->
            beforeFence (trimStart t) = None ->
            matcher spaces (l ++ t) None final = None).
  { intros l t Hl Ht. rewrite matcher_spaces.
    apply beforeFence_trimStart_None in Ht.
    rewrite <- (hasFence_noBacktick l t Hl) in Ht.
    apply beforeFence_trimStart_None in Ht. by rewrite Ht. }
  destruct (startsWith (codeUnits "javascript") s) as [s2|] eqn:HJ.
  - rewrite matcher_spaces.
    destruct (beforeFence (trimStart s2)) as [b|] eqn:Hb; [done|].
    cbn [fmap option_fmap option_map].
    apply startsWith_Some in HJ. subst s.
    assert (E : startsWith (codeUnits "js") (codeUnits "javascript" ++ s2)
                = None) by reflexivity.
    rewrite E. by rewrite (Hnone (codeUnits "javascript") s2 eq_refl Hb).
  - destruct (startsWith (codeUnits "js") s) as [s2|] eqn:HS.
    + rewrite matcher_spaces.
      destruct (beforeFence (trimStart s2)) as [b|] eqn:Hb; [done|].
    cbn [fmap option_fmap option_map].
      apply startsWith_Some in HS. subst s.
      by rewrite (Hnone (codeUnits "js") s2 eq_refl Hb).
    + apply matcher_spaces.
Qed.

Lemma matcher_codeBlock s :
  matcher codeBlock s None final = Some <$> blockAt s.
Proof.
  unfold codeBlock, blockAt. rewrite matcher_Seq, matcher_Chars.
  rewrite startsWith_fence.
  destruct (fenced s); [|done]. apply matcher_tag.
Qed.

Lemma exec_codeBlock s : exec codeBlock s = Some <$> firstBlock s.
Proof.
  induction s as [|a s IH]; cbn [exec firstBlock]; rewrite matcher_codeBlock.
  - by destruct (blockAt []).
  - destruct (blockAt (a :: s)); [done|]. cbn. apply IH.
Qed.

(** The function, without the pattern: the body of the first code block
    if there is one, the code itself otherwise, trimmed. *)
Lemma cleanCodeFromMarkdown_spec code :
  cleanCodeFromMarkdown code
  = Some (match firstBlock code with
          | Some b => trim b
          | None => trim code
          end).
Proof.
  unfold cleanCodeFromMarkdown. rewrite exec_codeBlock.
  by destruct (firstBlock code).
Qed.

Lemma stripTag_suffix s :
  exists l, s = l ++ stripTag s /\ noBacktick l = true.
Proof.
  unfold stripTag.
  destruct (startsWith (codeUnits "javascript") s) as [s'|] eqn:HJ.
  { apply startsWith_Some in HJ. by exists (codeUnits "javascript"). }
  destruct (startsWith (codeUnits "js") s) as [s'|] eqn:HS.
  { apply startsWith_Some in HS. by exists (codeUnits "js"). }
  by exists [].
Qed.

Lemma blockAt_None s :
  blockAt s = None <-> fenced s && hasFence (drop 3 s) = false.
Proof.
  unfold blockAt. destruct (fenced s); [|done]. cbn [andb].
  rewrite beforeFence_trimStart_None.
  destruct (stripTag_suffix (drop 3 s)) as (l & Hl & Hn).
  rewrite Hl at 2. by rewrite (hasFence_noBacktick l _ Hn).
Qed.

Lemma firstBlock_None s : firstBlock s = None <-> twoFences s = false.
Proof.
  induction s as [|a s IH]; cbn [firstBlock twoFences].
  - pose proof (blockAt_None []) as H. destruct (blockAt []); [|done].
    cbn in H. by destruct H as [_ H].
  - pose proof (blockAt_None (a :: s)) as H.
    destruct (blockAt (a :: s)) as [b|].
    + destruct (fenced (a :: s) && hasFence (drop 3 (a :: s))); [done|].
      destruct H as [_ H]. by specialize (H eq_refl).
    + rewrite (proj1 H eq_refl). cbn [orb]. apply IH.
Qed.

Lemma firstBlock_Some s b : firstBlock s = Some b -> hasFence b = false.
Proof.
  induction s as [|a s IH]; cbn [firstBlock].
  - destruct (blockAt []) as [b'|] eqn:Hb; [|done]. by cbn in Hb.
  - destruct (blockAt (a :: s)) as [b'|] eqn:Hb; [|apply IH].
    intros [= ->]. unfold blockAt in Hb. destruct (fenced (a :: s)); [|done].
    by apply beforeFence_Some in Hb as [_ Hb].
Qed.

Lemma twoFences_hasFence s : twoFences s = true -> hasFence s = true.
Proof.
  induction s as [|a s IH]; [done|]. cbn [twoFences hasFence].
  intros [[H _]%andb_true_iff|H]%orb_true_iff; [by rewrite H|].
  rewrite (IH H). apply orb_true_r.
Qed.

Lemma twoFences_infix l s r :
  twoFences s = true -> twoFences (l ++ s ++ r) = true.
Proof.
  intros H. induction l as [|a l IHl].
  - cbn [app]. induction s as [|a s IH]; [done|].
    change ((a :: s) ++ r) with (a :: (s ++ r)).
    cbn [twoFences] in H |- *.
    apply orb_true_iff in H as [[Hf Hh]%andb_true_iff|H].
    + apply orb_true_iff. left. apply andb_true_iff.
      change (a :: (s ++ r)) with ((a :: s) ++ r).
      split; [by apply fenced_app|].
      apply fenced_spec in Hf as [t Ht]. rewrite Ht in Hh |- *.
      rewrite <- app_assoc. cbn in Hh |- *. by apply hasFence_app_r.
    + rewrite (IH H). apply orb_true_r.
  - change ((a :: l) ++ s ++ r) with (a :: (l ++ s ++ r)).
    cbn [twoFences]. rewrite IHl. apply orb_true_r.
Qed.

Lemma hasFence_infix l s r :
  hasFence s = true -> hasFence (l ++ s ++ r) = true.
Proof. intros H. by apply hasFence_app_l, hasFence_app_r. Qed.

(** X17: cleaning twice is cleaning once: [cleanCodeFromMarkdown] returns
    (the capturing group always takes part in a match), and what it
    returns is left as it is by a second call.  The code shown in the
    editor, which was cleaned, is therefore parsed as the answer it came
    from. *)
Theorem cleanCodeFromMarkdown_idempotent (code : list Z) :
  exists clean, cleanCodeFromMarkdown code = Some clean /\
    cleanCodeFromMarkdown clean = Some clean.
Proof.
  rewrite cleanCodeFromMarkdown_spec. eexists. split; [done|].
  rewrite cleanCodeFromMarkdown_spec. f_equal.
  assert (Hnone : forall t, twoFences t = false ->
            match firstBlock (trim t) with
            | Some b => trim b
            | None => trim (trim t)
            end = trim t).
  { intros t Ht.
    assert (H : firstBlock (trim t) = None).
    { apply firstBlock_None. destruct (twoFences (trim t)) eqn:H; [|done].
      destruct (trim_infix t) as (l & r & Hlr).
      apply (twoFences_infix l _ r) in H. rewrite <- Hlr in H. congruence. }
    rewrite H. apply trim_idem. }
  destruct (firstBlock code) as [b|] eqn:Hb.
  - apply Hnone. apply firstBlock_Some in Hb.
    destruct (twoFences b) eqn:H; [|done].
    apply twoFences_hasFence in H. congruence.
  - apply Hnone. by apply firstBlock_None.
Qed.

(** X18: a code in which no fence is followed by another one (no fence at
    all, or a block that is not closed) is only trimmed, its fence
    included. *)
Theorem cleanCodeFromMarkdown_unfenced (code : list Z) :
  twoFences code = false ->
  cleanCodeFromMarkdown code = Some (trim code).
Proof.
  intros H. rewrite cleanCodeFromMarkdown_spec.
  by rewrite (proj2 (firstBlock_None code) H).
Qed.

Lemma cleanCodeFromMarkdown_unfenced_witness :
  cleanCodeFromMarkdown (codeUnits "```js return 1; ")
  = Some (trim (codeUnits "```js return 1; ")).
Proof.
  apply (cleanCodeFromMarkdown_unfenced (codeUnits "```js return 1; ")).
  vm_compute. reflexivity.
Defined.

Lemma firstBlock_skip pre s :
  noBacktick pre = true -> firstBlock (pre ++ s) = firstBlock s.
Proof.
  unfold noBacktick. induction pre as [|a pre IH]; [done|]. cbn [forallb].
  intros [Ha%negb_true_iff%Z.eqb_neq Hpre]%andb_true_iff.
  change ((a :: pre) ++ s) with (a :: (pre ++ s)). cbn [firstBlock].
  unfold blockAt at 1. rewrite (fenced_cons_false a _ Ha). by apply IH.
Qed.

Lemma trimStart_idem s : trimStart (trimStart s) = trimStart s.
Proof.
  pose proof (trimStart_head s) as H.
  destruct (trimStart s) as [|a u]; [done|]. cbn. by rewrite H.
Qed.

Lemma noBacktick_trimStart s :
  noBacktick s = true -> noBacktick (trimStart s) = true.
Proof.
  destruct (trimStart_suffix s) as (l & Hl & _). intros H. rewrite Hl in H.
  unfold noBacktick in *. rewrite forallb_app in H.
  by apply andb_true_iff in H as [_ H].
Qed.

(** X19: the answer the function is written for: some text without
    backticks, an opening fence with or without the tag [js] or
    [javascript], white space, a body without backticks, a closing
    fence, anything.  The result is the body, trimmed. *)
Theorem cleanCodeFromMarkdown_fenced (pre tag ws body post : list Z) :
  noBacktick pre = true ->
  tag = [] \/ tag = codeUnits "js" \/ tag = codeUnits "javascript" ->
  ws <> [] -> forallb isWhiteSpace ws = true ->
  noBacktick body = true ->
  cleanCodeFromMarkdown (pre ++ fence ++ tag ++ ws ++ body ++ fence ++ post)
  = Some (trim body).
Proof.
  intros Hpre Htag Hws Hwhite Hbody.
  rewrite cleanCodeFromMarkdown_spec, (firstBlock_skip pre _ Hpre).
  set (rest := ws ++ body ++ fence ++ post).
  assert (Hstrip : stripTag (tag ++ rest) = rest).
  { destruct Htag as [->|[->| ->]].
    - destruct ws as [|w ws']; [done|]. cbn in Hwhite.
      apply andb_true_iff in Hwhite as [Hw _].
      assert (Hj : (106 =? w) = false).
      { apply Z.eqb_neq. intros <-. by vm_compute in Hw. }
      unfold stripTag, rest.
      change (codeUnits "javascript") with (106 :: codeUnits "avascript").
      change (codeUnits "js") with (106 :: codeUnits "s").
      cbn [app startsWith]. by rewrite Hj.
    - unfold stripTag.
      assert (E : startsWith (codeUnits "javascript") (codeUnits "js" ++ rest)
                  = None) by reflexivity.
      by rewrite E, startsWith_app.
    - unfold stripTag. by rewrite startsWith_app. }
  assert (Hblock : blockAt (fence ++ tag ++ rest) = Some (trimStart body)).
  { unfold blockAt. cbn [fence app fenced drop]. rewrite !Z.eqb_refl. cbn [andb].
    rewrite drop_0, Hstrip. unfold rest.
    rewrite (trimStart_white ws _ Hwhite).
    change (fence ++ post) with (backtick :: (backtick :: backtick :: post)).
    rewrite trimStart_app by done.
    apply (beforeFence_app (trimStart body) post).
    by apply noBacktick_trimStart. }
  assert (Hfirst : firstBlock (fence ++ tag ++ rest) = Some (trimStart body)).
  { destruct (fence ++ tag ++ rest) as [|a u]; cbn [firstBlock];
      by rewrite Hblock. }
  rewrite Hfirst. f_equal. unfold trim. by rewrite trimStart_idem.
Qed.

Lemma cleanCodeFromMarkdown_fenced_witness :
  cleanCodeFromMarkdown
    (codeUnits "Here it is: " ++ fence ++ codeUnits "javascript"
       ++ [10] ++ codeUnits "function getRichTarget(state) { } " ++ fence
       ++ codeUnits " Enjoy!")
  = Some (trim (codeUnits "function getRichTarget(state) { } ")).
Proof.
  apply (cleanCodeFromMarkdown_fenced (codeUnits "Here it is: ")
           (codeUnits "javascript") [10]
           (codeUnits "function getRichTarget(state) { } ")
           (codeUnits " Enjoy!")).
  - vm_compute. reflexivity.
  - right. right. reflexivity.
  - discriminate.
  - vm_compute. reflexivity.
  - vm_compute. reflexivity.
Defined.

(** The tag is matched letter by letter, not as a word: after the fence
    of a block tagged [jsx] the tag [js] is taken and the body starts
    with the letter x. *)
Example cleanCodeFromMarkdown_jsx :
  cleanCodeFromMarkdown (codeUnits "```jsx go() ```")
  = Some (codeUnits "x go()").
Proof. vm_compute. reflexivity. Qed.

End Markdown.

(** ** The distance *)

Section Distance.

Lemma binary_normalize_opp m e :
  m <> 0 ->
  binary_normalize JS.prec JS.emax (- m) e false
  = SFopp (binary_normalize JS.prec JS.emax m e false).
Proof.
  intros Hm. destruct m as [|m|m]; [done| |];
    [change (- Z.pos m) with (Z.neg m)|change (- Z.neg m) with (Z.pos m)];
    unfold binary_normalize, binary_round;
    destruct (shl_align _ _ _) as [mz ez].
  - apply (binary_round_aux_opp false).
  - rewrite (binary_round_aux_opp false).
    by destruct (binary_round_aux _ _ false _ _ _) as [[]|[]| |[] ? ?].
Qed.

Lemma sq_opp v : JS.sq (SFopp v) = JS.sq v.
Proof. by destruct v as [[]|[]| |[] m e]. Qed.

Lemma sq_sub_sym a b : JS.sq (JS.sub a b) = JS.sq (JS.sub b a).
Proof.
  destruct a as [[]|[]| |sa ma ea], b as [[]|[]| |sb mb eb]; try done;
    try (by destruct sa); try (by destruct sb).
  unfold JS.sub, SFsub. rewrite (Z.min_comm eb ea).
  set (A := cond_Zopp sa _). set (B := cond_Zopp sb _).
  destruct (decide (A - B = 0)) as [H0|H0].
  - by replace (B - A) with 0 by lia; rewrite H0.
  - replace (B - A) with (- (A - B)) by lia.
    by rewrite (binary_normalize_opp _ _ H0), sq_opp.
Qed.

Lemma sqrt_signed v : signed false v -> signed false (JS.sqrt v).
Proof.
  destruct v as [s|s| |s m e]; try done; cbn; intros ->; [done|].
  unfold SFsqrt_core_binary.
  match goal with |- context [Z.sqrtrem ?a] =>
    pose proof (Z.sqrtrem_sqrt a) as Hq; pose proof (Z.sqrt_nonneg a) as Hn;
    destruct (Z.sqrtrem a) as [q r] end.
  cbn [fst] in Hq. subst q. by apply binary_round_aux_signed.
Qed.

(** X20: [distance] does not depend on the order of the two points, and it is
    never below zero: it is a number that is not negative, or NaN. *)
Theorem distance_symmetric (x1 y1 x2 y2 : JS.value) :
  distance x1 y1 x2 y2 = distance x2 y2 x1 y1 /\
  JS.lt (distance x1 y1 x2 y2) (JS.lit 0) = false.
Proof.
  split.
  - unfold distance.
    by rewrite (sq_sub_sym (JS.to_number x2)), (sq_sub_sym (JS.to_number y2)).
  - unfold distance.
    set (a := JS.sub _ _). set (b := JS.sub _ _). clearbody a b.
    destruct (JS.is_nan a) eqn:Ha.
    { by destruct a. }
    destruct (JS.is_nan b) eqn:Hb.
    { destruct b; try done; by destruct (JS.sq a). }
    pose proof (sqrt_signed _ (add_signed _ _ (sq_signed a Ha) (sq_signed b Hb)))
      as H.
    by destruct (JS.sqrt _) as [[]|[]| |[] ? ?].
Qed.

End Distance.
